(** * Double Metaphone (charltoncr/metaphone): a shallow embedding

    The Go package has two parts: [DoubleMetaphone] (metaphone.go), a single
    pass over the upper-cased word that fills two code buffers, and the
    convenience layer (convenience.go): [NewMetaphMap], [MatchWord], [Len]
    and [removeDups] over a [map[string][]string], and in its later
    revision [NewMetaphMapFromFile].

    Conventions of the embedding:
    - a Go [string] is a byte sequence: Rocq's [string];
    - a Go [int] is a [Z] (nothing the encoder computes leaves the 64-bit
      range: its sums and differences lie between -4 and [len(word) + 5],
      and [maxlength] is only compared);
    - a [rune] is a [Z];
    - a Go expression that can panic (indexing, slicing, the explicit
      [panic] of [MetaphAdd]) yields a [result]. *)

From Stdlib Require Import ZArith List Ascii String Bool Lia.
From stdpp Require Import gmap strings list.

Local Open Scope Z_scope.

(** ** Outcomes of Go code *)

Inductive result (A : Type) : Type :=
| Ok (a : A)
| Panic (msg : string)
| OutOfFuel.

Arguments Ok {A} a.
Arguments Panic {A} msg.
Arguments OutOfFuel {A}.

Definition bind {A B : Type} (m : result A) (k : A -> result B) : result B :=
  match m with
  | Ok a => k a
  | Panic msg => Panic msg
  | OutOfFuel => OutOfFuel
  end.

Notation "x <- m ;; k" := (bind m (fun x => k))
  (at level 100, m at next level, right associativity).

(** Conditions are evaluated left to right with Go's short-circuit [&&]
    and [||]: the right operand is not looked at when the left decides. *)
Definition andM (a b : result bool) : result bool :=
  x <- a ;; if x then b else Ok false.

Definition orM (a b : result bool) : result bool :=
  x <- a ;; if x then Ok true else b.

Definition notM (a : result bool) : result bool :=
  x <- a ;; Ok (negb x).

Infix "&&&" := andM (at level 40, left associativity).
Infix "|||" := orM (at level 50, left associativity).

(** [if c { t } else { e }] with a condition that is computed. *)
Notation "'ifM' c 'then' t 'else' e" :=
  (bind c (fun b : bool => if b then t else e))
  (at level 10, c at level 200, t at level 200, e at level 200).

(** ** Go strings, bytes and runes *)

Definition rune := Z.

Definition ascii_to_Z (a : ascii) : Z := Z.of_N (N_of_ascii a).
Definition ascii_of_Z (b : Z) : ascii := ascii_of_N (Z.to_N b).

Definition bytes_of_string (s : string) : list Z :=
  map ascii_to_Z (list_ascii_of_string s).
Definition string_of_bytes (bs : list Z) : string :=
  string_of_list_ascii (map ascii_of_Z bs).

(** [len(s)] *)
Definition len (s : string) : Z := Z.of_nat (String.length s).

(** A rune literal such as ['B']. *)
Definition rn (a : ascii) : rune := ascii_to_Z a.
(** ['Ç'] (U+00C7) and ['Ñ'] (U+00D1). *)
Definition rune_C_cedilla : rune := 199.
Definition rune_N_tilde : rune := 209.

Definition RuneError : rune := 65533.

(** *** UTF-8 (package unicode/utf8) *)

Definition cont_byte (b : Z) : bool := (128 <=? b) && (b <=? 191).

(** [utf8.DecodeRuneInString] on a non-empty string: the rune and its
    width.  A byte that does not start a well-formed sequence decodes to
    [RuneError] with width 1. *)
Definition DecodeRune (bs : list Z) : rune * nat :=
  match bs with
  | [] => (RuneError, 0%nat)
  | s0 :: t =>
    if s0 <? 128 then (s0, 1%nat)
    else if (s0 <? 194) || (244 <? s0) then (RuneError, 1%nat)
    else
      let lo := if s0 =? 224 then 160 else if s0 =? 240 then 144 else 128 in
      let hi := if s0 =? 237 then 159 else if s0 =? 244 then 143 else 191 in
      match t with
      | [] => (RuneError, 1%nat)
      | s1 :: t1 =>
        if (s1 <? lo) || (hi <? s1) then (RuneError, 1%nat)
        else if s0 <? 224 then
          (Z.lor (Z.shiftl (Z.land s0 31) 6) (Z.land s1 63), 2%nat)
        else
          match t1 with
          | [] => (RuneError, 1%nat)
          | s2 :: t2 =>
            if negb (cont_byte s2) then (RuneError, 1%nat)
            else if s0 <? 240 then
              (Z.lor (Z.lor (Z.shiftl (Z.land s0 15) 12)
                            (Z.shiftl (Z.land s1 63) 6))
                     (Z.land s2 63), 3%nat)
            else
              match t2 with
              | [] => (RuneError, 1%nat)
              | s3 :: _ =>
                if negb (cont_byte s3) then (RuneError, 1%nat)
                else
                  (Z.lor (Z.lor (Z.lor (Z.shiftl (Z.land s0 7) 18)
                                       (Z.shiftl (Z.land s1 63) 12))
                                (Z.shiftl (Z.land s2 63) 6))
                         (Z.land s3 63), 4%nat)
              end
          end
      end
  end.

(** The runes of a byte sequence, as [for _, c := range s] and [[]rune(s)]
    produce them.  Every rune consumes at least one byte, so the number of
    bytes is enough fuel. *)
Fixpoint decode_runes (fuel : nat) (bs : list Z) : list rune :=
  match fuel with
  | O => []
  | S fuel' =>
    match bs with
    | [] => []
    | _ :: _ =>
      let '(r, w) := DecodeRune bs in
      r :: decode_runes fuel' (skipn w bs)
    end
  end.

(** [[]rune(s)] *)
Definition runes (s : string) : list rune :=
  let bs := bytes_of_string s in decode_runes (List.length bs) bs.

(** [utf8.AppendRune]: surrogates and values outside the Unicode range are
    written as [RuneError]. *)
Definition EncodeRune (r : rune) : list Z :=
  if (0 <=? r) && (r <=? 127) then [r]
  else if (0 <=? r) && (r <=? 2047) then
    [Z.lor 192 (Z.shiftr r 6); Z.lor 128 (Z.land r 63)]
  else if (r <? 0) || (1114111 <? r) || ((55296 <=? r) && (r <=? 57343)) then
    [239; 191; 189]
  else if r <=? 65535 then
    [Z.lor 224 (Z.shiftr r 12); Z.lor 128 (Z.land (Z.shiftr r 6) 63);
     Z.lor 128 (Z.land r 63)]
  else
    [Z.lor 240 (Z.shiftr r 18); Z.lor 128 (Z.land (Z.shiftr r 12) 63);
     Z.lor 128 (Z.land (Z.shiftr r 6) 63); Z.lor 128 (Z.land r 63)].

(** [string(rs)] for a rune slice [rs]. *)
Definition string_of_runes (rs : list rune) : string :=
  string_of_bytes (flat_map EncodeRune rs).

(** *** Case mapping (packages unicode and strings)

    [unicode.ToUpper] and [unicode.ToLower] are table look-ups in Go.  The
    tables are written out here for Basic Latin, Latin-1 Supplement and
    Latin Extended-A (U+0000 to U+017F), and for the Kelvin and Angstrom
    signs; other code points are returned unchanged.  No code point above
    U+017F has an upper-case form among the runes the encoder looks for
    (the letters A to Z, U+00C7, U+00D1 and the blank). *)

Definition odd_down (r : rune) : rune := if Z.odd r then r - 1 else r.
Definition even_down (r : rune) : rune := if Z.even r then r - 1 else r.
Definition even_up (r : rune) : rune := if Z.even r then r + 1 else r.
Definition odd_up (r : rune) : rune := if Z.odd r then r + 1 else r.

Definition within (lo hi r : Z) : bool := (lo <=? r) && (r <=? hi).

Definition unicode_ToUpper (r : rune) : rune :=
  if r <=? 127 then (if within 97 122 r then r - 32 else r)
  else if r =? 181 then 924
  else if within 224 254 r && negb (r =? 247) then r - 32
  else if r =? 255 then 376
  else if within 256 303 r then odd_down r
  else if r =? 305 then 73
  else if within 306 311 r then odd_down r
  else if within 313 328 r then even_down r
  else if within 330 375 r then odd_down r
  else if within 377 382 r then even_down r
  else if r =? 383 then 83
  else r.

Definition unicode_ToLower (r : rune) : rune :=
  if r <=? 127 then (if within 65 90 r then r + 32 else r)
  else if within 192 222 r && negb (r =? 215) then r + 32
  else if within 256 303 r then even_up r
  else if r =? 304 then 105
  else if within 306 311 r then even_up r
  else if within 313 328 r then odd_up r
  else if within 330 375 r then even_up r
  else if r =? 376 then 255
  else if within 377 382 r then odd_up r
  else if r =? 8490 then 107
  else if r =? 8491 then 229
  else r.

(** [strings.Map] for a mapping that never returns a negative rune: every
    rune of [s] (an ill-formed byte counts as [RuneError]) is replaced by
    the encoding of its image. *)
Definition strings_Map (mapping : rune -> rune) (s : string) : string :=
  string_of_runes (map mapping (runes s)).

(** The byte-wise case changes of the ASCII paths of [strings.ToUpper] and
    [strings.ToLower]. *)
Definition ascii_upper (c : Z) : Z := if within 97 122 c then c - 32 else c.
Definition ascii_lower (c : Z) : Z := if within 65 90 c then c + 32 else c.

Definition isASCII (s : string) : bool :=
  forallb (fun b => b <? 128) (bytes_of_string s).

(** [strings.ToUpper]: a byte-wise pass for an all-ASCII string, otherwise
    [Map(unicode.ToUpper, s)]. *)
Definition strings_ToUpper (s : string) : string :=
  if isASCII s then string_of_bytes (map ascii_upper (bytes_of_string s))
  else strings_Map unicode_ToUpper s.

(** [strings.ToLower] *)
Definition strings_ToLower (s : string) : string :=
  if isASCII s then string_of_bytes (map ascii_lower (bytes_of_string s))
  else strings_Map unicode_ToLower s.

(** [strings.Contains(s, substr)] *)
Fixpoint strings_Contains (s substr : string) : bool :=
  String.prefix substr s ||
  match s with
  | EmptyString => false
  | String _ s' => strings_Contains s' substr
  end.

(** [strings.ContainsRune(s, r)] for an ASCII string [s]. *)
Definition strings_ContainsRune (s : string) (r : rune) : bool :=
  existsb (fun b => b =? r) (bytes_of_string s).

(** [l[i]] and [l[lo:hi]]: out of range is a run-time panic. *)
Definition go_index {A : Type} (l : list A) (i : Z) : result A :=
  if i <? 0 then Panic "index out of range"
  else match l !! Z.to_nat i with
       | Some x => Ok x
       | None => Panic "index out of range"
       end.

Definition go_slice {A : Type} (l : list A) (lo hi : Z) : result (list A) :=
  if (0 <=? lo) && (lo <=? hi) && (hi <=? Z.of_nat (List.length l)) then
    Ok (firstn (Z.to_nat (hi - lo)) (skipn (Z.to_nat lo) l))
  else Panic "slice bounds out of range".

(** [s[:hi]] on a string. *)
Definition string_prefix_to (s : string) (hi : Z) : result string :=
  bs <- go_slice (bytes_of_string s) 0 hi ;; Ok (string_of_bytes bs).

(** ** The encoder (metaphone.go) *)

(** The variables of [DoubleMetaphone] that the rules update. [primary] and
    [secondary] are the two [strings.Builder]s. *)
Record state : Type := mkState {
  current : Z;
  primary : string;
  secondary : string;
  alternate : bool
}.

Definition advance (n : Z) (st : state) : state :=
  mkState (current st + n) (primary st) (secondary st) (alternate st).

Definition write_primary (s : string) (st : state) : state :=
  mkState (current st) (primary st +:+ s) (secondary st) (alternate st).

Definition write_secondary (s : string) (st : state) : state :=
  mkState (current st) (primary st) (secondary st +:+ s) (alternate st).

Definition set_alternate (st : state) : state :=
  mkState (current st) (primary st) (secondary st) true.

Definition blank : Z := 32.

(** [MetaphAdd(s...)] *)
Definition MetaphAdd (s : list string) (st : state) : result state :=
  let n := Z.of_nat (List.length s) in
  if (n <? 1) || (2 <? n) then Panic "MetaphAdd requires one or two arguments"
  else
    main <- go_index s 0 ;;
    let st := write_primary main st in
    if n =? 1 then Ok (write_secondary main st)
    else
      alt <- go_index s 1 ;;
      if 0 <? len alt then
        let st := set_alternate st in
        ifM (c <- go_index (bytes_of_string alt) 0 ;; Ok (negb (c =? blank)))
        then Ok (write_secondary alt st)
        else Ok st
      else
        ifM Ok (0 <? len main)
            &&& (c <- go_index (bytes_of_string main) 0 ;; Ok (negb (c =? blank)))
        then Ok (write_secondary main st)
        else Ok st.

Section Encoder.

(** What the closures of [DoubleMetaphone] capture and never change:
    [word] (upper-cased and padded), [rword = []rune(word)], and
    [length = len(word)] taken before upper-casing and padding, here
    [wlen]; [maxlength] after its default has been applied. *)
Variable word : string.
Variable rword : list rune.
Variable wlen : Z.
Variable maxlength : Z.

Definition rwordLen : Z := Z.of_nat (List.length rword).
Definition last : Z := wlen - 1.

Definition Found (s : string) : bool := strings_Contains word s.

Definition SlavoGermanic : result bool :=
  Ok (Found "W") ||| Ok (Found "K") ||| Ok (Found "CZ").

Definition GetAt (at_ : Z) : result rune :=
  if (at_ <? 0) || (at_ >=? rwordLen) then Ok 0
  else go_index rword at_.

Definition IsVowel (at_ : Z) : result bool :=
  if (at_ <? 0) || (at_ >=? rwordLen) then Ok false
  else c <- GetAt at_ ;; Ok (strings_ContainsRune "AEIOUY" c).

Definition StringAt (start length : Z) (s : list string) : result bool :=
  if (start <? 0) || (start + length >=? rwordLen) then Ok false
  else
    sl <- go_slice rword start (start + length) ;;
    let target := string_of_runes sl in
    Ok (existsb (fun si => String.eqb si target) s).

(** [GetAt(at) == 'c'] and [GetAt(at) != 'c'] *)
Definition GetAt_is (at_ : Z) (c : ascii) : result bool :=
  r <- GetAt at_ ;; Ok (r =? rn c).
Definition GetAt_isnt (at_ : Z) (c : ascii) : result bool :=
  r <- GetAt at_ ;; Ok (negb (r =? rn c)).

Arguments GetAt_is at_ c%_char.
Arguments GetAt_isnt at_ c%_char.

(** *** The rules, one function per [case] of the [switch].  A [break]
    ends the function; code after an [if] that breaks is its [else]. *)

Definition case_vowel (st : state) : result state :=
  st <- (if current st =? 0 then MetaphAdd ["A"] st else Ok st) ;;
  Ok (advance 1 st).

Definition case_B (st : state) : result state :=
  st <- MetaphAdd ["P"] st ;;
  ifM GetAt_is (current st + 1) "B"
  then Ok (advance 2 st)
  else Ok (advance 1 st).

Definition case_C_cedilla (st : state) : result state :=
  st <- MetaphAdd ["S"] st ;;
  Ok (advance 1 st).

(** The ["CH"] rule of [case 'C']. *)
Definition case_C_CH (st : state) : result state :=
  let cur := current st in
  (* find 'michael' *)
  ifM Ok (cur >? 0) &&& StringAt cur 4 ["CHAE"]
  then st <- MetaphAdd ["K"; "X"] st ;; Ok (advance 2 st)
  else
  (* greek roots e.g. 'chemistry', 'chorus' *)
  ifM Ok (cur =? 0)
      &&& (StringAt (cur + 1) 5 ["HARAC"; "HARIS"]
           ||| StringAt (cur + 1) 3 ["HOR"; "HYM"; "HIA"; "HEM"])
      &&& notM (StringAt 0 5 ["CHORE"])
  then st <- MetaphAdd ["K"] st ;; Ok (advance 2 st)
  else
  (* germanic, greek, or otherwise 'ch' for 'kh' sound *)
  st <- (ifM (StringAt 0 4 ["VAN "; "VON "] ||| StringAt 0 3 ["SCH"])
             (* 'architect but not 'arch', 'orchestra', 'orchid' *)
             ||| StringAt (cur - 2) 6 ["ORCHES"; "ARCHIT"; "ORCHID"]
             ||| StringAt (cur + 2) 1 ["T"; "S"]
             ||| ((StringAt (cur - 1) 1 ["A"; "O"; "U"; "E"] ||| Ok (cur =? 0))
                  (* e.g., 'wachtler', 'wechsler', but not 'tichner' *)
                  &&& StringAt (cur + 2) 1
                        ["L"; "R"; "N"; "M"; "B"; "H"; "F"; "V"; "W"; " "])
         then MetaphAdd ["K"] st
         else
           if cur >? 0 then
             ifM StringAt 0 2 ["MC"]
             then (* e.g., "McHugh" *) MetaphAdd ["K"] st
             else MetaphAdd ["X"; "K"] st
           else MetaphAdd ["X"] st) ;;
  Ok (advance 2 st).

(** The double-C rule of [case 'C']. *)
Definition case_C_CC (st : state) : result state :=
  let cur := current st in
  (* 'bellocchio' but not 'bacchus' *)
  ifM StringAt (cur + 2) 1 ["I"; "E"; "H"] &&& notM (StringAt (cur + 2) 2 ["HU"])
  then
    (* 'accident', 'accede' 'succeed' *)
    st <- (ifM (Ok (cur =? 1) &&& GetAt_is (cur - 1) "A")
               ||| StringAt (cur - 1) 5 ["UCCEE"; "UCCES"]
           then MetaphAdd ["KS"] st
           else (* 'bacci', 'bertucci', other italian *) MetaphAdd ["X"] st) ;;
    Ok (advance 3 st)
  else (* Pierce's rule *)
    st <- MetaphAdd ["K"] st ;; Ok (advance 2 st).

Definition case_C (st : state) : result state :=
  let cur := current st in
  (* various germanic *)
  ifM Ok (cur >? 1)
      &&& notM (IsVowel (cur - 2))
      &&& StringAt (cur - 1) 3 ["ACH"]
      &&& (GetAt_isnt (cur + 2) "I"
           &&& (GetAt_isnt (cur + 2) "E"
                ||| StringAt (cur - 2) 6 ["BACHER"; "MACHER"]))
  then st <- MetaphAdd ["K"] st ;; Ok (advance 2 st)
  else
  (* special case 'caesar' *)
  ifM Ok (cur =? 0) &&& StringAt cur 6 ["CAESAR"]
  then st <- MetaphAdd ["S"] st ;; Ok (advance 2 st)
  else
  (* italian 'chianti' *)
  ifM StringAt cur 4 ["CHIA"]
  then st <- MetaphAdd ["K"] st ;; Ok (advance 2 st)
  else
  ifM StringAt cur 2 ["CH"]
  then case_C_CH st
  else
  (* e.g, 'czerny' *)
  ifM StringAt cur 2 ["CZ"] &&& notM (StringAt (cur - 2) 4 ["WICZ"])
  then st <- MetaphAdd ["S"; "X"] st ;; Ok (advance 2 st)
  else
  (* e.g., 'focaccia' *)
  ifM StringAt (cur + 1) 3 ["CIA"]
  then st <- MetaphAdd ["X"] st ;; Ok (advance 3 st)
  else
  (* double 'C', but not if e.g. 'McClellan' *)
  ifM StringAt cur 2 ["CC"] &&& notM (Ok (cur =? 1) &&& GetAt_is 0 "M")
  then case_C_CC st
  else
  ifM StringAt cur 2 ["CK"; "CG"; "CQ"]
  then st <- MetaphAdd ["K"] st ;; Ok (advance 2 st)
  else
  ifM StringAt cur 2 ["CI"; "CE"; "CY"]
  then
    (* italian vs. english *)
    st <- (ifM StringAt cur 3 ["CIO"; "CIE"; "CIA"]
           then MetaphAdd ["S"; "X"] st
           else MetaphAdd ["S"] st) ;;
    Ok (advance 2 st)
  else
  (* else *)
  st <- MetaphAdd ["K"] st ;;
  (* name sent in 'mac caffrey', 'mac gregor *)
  ifM StringAt (cur + 1) 2 [" C"; " Q"; " G"]
  then Ok (advance 3 st)
  else
    ifM StringAt (cur + 1) 1 ["C"; "K"; "Q"]
        &&& notM (StringAt (cur + 1) 2 ["CE"; "CI"])
    then Ok (advance 2 st)
    else Ok (advance 1 st).

Definition case_D (st : state) : result state :=
  let cur := current st in
  ifM StringAt cur 2 ["DG"]
  then
    ifM StringAt (cur + 2) 1 ["I"; "E"; "Y"]
    then (* e.g. 'edge' *) st <- MetaphAdd ["J"] st ;; Ok (advance 3 st)
    else (* e.g. 'edgar' *) st <- MetaphAdd ["TK"] st ;; Ok (advance 2 st)
  else
  ifM StringAt cur 2 ["DT"; "DD"]
  then st <- MetaphAdd ["T"] st ;; Ok (advance 2 st)
  else
  st <- MetaphAdd ["T"] st ;; Ok (advance 1 st).

Definition case_F (st : state) : result state :=
  st <- (ifM GetAt_is (current st + 1) "F"
         then Ok (advance 2 st)
         else Ok (advance 1 st)) ;;
  MetaphAdd ["F"] st.

(** The ["GH"] rule of [case 'G']. *)
Definition case_G_GH (st : state) : result state :=
  let cur := current st in
  ifM Ok (cur >? 0) &&& notM (IsVowel (cur - 1))
  then st <- MetaphAdd ["K"] st ;; Ok (advance 2 st)
  else
  (* 'ghislane', ghiradelli *)
  ifM Ok (cur <? 3) &&& Ok (cur =? 0)
  then
    st <- (ifM GetAt_is (cur + 2) "I"
           then MetaphAdd ["J"] st
           else MetaphAdd ["K"] st) ;;
    Ok (advance 2 st)
  else
  (* Parker's rule (with some further refinements) - e.g., 'hugh' *)
  st <- (ifM notM ((Ok (cur >? 1) &&& StringAt (cur - 2) 1 ["B"; "H"; "D"])
                   (* e.g., 'bough' *)
                   ||| (Ok (cur >? 2) &&& StringAt (cur - 3) 1 ["B"; "H"; "D"])
                   (* e.g., 'broughton' *)
                   ||| (Ok (cur >? 3) &&& StringAt (cur - 4) 1 ["B"; "H"]))
         then
           (* e.g., 'laugh', 'McLaughlin', 'cough', 'gough', 'rough', 'tough' *)
           ifM Ok (cur >? 2) &&& GetAt_is (cur - 1) "U"
               &&& StringAt (cur - 3) 1 ["C"; "G"; "L"; "R"; "T"]
           then MetaphAdd ["F"] st
           else
             ifM Ok (cur >? 0) &&& GetAt_isnt (cur - 1) "I"
             then MetaphAdd ["K"] st
             else Ok st
         else Ok st) ;;
  Ok (advance 2 st).

(** The ["GN"] rule of [case 'G']. *)
Definition case_G_GN (st : state) : result state :=
  let cur := current st in
  st <- (ifM Ok (cur =? 1) &&& IsVowel 0 &&& notM SlavoGermanic
         then MetaphAdd ["KN"; "N"] st
         else
           (* not e.g. 'cagney' *)
           ifM notM (StringAt (cur + 2) 2 ["EY"])
               &&& GetAt_isnt (cur + 1) "Y" &&& notM SlavoGermanic
           then MetaphAdd ["N"; "KN"] st
           else MetaphAdd ["KN"] st) ;;
  Ok (advance 2 st).

Definition case_G (st : state) : result state :=
  let cur := current st in
  ifM GetAt_is (cur + 1) "H"
  then case_G_GH st
  else
  ifM GetAt_is (cur + 1) "N"
  then case_G_GN st
  else
  (* 'tagliaro' *)
  ifM StringAt (cur + 1) 2 ["LI"] &&& notM SlavoGermanic
  then st <- MetaphAdd ["KL"; "L"] st ;; Ok (advance 2 st)
  else
  (* -ges-,-gep-,-gel-, -gie- at beginning *)
  ifM Ok (cur =? 0)
      &&& (GetAt_is (cur + 1) "Y"
           ||| StringAt (cur + 1) 2
                 ["ES"; "EP"; "EB"; "EL"; "EY"; "IB"; "IL"; "IN"; "IE"; "EI"; "ER"])
  then st <- MetaphAdd ["K"; "J"] st ;; Ok (advance 2 st)
  else
  (* -ger-,  -gy- *)
  ifM (StringAt (cur + 1) 2 ["ER"] ||| GetAt_is (cur + 1) "Y")
      &&& notM (StringAt 0 6 ["DANGER"; "RANGER"; "MANGER"])
      &&& notM (StringAt (cur - 1) 1 ["E"; "I"])
      &&& notM (StringAt (cur - 1) 3 ["RGY"; "OGY"])
  then st <- MetaphAdd ["K"; "J"] st ;; Ok (advance 2 st)
  else
  (* italian e.g, 'biaggi' *)
  ifM StringAt (cur + 1) 1 ["E"; "I"; "Y"]
      ||| StringAt (cur - 1) 4 ["AGGI"; "OGGI"]
  then
    st <- (ifM StringAt 0 4 ["VAN "; "VON "] ||| StringAt 0 3 ["SCH"]
               ||| StringAt (cur + 1) 2 ["ET"]
           then (* obvious germanic *) MetaphAdd ["K"] st
           else
             (* always soft if french ending *)
             ifM StringAt (cur + 1) 4 ["IER "]
             then MetaphAdd ["J"] st
             else MetaphAdd ["J"; "K"] st) ;;
    Ok (advance 2 st)
  else
  st <- (ifM GetAt_is (cur + 1) "G"
         then Ok (advance 2 st)
         else Ok (advance 1 st)) ;;
  MetaphAdd ["K"] st.

Definition case_H (st : state) : result state :=
  let cur := current st in
  (* only keep if first & before vowel or btw. 2 vowels *)
  ifM (Ok (cur =? 0) ||| IsVowel (cur - 1)) &&& IsVowel (cur + 1)
  then st <- MetaphAdd ["H"] st ;; Ok (advance 2 st)
  else (* also takes care of 'HH' *) Ok (advance 1 st).

Definition case_J (st : state) : result state :=
  let cur := current st in
  (* obvious spanish, 'jose', 'san jacinto' *)
  ifM StringAt cur 4 ["JOSE"] ||| StringAt 0 4 ["SAN "]
  then
    st <- (ifM (Ok (cur =? 0) &&& GetAt_is (cur + 4) " ")
               ||| StringAt 0 4 ["SAN "]
           then MetaphAdd ["H"] st
           else MetaphAdd ["J"; "H"] st) ;;
    Ok (advance 1 st)
  else
  st <- (ifM Ok (cur =? 0) &&& notM (StringAt cur 4 ["JOSE"])
         then (* Yankelovich/Jankelowicz *) MetaphAdd ["J"; "A"] st
         else
           (* spanish pron. of e.g. 'bajador' *)
           ifM IsVowel (cur - 1) &&& notM SlavoGermanic
               &&& (GetAt_is (cur + 1) "A" ||| GetAt_is (cur + 1) "O")
           then MetaphAdd ["J"; "H"] st
           else
             if cur =? last then MetaphAdd ["J"; " "] st
             else
               ifM notM (StringAt (cur + 1) 1
                           ["L"; "T"; "K"; "S"; "N"; "M"; "B"; "Z"])
                   &&& notM (StringAt (cur - 1) 1 ["S"; "K"; "L"])
               then MetaphAdd ["J"] st
               else Ok st) ;;
  (* it could happen! *)
  ifM GetAt_is (cur + 1) "J"
  then Ok (advance 2 st)
  else Ok (advance 1 st).

Definition case_K (st : state) : result state :=
  st <- (ifM GetAt_is (current st + 1) "K"
         then Ok (advance 2 st)
         else Ok (advance 1 st)) ;;
  MetaphAdd ["K"] st.

Definition case_L (st : state) : result state :=
  let cur := current st in
  ifM GetAt_is (cur + 1) "L"
  then
    (* spanish e.g. 'cabrillo', 'gallegos' *)
    ifM (Ok (cur =? wlen - 3)
         &&& StringAt (cur - 1) 4 ["ILLO"; "ILLA"; "ALLE"])
        ||| ((StringAt (last - 1) 2 ["AS"; "OS"] ||| StringAt last 1 ["A"; "O"])
             &&& StringAt (cur - 1) 4 ["ALLE"])
    then st <- MetaphAdd ["L"; " "] st ;; Ok (advance 2 st)
    else MetaphAdd ["L"] (advance 2 st)
  else MetaphAdd ["L"] (advance 1 st).

Definition case_M (st : state) : result state :=
  let cur := current st in
  st <- (ifM (StringAt (cur - 1) 3 ["UMB"]
              &&& (Ok (cur + 1 =? last) ||| StringAt (cur + 2) 2 ["ER"]))
             (* 'dumb','thumb' *)
             ||| GetAt_is (cur + 1) "M"
         then Ok (advance 2 st)
         else Ok (advance 1 st)) ;;
  MetaphAdd ["M"] st.

Definition case_N (st : state) : result state :=
  st <- (ifM GetAt_is (current st + 1) "N"
         then Ok (advance 2 st)
         else Ok (advance 1 st)) ;;
  MetaphAdd ["N"] st.

Definition case_N_tilde (st : state) : result state :=
  MetaphAdd ["N"] (advance 1 st).

Definition case_P (st : state) : result state :=
  let cur := current st in
  ifM GetAt_is (cur + 1) "H"
  then st <- MetaphAdd ["F"] st ;; Ok (advance 2 st)
  else
  (* also account for "campbell", "raspberry" *)
  st <- (ifM StringAt (cur + 1) 1 ["P"; "B"]
         then Ok (advance 2 st)
         else Ok (advance 1 st)) ;;
  MetaphAdd ["P"] st.

Definition case_Q (st : state) : result state :=
  st <- (ifM GetAt_is (current st + 1) "Q"
         then Ok (advance 2 st)
         else Ok (advance 1 st)) ;;
  MetaphAdd ["K"] st.

Definition case_R (st : state) : result state :=
  let cur := current st in
  (* french e.g. 'rogier', but exclude 'hochmeier' *)
  st <- (ifM Ok (cur =? last) &&& notM SlavoGermanic
             &&& StringAt (cur - 2) 2 ["IE"]
             &&& notM (StringAt (cur - 4) 2 ["ME"; "MA"])
         then MetaphAdd [""; "R"] st
         else MetaphAdd ["R"] st) ;;
  ifM GetAt_is (cur + 1) "R"
  then Ok (advance 2 st)
  else Ok (advance 1 st).

(** The ["SC"] rule of [case 'S']. *)
Definition case_S_SC (st : state) : result state :=
  let cur := current st in
  (* Schlesinger's rule *)
  ifM GetAt_is (cur + 2) "H"
  then
    (* dutch origin, e.g. 'school', 'schooner' *)
    ifM StringAt (cur + 3) 2 ["OO"; "ER"; "EN"; "UY"; "ED"; "EM"]
    then
      (* 'schermerhorn', 'schenker' *)
      st <- (ifM StringAt (cur + 3) 2 ["ER"; "EN"]
             then MetaphAdd ["X"; "SK"] st
             else MetaphAdd ["SK"] st) ;;
      Ok (advance 3 st)
    else
      st <- (ifM Ok (cur =? 0) &&& notM (IsVowel 3) &&& GetAt_isnt 3 "W"
             then MetaphAdd ["X"; "S"] st
             else MetaphAdd ["X"] st) ;;
      Ok (advance 3 st)
  else
  ifM StringAt (cur + 2) 1 ["I"; "E"; "Y"]
  then st <- MetaphAdd ["S"] st ;; Ok (advance 3 st)
  else
  (* else *)
  st <- MetaphAdd ["SK"] st ;; Ok (advance 3 st).

Definition case_S (st : state) : result state :=
  let cur := current st in
  (* special cases 'island', 'isle', 'carlisle', 'carlysle' *)
  ifM StringAt (cur - 1) 3 ["ISL"; "YSL"]
  then Ok (advance 1 st)
  else
  (* special case 'sugar-' *)
  ifM Ok (cur =? 0) &&& StringAt cur 5 ["SUGAR"]
  then st <- MetaphAdd ["X"; "S"] st ;; Ok (advance 1 st)
  else
  ifM StringAt cur 2 ["SH"]
  then
    (* germanic *)
    st <- (ifM StringAt (cur + 1) 4 ["HEIM"; "HOEK"; "HOLM"; "HOLZ"]
           then MetaphAdd ["S"] st
           else MetaphAdd ["X"] st) ;;
    Ok (advance 2 st)
  else
  (* italian & armenian *)
  ifM StringAt cur 3 ["SIO"; "SIA"] ||| StringAt cur 4 ["SIAN"]
  then
    st <- (ifM notM SlavoGermanic
           then MetaphAdd ["S"; "X"] st
           else MetaphAdd ["S"] st) ;;
    Ok (advance 3 st)
  else
  (* german & anglicisations, e.g. 'smith' match 'schmidt', 'snider' match
     'schneider'; also, -sz- in slavic language altho in hungarian it is
     pronounced 's' *)
  ifM (Ok (cur =? 0) &&& StringAt (cur + 1) 1 ["M"; "N"; "L"; "W"])
      ||| StringAt (cur + 1) 1 ["Z"]
  then
    st <- MetaphAdd ["S"; "X"] st ;;
    ifM StringAt (cur + 1) 1 ["Z"]
    then Ok (advance 2 st)
    else Ok (advance 1 st)
  else
  ifM StringAt cur 2 ["SC"]
  then case_S_SC st
  else
  (* french e.g. 'resnais', 'artois' *)
  st <- (ifM Ok (cur =? last) &&& StringAt (cur - 2) 2 ["AI"; "OI"]
         then MetaphAdd [""; "S"] st
         else MetaphAdd ["S"] st) ;;
  ifM StringAt (cur + 1) 1 ["S"; "Z"]
  then Ok (advance 2 st)
  else Ok (advance 1 st).

Definition case_T (st : state) : result state :=
  let cur := current st in
  ifM StringAt cur 4 ["TION"]
  then st <- MetaphAdd ["X"] st ;; Ok (advance 3 st)
  else
  ifM StringAt cur 3 ["TIA"; "TCH"]
  then st <- MetaphAdd ["X"] st ;; Ok (advance 3 st)
  else
  ifM StringAt cur 2 ["TH"] ||| StringAt cur 3 ["TTH"]
  then
    (* special case 'thomas', 'thames' or germanic *)
    st <- (ifM StringAt (cur + 2) 2 ["OM"; "AM"]
               ||| StringAt 0 4 ["VAN "; "VON "]
               ||| StringAt 0 3 ["SCH"]
           then MetaphAdd ["T"] st
           else MetaphAdd ["0"; "T"] st) ;;
    Ok (advance 2 st)
  else
  st <- (ifM StringAt (cur + 1) 1 ["T"; "D"]
         then Ok (advance 2 st)
         else Ok (advance 1 st)) ;;
  MetaphAdd ["T"] st.

Definition case_V (st : state) : result state :=
  st <- (ifM GetAt_is (current st + 1) "V"
         then Ok (advance 2 st)
         else Ok (advance 1 st)) ;;
  MetaphAdd ["F"] st.

Definition case_W (st : state) : result state :=
  let cur := current st in
  (* can also be in middle of word *)
  ifM StringAt cur 2 ["WR"]
  then st <- MetaphAdd ["R"] st ;; Ok (advance 2 st)
  else
  st <- (ifM Ok (cur =? 0) &&& (IsVowel (cur + 1) ||| StringAt cur 2 ["WH"])
         then
           ifM IsVowel (cur + 1)
           then (* Wasserman should match Vasserman *) MetaphAdd ["A"; "F"] st
           else (* need Uomo to match Womo *) MetaphAdd ["A"] st
         else Ok st) ;;
  (* Arnow should match Arnoff *)
  ifM (Ok (cur =? last) &&& IsVowel (cur - 1))
      ||| StringAt (cur - 1) 5 ["EWSKI"; "EWSKY"; "OWSKI"; "OWSKY"]
      ||| StringAt 0 3 ["SCH"]
  then st <- MetaphAdd [""; "F"] st ;; Ok (advance 1 st)
  else
  (* polish e.g. 'filipowicz' *)
  ifM StringAt cur 4 ["WICZ"; "WITZ"]
  then st <- MetaphAdd ["TS"; "FX"] st ;; Ok (advance 4 st)
  else
  (* else skip it *)
  Ok (advance 1 st).

Definition case_X (st : state) : result state :=
  let cur := current st in
  (* french e.g. breaux *)
  st <- (ifM notM (Ok (cur =? last)
                   &&& (StringAt (cur - 3) 3 ["IAU"; "EAU"]
                        ||| StringAt (cur - 2) 2 ["AU"; "OU"]))
         then MetaphAdd ["KS"] st
         else Ok st) ;;
  ifM StringAt (cur + 1) 1 ["C"; "X"]
  then Ok (advance 2 st)
  else Ok (advance 1 st).

Definition case_Z (st : state) : result state :=
  let cur := current st in
  (* chinese pinyin e.g. 'zhao' *)
  ifM GetAt_is (cur + 1) "H"
  then st <- MetaphAdd ["J"] st ;; Ok (advance 2 st)
  else
  st <- (ifM StringAt (cur + 1) 2 ["ZO"; "ZI"; "ZA"]
             ||| (SlavoGermanic &&& (Ok (cur >? 0) &&& GetAt_isnt (cur - 1) "T"))
         then MetaphAdd ["S"; "TS"] st
         else MetaphAdd ["S"] st) ;;
  ifM GetAt_is (cur + 1) "Z"
  then Ok (advance 2 st)
  else Ok (advance 1 st).

(** *** The [switch] of the main loop *)

Definition is_vowel_case (c : rune) : bool :=
  (c =? rn "A") || (c =? rn "E") || (c =? rn "I") || (c =? rn "O")
  || (c =? rn "U") || (c =? rn "Y").

Definition step (st : state) : result state :=
  c <- GetAt (current st) ;;
  if is_vowel_case c then case_vowel st
  else if c =? rn "B" then case_B st
  else if c =? rune_C_cedilla then case_C_cedilla st
  else if c =? rn "C" then case_C st
  else if c =? rn "D" then case_D st
  else if c =? rn "F" then case_F st
  else if c =? rn "G" then case_G st
  else if c =? rn "H" then case_H st
  else if c =? rn "J" then case_J st
  else if c =? rn "K" then case_K st
  else if c =? rn "L" then case_L st
  else if c =? rn "M" then case_M st
  else if c =? rn "N" then case_N st
  else if c =? rune_N_tilde then case_N_tilde st
  else if c =? rn "P" then case_P st
  else if c =? rn "Q" then case_Q st
  else if c =? rn "R" then case_R st
  else if c =? rn "S" then case_S st
  else if c =? rn "T" then case_T st
  else if c =? rn "V" then case_V st
  else if c =? rn "W" then case_W st
  else if c =? rn "X" then case_X st
  else if c =? rn "Z" then case_Z st
  else (* default *) Ok (advance 1 st).

(** The condition of the [for] loop. *)
Definition loop_cond (st : state) : bool :=
  (current st <? wlen)
  && ((len (primary st) <? maxlength) || (len (secondary st) <? maxlength)).

(** The main loop; [fuel] bounds the number of iterations. *)
Fixpoint main_loop (fuel : nat) (st : state) : result state :=
  if loop_cond st then
    match fuel with
    | O => OutOfFuel
    | S fuel' => st' <- step st ;; main_loop fuel' st'
    end
  else Ok st.

(** The two [if]s before the main loop. *)
Definition prologue (st : state) : result state :=
  (* skip these when at start of word *)
  st <- (ifM StringAt 0 2 ["GN"; "KN"; "PN"; "WR"; "PS"]
         then Ok (advance 1 st)
         else Ok st) ;;
  (* Initial 'X' is pronounced 'Z' e.g. 'Xavier' *)
  ifM GetAt_is 0 "X"
  then st <- MetaphAdd ["S"] st ;; Ok (advance 1 st)
  else Ok st.

Definition initial_state : state := mkState 0 "" "" false.

(** The state when the main loop is left.  Every iteration moves [current]
    forward, so [wlen] iterations are enough (see [main_loop_fuel]). *)
Definition pass : result state :=
  st <- prologue initial_state ;;
  main_loop (Z.to_nat wlen) st.

(** The code after the main loop: truncation, and [metaph2] only when
    [alternate] is set. *)
Definition finish (st : state) : result (string * string) :=
  metaph <- (if len (primary st) >? maxlength
             then string_prefix_to (primary st) maxlength
             else Ok (primary st)) ;;
  metaph2 <- (if alternate st then
                if len (secondary st) >? maxlength
                then string_prefix_to (secondary st) maxlength
                else Ok (secondary st)
              else Ok "") ;;
  Ok (metaph, metaph2).

End Encoder.

Arguments GetAt_is rword at_ c%_char.
Arguments GetAt_isnt rword at_ c%_char.

Definition pad : string := "     ".

(** [DoubleMetaphone(word, maxlength)] *)
Definition DoubleMetaphone (word : string) (maxlength : Z)
  : result (string * string) :=
  let length := len word in
  if length <? 1 then Ok ("", "")
  else
    let maxlength := if maxlength <? 1 then 4 else maxlength in
    let word := strings_ToUpper word +:+ pad in
    let rword := runes word in
    st <- pass word rword length maxlength ;;
    finish maxlength st.

(** ** The convenience layer (convenience.go) *)

(** [MetaphMap]: [mapper] is a Go [map[string][]string]. *)
Record MetaphMap : Type := mkMetaphMap {
  mapper : gmap string (list string);
  maxlen : Z
}.

(** [m[k]]: the [nil] slice when the key is absent. *)
Definition map_get (m : gmap string (list string)) (k : string) : list string :=
  default [] (m !! k).

(** The body of the [for] loop of [NewMetaphMap]. *)
Definition NewMetaphMap_body (maxLen : Z) (MMap : gmap string (list string))
    (word : string) : result (gmap string (list string)) :=
  mm <- DoubleMetaphone word maxLen ;;
  let '(m, m2) := mm in
  let MMap := if 0 <? len m then <[m := map_get MMap m ++ [word]]> MMap
              else MMap in
  let MMap := if 0 <? len m2 then <[m2 := map_get MMap m2 ++ [word]]> MMap
              else MMap in
  Ok MMap.

Fixpoint NewMetaphMap_loop (maxLen : Z) (MMap : gmap string (list string))
    (wordlist : list string) : result (gmap string (list string)) :=
  match wordlist with
  | [] => Ok MMap
  | word :: rest =>
    MMap <- NewMetaphMap_body maxLen MMap word ;;
    NewMetaphMap_loop maxLen MMap rest
  end.

(** [NewMetaphMap(wordlist, maxLen)] *)
Definition NewMetaphMap (wordlist : list string) (maxLen : Z) : result MetaphMap :=
  MMap <- NewMetaphMap_loop maxLen ∅ wordlist ;;
  Ok (mkMetaphMap MMap maxLen).

(** [metaph.Len()] *)
Definition Len (metaph : MetaphMap) : Z := Z.of_nat (size (mapper metaph)).

(** [removeDups(s)]: the keys of a [map[string]struct{}] filled from [s].
    Go leaves the order of a [range] over a map unspecified; [elements]
    fixes one order, and nothing below depends on which. *)
Definition removeDups (s : list string) : list string :=
  let m : gset string := list_to_set s in
  elements m.

(** [metaph.MatchWord(word)].  [output] starts as the bucket of [m] itself,
    and [append] may write behind that bucket's last element when its array
    has room; the bucket keeps its length, so no reader of the map sees
    what was written there. *)
Definition MatchWord (metaph : MetaphMap) (word : string) : result (list string) :=
  mm <- DoubleMetaphone word (maxlen metaph) ;;
  let '(m, m2) := mm in
  let output := if 0 <? len m then map_get (mapper metaph) m else [] in
  let output := if 0 <? len m2 then output ++ map_get (mapper metaph) m2
                else output in
  Ok (removeDups output).

(** ** Vocabulary of the statements *)

(** [m] returns normally, with a value that satisfies [Q]. *)
Definition returns {A : Type} (m : result A) (Q : A -> Prop) : Prop :=
  exists a, m = Ok a /\ Q a.

(** [m] returns normally. *)
Definition total {A : Type} (m : result A) : Prop := exists a, m = Ok a.

(** What one firing of a rule does to the variables of the pass: the cursor
    moves forward by 1 to 4, [alternate] is never cleared, and as long as
    [alternate] stays clear the two buffers receive the same text. *)
Definition fires (st st' : state) : Prop :=
  current st + 1 <= current st' <= current st + 4
  /\ (alternate st = true -> alternate st' = true)
  /\ (alternate st' = false -> primary st = secondary st ->
      primary st' = secondary st').

(** As [fires], for the code before the loop, which may leave the cursor
    where it is. *)
Definition keeps (st st' : state) : Prop :=
  current st <= current st' <= current st + 2
  /\ (alternate st = true -> alternate st' = true)
  /\ (alternate st' = false -> primary st = secondary st ->
      primary st' = secondary st').

(** [MetaphAdd] is given a divergent pair: a second token that is not
    empty. *)
Definition divergent (s : list string) : bool :=
  match s with
  | [_; alt] => 0 <? len alt
  | _ => false
  end.

(** The runes that select a [case] of the [switch]; every other rune falls
    to [default]. *)
Definition dispatch_rune (c : rune) : bool :=
  existsb (fun d => c =? d)
    (bytes_of_string "AEIOUYBCDFGHJKLMNPQRSTVWXZ" ++ [rune_C_cedilla; rune_N_tilde]).

(** The cursor values at the head of the loop, iteration by iteration, as an
    instrumented run of [main_loop] would log them. *)
Fixpoint cursor_log (word : string) (rword : list rune) (wlen maxlength : Z)
    (fuel : nat) (st : state) : list Z :=
  current st ::
  if loop_cond wlen maxlength st then
    match fuel with
    | O => []
    | S fuel' =>
      match step word rword wlen st with
      | Ok st' => cursor_log word rword wlen maxlength fuel' st'
      | _ => []
      end
    end
  else [].

(** A list of integers in which every element is smaller than the next. *)
Fixpoint increasing (l : list Z) : Prop :=
  match l with
  | [] => True
  | x :: l' => match l' with [] => True | y :: _ => x < y end /\ increasing l'
  end.

(** While [alternate] is clear the two buffers hold the same text. *)
Definition in_step (st : state) : Prop :=
  alternate st = false -> primary st = secondary st.

(** The values [DoubleMetaphone(word, maxlength)] sets up before its pass:
    the upper-cased, padded word, the maximum length after its default,
    and with them the state in which the main loop is left. *)
Definition upper_padded (word : string) : string :=
  strings_ToUpper word +:+ pad.

Definition effective_maxlength (maxlength : Z) : Z :=
  if maxlength <? 1 then 4 else maxlength.

Definition final_state (word : string) (maxlength : Z) : result state :=
  pass (upper_padded word) (runes (upper_padded word)) (len word)
       (effective_maxlength maxlength).

(** A byte sequence that is empty or begins with a byte below 128. *)
Definition ascii_start (bs : list Z) : Prop :=
  match bs with
  | [] => True
  | c :: _ => c < 128
  end.

(** What [NewMetaphMap] appends to the bucket of [k] when it reaches [word]:
    the word once for each of its two codes that is non-empty and equal to
    [k]. *)
Definition appended (maxLen : Z) (k word : string) : list string :=
  match DoubleMetaphone word maxLen with
  | Ok (m, m2) =>
    (if (0 <? len m) && bool_decide (m = k) then [word] else [])
    ++ (if (0 <? len m2) && bool_decide (m2 = k) then [word] else [])
  | _ => []
  end.

(** [c] is one of the codes of [word], and not the empty one. *)
Definition has_code (maxLen : Z) (word c : string) : Prop :=
  exists m m2, DoubleMetaphone word maxLen = Ok (m, m2)
               /\ c <> "" /\ (c = m \/ c = m2).

(** The characters the rules know in either case: ASCII, and the letters
    U+00C7, U+00E7, U+00D1 and U+00F1 (C cedilla and N tilde). *)
Definition encoder_letter (r : rune) : bool :=
  within 0 127 r || (r =? 199) || (r =? 231) || (r =? 209) || (r =? 241).

(** [w] is well-formed UTF-8 and spelled with those characters only. *)
Definition encoder_text (w : string) : bool :=
  forallb encoder_letter (runes w) && String.eqb (string_of_runes (runes w)) w.

(** Three words with letters outside ASCII, by their UTF-8 bytes: the
    Kelvin sign (U+212A) alone; "ai" followed by the long s (U+017F); and
    "McHugh", a blank, a small n with tilde and a capital C with cedilla. *)
Definition word_Kelvin : string := string_of_bytes [226; 132; 170].
Definition word_ai_long_s : string := string_of_bytes [97; 105; 197; 191].
Definition word_McHugh_letters : string :=
  string_of_bytes [77; 99; 72; 117; 103; 104; 32; 195; 177; 195; 135].

(** ** Vocabulary of the further properties *)

(** The characters that the rules write to the buffers. *)
Definition code_alphabet : string := "0AFHJKLMNPRSTX".

(** Every byte of [s] is one of them. *)
Definition code_text (s : string) : bool :=
  forallb (fun b => existsb (Z.eqb b) (bytes_of_string code_alphabet))
          (bytes_of_string s).

(** [s'] is [s] with code text behind it. *)
Definition grows (s s' : string) : Prop :=
  exists t, s' = s +:+ t /\ code_text t = true.

(** What a rule writes: code text, behind what each buffer holds. *)
Definition emits (st st' : state) : Prop :=
  grows (primary st) (primary st') /\ grows (secondary st) (secondary st').

(** [s] cut to [n] bytes, as the code after the loop cuts a buffer that is
    longer than [maxlength]. *)
Definition cut (n : Z) (s : string) : string :=
  if len s >? n
  then string_of_bytes (firstn (Z.to_nat n) (bytes_of_string s))
  else s.

(** The window [rword[start : start+length]] of [StringAt]. *)
Definition window (rword : list rune) (start length : Z) : list rune :=
  firstn (Z.to_nat length) (skipn (Z.to_nat start) rword).

(** The codes under which [NewMetaphMap] stores [word]: those of its two
    codes that are not empty. *)
Definition codes_of (maxLen : Z) (word : string) : list string :=
  match DoubleMetaphone word maxLen with
  | Ok (m, m2) =>
    (if 0 <? len m then [m] else []) ++ (if 0 <? len m2 then [m2] else [])
  | _ => []
  end.

(** [v] and [w] have a non-empty code in common. *)
Definition sounds_like (maxLen : Z) (v w : string) : Prop :=
  exists c, has_code maxLen v c /\ has_code maxLen w c.

(** ** Word lists in files (convenience.go, as of its revision 1.20) *)

(** [s[lo:]] on a string. *)
Definition string_suffix_from (s : string) (lo : Z) : result string :=
  bs <- go_slice (bytes_of_string s) lo (len s) ;; Ok (string_of_bytes bs).

(** [strings.HasSuffix(s, suffix)]:
    [len(s) >= len(suffix) && s[len(s)-len(suffix):] == suffix]. *)
Definition strings_HasSuffix (s suffix : string) : result bool :=
  if len suffix <=? len s
  then t <- string_suffix_from s (len s - len suffix) ;;
       Ok (String.eqb t suffix)
  else Ok false.

Definition newline : ascii := "010"%char.

(** [strings.IndexByte(s, c)]: the index of the first [c] in [s], or -1.
    [strings.Index] comes down to it for a separator of one byte. *)
Fixpoint strings_IndexByte (s : string) (c : ascii) : Z :=
  match s with
  | EmptyString => -1
  | String a s' =>
    if Ascii.eqb a c then 0
    else let i := strings_IndexByte s' c in
         if i <? 0 then -1 else i + 1
  end.

(** [strings.Count(s, sep)] for a separator of the one byte [c]. *)
Fixpoint strings_Count (s : string) (c : ascii) : Z :=
  match s with
  | EmptyString => 0
  | String a s' => (if Ascii.eqb a c then 1 else 0) + strings_Count s' c
  end.

(** The loop of [genSplit], which runs at most [n] times: [a] holds the
    fields found so far, [s] what is left of the string.  When the loop is
    left, what is left is the last field. *)
Fixpoint genSplit_loop (c : ascii) (n : nat) (s : string) (a : list string)
    : result (list string) :=
  match n with
  | O => Ok (a ++ [s])
  | S n' =>
    let m := strings_IndexByte s c in
    if m <? 0 then Ok (a ++ [s])
    else
      field <- string_prefix_to s m ;;
      rest <- string_suffix_from s (m + 1) ;;
      genSplit_loop c n' rest (a ++ [field])
  end.

(** [strings.Split(s, sep)] for a separator of the one byte [c], that is
    [genSplit(s, sep, 0, -1)]: room for [Count(s, sep) + 1] fields, and at
    most [len(s) + 1]. *)
Definition strings_Split (s : string) (c : ascii) : result (list string) :=
  let n := strings_Count s c + 1 in
  let n := if len s + 1 <? n then len s + 1 else n in
  genSplit_loop c (Z.to_nat (n - 1)) s [].

(** What a call of the operating system or of a library returns beside an
    [error]: a value when the error is [nil], else the text of the error. *)
Inductive outcome (A : Type) : Type :=
| Value (a : A)
| Failed (err : string).

Arguments Value {A} a.
Arguments Failed {A} err.

Section FromFile.

(** The world of one call: what [os.Open], [gzip.NewReader] and
    [io.ReadAll] answer.  [NewMetaphMapFromFile] calls each of them at most
    once.  [file_reader] is the conversion of [r = fp]. *)
Variables File Reader : Type.
Variable os_Open : string -> outcome File.
Variable file_reader : File -> Reader.
Variable gzip_NewReader : Reader -> outcome Reader.
Variable io_ReadAll : Reader -> outcome string.

(** [NewMetaphMapFromFile(fileName, maxLen)], with its two named results
    [metaph] and [err], both [nil] at first.  [fmt.Errorf] writes the file
    name for [%s] and the text of the error for [%v].  The deferred
    [fp.Close()] runs when the function returns, and what it returns is
    dropped. *)
Definition NewMetaphMapFromFile (fileName : string) (maxLen : Z)
    : result (option MetaphMap * option string) :=
  match os_Open fileName with
  | Failed err =>
    Ok (None, Some ("trying to open file " +:+ fileName +:+ ": " +:+ err))
  | Value fp =>
    let r := file_reader fp in
    gz <- strings_HasSuffix fileName ".gz" ;;
    match (if gz then gzip_NewReader r else Value r) with
    | Failed err =>
      Ok (None, Some ("trying to make a gzip reader for file "
                      +:+ fileName +:+ ": " +:+ err))
    | Value r =>
      match io_ReadAll r with
      | Failed err =>
        Ok (None, Some ("trying to read file " +:+ fileName +:+ ": " +:+ err))
      | Value b =>
        lines <- strings_Split b newline ;;
        metaph <- NewMetaphMap lines maxLen ;;
        Ok (Some metaph, None)
      end
    end
  end.

End FromFile.

Arguments NewMetaphMapFromFile {File Reader}.

(** [s] ends with [suffix]. *)
Definition ends_with (s suffix : string) : Prop :=
  exists p, s = p +:+ suffix.

(** [w] holds no newline. *)
Fixpoint one_line (w : string) : bool :=
  match w with
  | EmptyString => true
  | String a w' => negb (Ascii.eqb a newline) && one_line w'
  end.

(** The text of a file with the lines [ws], a newline between two lines. *)
Fixpoint join_lines (ws : list string) : string :=
  match ws with
  | [] => ""
  | [w] => w
  | w :: ws' => w +:+ String newline (join_lines ws')
  end.

(** Reading the file [fileName] succeeds and gives the text [b]: the file
    opens, the gzip reader is made when the name ends with ".gz", and the
    reader is read to its end. *)
Definition file_text {File Reader : Type} (os_Open : string -> outcome File)
    (file_reader : File -> Reader)
    (gzip_NewReader : Reader -> outcome Reader)
    (io_ReadAll : Reader -> outcome string) (fileName b : string) : Prop :=
  exists fp r,
    os_Open fileName = Value fp
    /\ (ends_with fileName ".gz" ->
        gzip_NewReader (file_reader fp) = Value r)
    /\ (~ ends_with fileName ".gz" -> r = file_reader fp)
    /\ io_ReadAll r = Value b.

(** ** Vocabulary of the emissions *)

(** [a'] is [a] with [p] written behind it. *)
Definition wrote (a a' p : string) : Prop := a' = a +:+ p.

(** From [st] to [st'] the same text went to both buffers. *)
Definition agrees (st st' : state) : Prop :=
  exists p, wrote (primary st) (primary st') p
            /\ wrote (secondary st) (secondary st') p.

(** From [st] to [st'] the two buffers received different texts: a
    divergent emission. *)
Definition diverges (st st' : state) : Prop :=
  exists p s, wrote (primary st) (primary st') p
              /\ wrote (secondary st) (secondary st') s
              /\ p <> s.

(** The flag is left as it is and the buffers received the same text. *)
Definition echoes (st st' : state) : Prop :=
  alternate st' = alternate st /\ agrees st st'.

(** What one firing of a rule does to the flag and the buffers: either it
    leaves [alternate] as it is and writes the same text to both buffers,
    or it makes a divergent emission and [alternate] is set. *)
Definition speaks (st st' : state) : Prop :=
  echoes st st' \/ (alternate st' = true /\ diverges st st').

(** The states at the head of the loop, iteration by iteration, as an
    instrumented run of [main_loop] would log them; the last one is the
    state in which the loop is left. *)
Fixpoint state_log (word : string) (rword : list rune) (wlen maxlength : Z)
    (fuel : nat) (st : state) : list state :=
  st ::
  if loop_cond wlen maxlength st then
    match fuel with
    | O => []
    | S fuel' =>
      match step word rword wlen st with
      | Ok st' => state_log word rword wlen maxlength fuel' st'
      | _ => []
      end
    end
  else [].

(** The states of the pass of [DoubleMetaphone(word, maxlength)]: the
    initial state, then the log of the loop, which starts with the state
    that the code before the loop leaves. *)
Definition pass_log (word : string) (maxlength : Z) : list state :=
  initial_state ::
  match prologue (runes (upper_padded word)) initial_state with
  | Ok st =>
    state_log (upper_padded word) (runes (upper_padded word)) (len word)
      (effective_maxlength maxlength) (Z.to_nat (len word)) st
  | _ => []
  end.

(** [a] is followed by [b] in [l]. *)
Definition consecutive {A : Type} (l : list A) (a b : A) : Prop :=
  exists l1 l2, l = l1 ++ a :: b :: l2.

(** ** Vocabulary of the case claim *)

(** A character whose case does not show in the encoder: it is one of
    those for which the case mappings are written out above (U+0000 to
    U+017F), its upper-case and its lower-case form take as many UTF-8
    bytes as the character itself, and upper-casing undoes lower-casing. *)
Definition case_stable_rune (r : rune) : bool :=
  within 0 383 r
  && (List.length (EncodeRune (unicode_ToUpper r))
      =? List.length (EncodeRune r))%nat
  && (List.length (EncodeRune (unicode_ToLower r))
      =? List.length (EncodeRune r))%nat
  && (unicode_ToUpper (unicode_ToLower r) =? unicode_ToUpper r)
  && (unicode_ToUpper (unicode_ToUpper r) =? unicode_ToUpper r).

(** [w] is well-formed UTF-8 and spelled with such characters only. *)
Definition case_stable_text (w : string) : bool :=
  forallb case_stable_rune (runes w)
  && String.eqb (string_of_runes (runes w)) w.

(** More words by their UTF-8 bytes: "M", u with diaeresis, "ller caf",
    e with acute; "a", dotless i (U+0131), "s"; and "a", I with dot above
    (U+0130), "s". *)
Definition word_Mueller_cafe : string :=
  string_of_bytes [77; 195; 188; 108; 108; 101; 114; 32;
                   99; 97; 102; 195; 169].
Definition word_a_dotless_i_s : string := string_of_bytes [97; 196; 177; 115].
Definition word_a_dotted_I_s : string := string_of_bytes [97; 196; 176; 115].

(** A rune of one or two UTF-8 bytes. *)
Definition short_rune (r : rune) : bool := within 0 2047 r.

(** The two-byte encoding of [r] decodes to [r]. *)
Definition two_bytes_ok (r : rune) : bool :=
  (r <? 128)
  || match EncodeRune r with
     | [b0; b1] =>
       within 194 223 b0 && within 128 191 b1
       && (Z.lor (Z.shiftl (Z.land b0 31) 6) (Z.land b1 63) =? r)
     | _ => false
     end.

(** The case forms of the characters of the tables have one or two bytes. *)
Definition case_forms_short (r : rune) : bool :=
  short_rune (unicode_ToUpper r) && short_rune (unicode_ToLower r).

(** Of the characters of the tables, all but three are stable. *)
Definition unstable_listed (r : rune) : bool :=
  Bool.eqb (negb (case_stable_rune r)) ((r =? 304) || (r =? 305) || (r =? 383)).

(** "Mu", n with tilde, "oz", by its UTF-8 bytes. *)
Definition word_Munoz : string := string_of_bytes [77; 117; 195; 177; 111; 122].

(** The byte FF, which is not UTF-8, followed by "ais". *)
Definition word_ill_formed_ais : string := string_of_bytes [255; 97; 105; 115].

(** * Properties *)

(** ** The calculus of [returns] and [total] *)

Lemma returns_Ok {A : Type} (a : A) (Q : A -> Prop) : Q a -> returns (Ok a) Q.
Proof. intros H. exists a. split; [reflexivity | exact H]. Qed.

Lemma returns_bind {A B : Type} (m : result A) (k : A -> result B)
    (Q : B -> Prop) :
  returns m (fun a => returns (k a) Q) -> returns (bind m k) Q.
Proof. intros (a & -> & H). exact H. Qed.

Lemma returns_ifM {A : Type} (c : result bool) (t e : result A)
    (Q : A -> Prop) :
  total c -> returns t Q -> returns e Q ->
  returns (bind c (fun b : bool => if b then t else e)) Q.
Proof. intros [b ->] Ht He. destruct b; assumption. Qed.

Lemma returns_weaken {A : Type} (m : result A) (P Q : A -> Prop) :
  returns m P -> (forall a, P a -> Q a) -> returns m Q.
Proof. intros (a & -> & H) HPQ. exists a. split; [reflexivity | auto]. Qed.

Lemma returns_total {A : Type} (m : result A) (Q : A -> Prop) :
  returns m Q -> total m.
Proof. intros (a & -> & _). exists a. reflexivity. Qed.

Lemma total_Ok {A : Type} (a : A) : total (Ok a).
Proof. exists a. reflexivity. Qed.

Lemma total_andM (a b : result bool) : total a -> total b -> total (a &&& b).
Proof. intros [x ->] [y ->]. destruct x; eexists; reflexivity. Qed.

Lemma total_orM (a b : result bool) : total a -> total b -> total (a ||| b).
Proof. intros [x ->] [y ->]. destruct x; eexists; reflexivity. Qed.

Lemma total_notM (a : result bool) : total a -> total (notM a).
Proof. intros [x ->]. eexists; reflexivity. Qed.

(** ** Indexing and slicing *)

Lemma go_index_in_range {A : Type} (l : list A) (i : Z) :
  0 <= i < Z.of_nat (List.length l) -> total (go_index l i).
Proof.
  intros Hi. unfold go_index.
  destruct (Z.ltb_spec i 0) as [Hneg | _]; [lia |].
  destruct (l !! Z.to_nat i) as [x |] eqn:Hl.
  - exists x. reflexivity.
  - apply lookup_ge_None in Hl. lia.
Qed.

Lemma go_slice_in_range {A : Type} (l : list A) (lo hi : Z) :
  0 <= lo <= hi -> hi <= Z.of_nat (List.length l) ->
  go_slice l lo hi = Ok (firstn (Z.to_nat (hi - lo)) (skipn (Z.to_nat lo) l)).
Proof.
  intros [H0 H1] H2. unfold go_slice.
  destruct (Z.leb_spec 0 lo); [| lia].
  destruct (Z.leb_spec lo hi); [| lia].
  destruct (Z.leb_spec hi (Z.of_nat (List.length l))); [| lia].
  reflexivity.
Qed.

(** ** The accessors never fail *)

Section Accessors.

Variable word : string.
Variable rword : list rune.

Lemma GetAt_out_of_range (at_ : Z) :
  at_ < 0 \/ rwordLen rword <= at_ -> GetAt rword at_ = Ok 0.
Proof.
  intros H. unfold GetAt.
  destruct (Z.ltb_spec at_ 0); [reflexivity |].
  destruct (Z.geb_spec at_ (rwordLen rword)); [reflexivity | lia].
Qed.

Lemma GetAt_total (at_ : Z) : total (GetAt rword at_).
Proof.
  unfold GetAt.
  destruct (Z.ltb_spec at_ 0); [apply total_Ok |].
  destruct (Z.geb_spec at_ (rwordLen rword)); [apply total_Ok |].
  apply go_index_in_range. unfold rwordLen in *. lia.
Qed.

Lemma IsVowel_out_of_range (at_ : Z) :
  at_ < 0 \/ rwordLen rword <= at_ -> IsVowel rword at_ = Ok false.
Proof.
  intros H. unfold IsVowel.
  destruct (Z.ltb_spec at_ 0); [reflexivity |].
  destruct (Z.geb_spec at_ (rwordLen rword)); [reflexivity | lia].
Qed.

Lemma IsVowel_total (at_ : Z) : total (IsVowel rword at_).
Proof.
  unfold IsVowel.
  destruct ((at_ <? 0) || (at_ >=? rwordLen rword)); [apply total_Ok |].
  destruct (GetAt_total at_) as [c ->]. apply total_Ok.
Qed.

Lemma StringAt_out_of_range (start length : Z) (s : list string) :
  start < 0 \/ rwordLen rword <= start + length ->
  StringAt rword start length s = Ok false.
Proof.
  intros H. unfold StringAt.
  destruct (Z.ltb_spec start 0); [reflexivity |].
  destruct (Z.geb_spec (start + length) (rwordLen rword)); [reflexivity | lia].
Qed.

Lemma StringAt_total (start length : Z) (s : list string) :
  0 <= length -> total (StringAt rword start length s).
Proof.
  intros Hl. unfold StringAt.
  destruct (Z.ltb_spec start 0); [apply total_Ok |].
  destruct (Z.geb_spec (start + length) (rwordLen rword)); [apply total_Ok |].
  rewrite go_slice_in_range by (unfold rwordLen in *; lia).
  apply total_Ok.
Qed.

Lemma GetAt_is_total (at_ : Z) (c : ascii) : total (GetAt_is rword at_ c).
Proof. unfold GetAt_is. destruct (GetAt_total at_) as [r ->]. apply total_Ok. Qed.

Lemma GetAt_isnt_total (at_ : Z) (c : ascii) : total (GetAt_isnt rword at_ c).
Proof. unfold GetAt_isnt. destruct (GetAt_total at_) as [r ->]. apply total_Ok. Qed.

Lemma SlavoGermanic_total : total (SlavoGermanic word).
Proof. unfold SlavoGermanic. repeat apply total_orM; apply total_Ok. Qed.

End Accessors.

(** ** [MetaphAdd] *)

Lemma MetaphAdd_one (main : string) (st : state) :
  MetaphAdd [main] st = Ok (write_secondary main (write_primary main st)).
Proof. reflexivity. Qed.

Lemma len_String_pos (c : ascii) (s : string) : (0 <? len (String c s)) = true.
Proof. apply Z.ltb_lt. unfold len. simpl String.length. lia. Qed.

Lemma MetaphAdd_pair (main : string) (c : ascii) (alt : string) (st : state) :
  MetaphAdd [main; String c alt] st =
  Ok (if negb (ascii_to_Z c =? blank)
      then write_secondary (String c alt) (set_alternate (write_primary main st))
      else set_alternate (write_primary main st)).
Proof.
  unfold MetaphAdd. cbn [List.length Z.of_nat].
  change (go_index [main; String c alt] 0) with (Ok (A:=string) main).
  change (go_index [main; String c alt] 1) with (Ok (A:=string) (String c alt)).
  cbn [bind Z.ltb Z.eqb Z.compare Pos.compare Pos.compare_cont orb Pos.of_succ_nat Pos.succ].
  rewrite len_String_pos.
  change (go_index (bytes_of_string (String c alt)) 0) with (Ok (ascii_to_Z c)).
  cbn [bind]. destruct (negb (ascii_to_Z c =? blank)); reflexivity.
Qed.

Lemma MetaphAdd_pair_empty (main : string) (st : state) :
  MetaphAdd [main; ""] st =
  Ok (match main with
      | String c _ =>
        if negb (ascii_to_Z c =? blank)
        then write_secondary main (write_primary main st)
        else write_primary main st
      | EmptyString => write_primary main st
      end).
Proof.
  destruct main as [| c m]; [reflexivity |].
  unfold MetaphAdd. cbn [List.length Z.of_nat].
  change (go_index [String c m; ""] 0) with (Ok (A:=string) (String c m)).
  change (go_index [String c m; ""] 1) with (Ok (A:=string) "").
  cbn [bind Z.ltb Z.eqb Z.compare Pos.compare Pos.compare_cont orb Pos.of_succ_nat Pos.succ].
  change (0 <? len "") with false. cbv iota.
  rewrite len_String_pos.
  change (go_index (bytes_of_string (String c m)) 0) with (Ok (ascii_to_Z c)).
  cbn [bind andM]. destruct (negb (ascii_to_Z c =? blank)); reflexivity.
Qed.

Lemma MetaphAdd_arity (s : list string) (st : state) :
  (List.length s = 1%nat \/ List.length s = 2%nat) <-> total (MetaphAdd s st).
Proof.
  split.
  - intros [H | H].
    + destruct s as [| main [| ? ?]]; try discriminate.
      rewrite MetaphAdd_one. apply total_Ok.
    + destruct s as [| main [| alt [| ? ?]]]; try discriminate.
      destruct alt as [| c alt].
      * rewrite MetaphAdd_pair_empty. apply total_Ok.
      * rewrite MetaphAdd_pair. apply total_Ok.
  - intros [st' H]. destruct s as [| main [| alt [| x l]]]; auto.
    + discriminate H.
    + unfold MetaphAdd in H. simpl List.length in H.
      destruct (Z.ltb_spec (Z.of_nat (S (S (S (List.length l))))) 1); [lia |].
      destruct (Z.ltb_spec 2 (Z.of_nat (S (S (S (List.length l)))))); [| lia].
      discriminate H.
Qed.

Lemma MetaphAdd_alternate (s : list string) (st st' : state) :
  MetaphAdd s st = Ok st' ->
  alternate st' = alternate st || divergent s /\ current st' = current st.
Proof.
  intros H. destruct s as [| main [| alt [| x l]]].
  - discriminate H.
  - rewrite MetaphAdd_one in H. injection H as <-. cbn. rewrite orb_false_r. auto.
  - destruct alt as [| c alt].
    + rewrite MetaphAdd_pair_empty in H. injection H as <-.
      change (divergent [main; ""]) with false. rewrite orb_false_r.
      destruct main as [| c m]; [auto |]. destruct (negb _); auto.
    + rewrite MetaphAdd_pair in H.
      assert (Hd : divergent [main; String c alt] = true) by apply len_String_pos.
      rewrite Hd, orb_true_r.
      destruct (negb _); injection H as <-; cbn; auto.
  - exfalso.
    assert (Ht : total (MetaphAdd (main :: alt :: x :: l) st)) by (eexists; eauto).
    apply MetaphAdd_arity in Ht. simpl in Ht. lia.
Qed.

(** ** Every rule fires *)
Lemma returns_MetaphAdd_one (main : string) (st : state) (Q : state -> Prop) :
  Q (write_secondary main (write_primary main st)) ->
  returns (MetaphAdd [main] st) Q.
Proof. intros H. rewrite MetaphAdd_one. apply returns_Ok, H. Qed.

Lemma returns_MetaphAdd_pair (main : string) (c : ascii) (alt : string)
    (st : state) (Q : state -> Prop) :
  Q (if negb (ascii_to_Z c =? blank)
     then write_secondary (String c alt) (set_alternate (write_primary main st))
     else set_alternate (write_primary main st)) ->
  returns (MetaphAdd [main; String c alt] st) Q.
Proof. intros H. rewrite MetaphAdd_pair. apply returns_Ok, H. Qed.

Ltac total_cond :=
  repeat first
    [ apply total_andM | apply total_orM | apply total_notM | apply total_Ok
    | apply GetAt_is_total | apply GetAt_isnt_total | apply IsVowel_total
    | apply SlavoGermanic_total
    | apply StringAt_total; lia ].

Ltac wp_step :=
  cbv beta zeta;
  lazymatch goal with
  | |- returns (Ok _) _ => apply returns_Ok
  | |- returns (MetaphAdd [_] _) _ => apply returns_MetaphAdd_one
  | |- returns (MetaphAdd [_; String _ _] _) _ => apply returns_MetaphAdd_pair
  | |- returns (if ?b then _ else _) _ => destruct b
  | |- returns (bind _ _) _ =>
      first [ apply returns_ifM; [ total_cond | | ] | apply returns_bind ]
  end.

Ltac fires_tac :=
  cbv beta zeta; unfold fires, keeps;
  repeat match goal with
    | |- context [negb (ascii_to_Z ?c =? blank)] =>
        let v := eval vm_compute in (negb (ascii_to_Z c =? blank)) in
        change (negb (ascii_to_Z c =? blank)) with v
    end;
  cbn [current primary secondary alternate advance write_primary
       write_secondary set_alternate];
  repeat split; try lia; try congruence.

Ltac wp := repeat wp_step; fires_tac.

Section Rules.

Variable word : string.
Variable rword : list rune.
Variable wlen : Z.

Lemma case_vowel_fires st : returns (case_vowel st) (fires st).
Proof. unfold case_vowel. wp. Qed.

Lemma case_B_fires st : returns (case_B rword st) (fires st).
Proof. unfold case_B. wp. Qed.

Lemma case_C_cedilla_fires st : returns (case_C_cedilla st) (fires st).
Proof. unfold case_C_cedilla. wp. Qed.

Lemma case_C_CH_fires st : returns (case_C_CH rword st) (fires st).
Proof. unfold case_C_CH. wp. Qed.

Lemma case_C_CC_fires st : returns (case_C_CC rword st) (fires st).
Proof. unfold case_C_CC. wp. Qed.

Lemma case_C_fires st : returns (case_C rword st) (fires st).
Proof.
  unfold case_C.
  repeat first [ apply case_C_CH_fires | apply case_C_CC_fires | wp_step ]; fires_tac.
Qed.

Lemma case_D_fires st : returns (case_D rword st) (fires st).
Proof. unfold case_D. wp. Qed.

Lemma case_F_fires st : returns (case_F rword st) (fires st).
Proof. unfold case_F. wp. Qed.

Lemma case_G_GH_fires st : returns (case_G_GH rword st) (fires st).
Proof. unfold case_G_GH. wp. Qed.

Lemma case_G_GN_fires st : returns (case_G_GN word rword st) (fires st).
Proof. unfold case_G_GN. wp. Qed.

Lemma case_G_fires st : returns (case_G word rword st) (fires st).
Proof.
  unfold case_G.
  repeat first [ apply case_G_GH_fires | apply case_G_GN_fires | wp_step ]; fires_tac.
Qed.

Lemma case_H_fires st : returns (case_H rword st) (fires st).
Proof. unfold case_H. wp. Qed.

Lemma case_J_fires st : returns (case_J word rword wlen st) (fires st).
Proof. unfold case_J. wp. Qed.

Lemma case_K_fires st : returns (case_K rword st) (fires st).
Proof. unfold case_K. wp. Qed.

Lemma case_L_fires st : returns (case_L rword wlen st) (fires st).
Proof. unfold case_L. wp. Qed.

Lemma case_M_fires st : returns (case_M rword wlen st) (fires st).
Proof. unfold case_M. wp. Qed.

Lemma case_N_fires st : returns (case_N rword st) (fires st).
Proof. unfold case_N. wp. Qed.

Lemma case_N_tilde_fires st : returns (case_N_tilde st) (fires st).
Proof. unfold case_N_tilde. wp. Qed.

Lemma case_P_fires st : returns (case_P rword st) (fires st).
Proof. unfold case_P. wp. Qed.

Lemma case_Q_fires st : returns (case_Q rword st) (fires st).
Proof. unfold case_Q. wp. Qed.

Lemma case_R_fires st : returns (case_R word rword wlen st) (fires st).
Proof. unfold case_R. wp. Qed.

Lemma case_S_SC_fires st : returns (case_S_SC rword st) (fires st).
Proof. unfold case_S_SC. wp. Qed.

Lemma case_S_fires st : returns (case_S word rword wlen st) (fires st).
Proof.
  unfold case_S.
  repeat first [ apply case_S_SC_fires | wp_step ]; fires_tac.
Qed.

Lemma case_T_fires st : returns (case_T rword st) (fires st).
Proof. unfold case_T. wp. Qed.

Lemma case_V_fires st : returns (case_V rword st) (fires st).
Proof. unfold case_V. wp. Qed.

Lemma case_W_fires st : returns (case_W rword wlen st) (fires st).
Proof. unfold case_W. wp. Qed.

Lemma case_X_fires st : returns (case_X rword wlen st) (fires st).
Proof. unfold case_X. wp. Qed.

Lemma case_Z_fires st : returns (case_Z word rword st) (fires st).
Proof. unfold case_Z. wp. Qed.

Lemma step_fires st : returns (step word rword wlen st) (fires st).
Proof.
  unfold step. destruct (GetAt_total rword (current st)) as [c ->].
  cbn [bind].
  repeat match goal with
    | |- returns (if ?b then _ else _) _ => destruct b
    end;
    first
      [ apply case_vowel_fires | apply case_B_fires | apply case_C_cedilla_fires
      | apply case_C_fires | apply case_D_fires | apply case_F_fires
      | apply case_G_fires | apply case_H_fires | apply case_J_fires
      | apply case_K_fires | apply case_L_fires | apply case_M_fires
      | apply case_N_fires | apply case_N_tilde_fires | apply case_P_fires
      | apply case_Q_fires | apply case_R_fires | apply case_S_fires
      | apply case_T_fires | apply case_V_fires | apply case_W_fires
      | apply case_X_fires | apply case_Z_fires
      | wp ].
Qed.

Lemma prologue_keeps st : returns (prologue rword st) (keeps st).
Proof. unfold prologue. wp. Qed.

End Rules.

(** ** Strings as byte lists *)

Lemma ascii_to_Z_range (a : ascii) : 0 <= ascii_to_Z a < 256.
Proof.
  unfold ascii_to_Z. pose proof (N_ascii_bounded a) as H. lia.
Qed.

Lemma ascii_of_Z_to_Z (a : ascii) : ascii_of_Z (ascii_to_Z a) = a.
Proof.
  unfold ascii_of_Z, ascii_to_Z. rewrite N2Z.id. apply ascii_N_embedding.
Qed.

Lemma ascii_to_Z_of_Z (b : Z) : 0 <= b < 256 -> ascii_to_Z (ascii_of_Z b) = b.
Proof.
  intros Hb. unfold ascii_of_Z, ascii_to_Z.
  rewrite N_ascii_embedding by lia. lia.
Qed.

Lemma length_bytes_of_string (s : string) :
  List.length (bytes_of_string s) = String.length s.
Proof.
  unfold bytes_of_string. rewrite length_map.
  induction s as [| c s IH]; simpl; [reflexivity | now rewrite IH].
Qed.

Lemma length_string_of_bytes (bs : list Z) :
  String.length (string_of_bytes bs) = List.length bs.
Proof.
  unfold string_of_bytes.
  induction bs as [| b bs IH]; simpl; [reflexivity | now rewrite IH].
Qed.

Lemma string_of_bytes_of_string (s : string) :
  string_of_bytes (bytes_of_string s) = s.
Proof.
  unfold string_of_bytes, bytes_of_string.
  induction s as [| c s IH]; simpl; [reflexivity |].
  rewrite ascii_of_Z_to_Z. f_equal. exact IH.
Qed.

Lemma bytes_of_string_of_bytes (bs : list Z) :
  Forall (fun b => 0 <= b < 256) bs ->
  bytes_of_string (string_of_bytes bs) = bs.
Proof.
  unfold string_of_bytes, bytes_of_string.
  induction 1 as [| b bs Hb _ IH]; simpl; [reflexivity |].
  rewrite ascii_to_Z_of_Z by exact Hb. f_equal. exact IH.
Qed.

Lemma bytes_of_string_app (s t : string) :
  bytes_of_string (s +:+ t) = bytes_of_string s ++ bytes_of_string t.
Proof.
  unfold bytes_of_string.
  induction s as [| c s IH]; simpl; [reflexivity | now rewrite IH].
Qed.

Lemma bytes_of_string_range (s : string) :
  Forall (fun b => 0 <= b < 256) (bytes_of_string s).
Proof.
  unfold bytes_of_string. apply Forall_map, Forall_forall.
  intros a _. apply ascii_to_Z_range.
Qed.

(** ** The code after the loop *)

Lemma string_prefix_to_length (s : string) (hi : Z) :
  0 <= hi <= len s ->
  returns (string_prefix_to s hi) (fun p => len p = hi).
Proof.
  intros H. unfold string_prefix_to, len in *.
  rewrite go_slice_in_range by (try rewrite length_bytes_of_string; lia).
  cbn [bind]. apply returns_Ok.
  rewrite length_string_of_bytes, length_firstn, length_skipn.
  rewrite length_bytes_of_string. lia.
Qed.

Lemma finish_returns (maxlength : Z) (st : state) :
  0 <= maxlength ->
  returns (finish maxlength st)
    (fun r => len (fst r) <= maxlength /\ len (snd r) <= maxlength
              /\ (alternate st = false -> snd r = "")).
Proof.
  intros Hm. unfold finish.
  assert (Hcut : forall s, returns
            (if len s >? maxlength then string_prefix_to s maxlength else Ok s)
            (fun p => len p <= maxlength)).
  { intros s. destruct (Z.gtb_spec (len s) maxlength) as [Hgt | Hle].
    - eapply returns_weaken; [apply string_prefix_to_length; lia |].
      intros p Hp. simpl in Hp. lia.
    - apply returns_Ok. exact Hle. }
  apply returns_bind. eapply returns_weaken; [apply Hcut |].
  intros p Hp. cbv beta.
  apply returns_bind. destruct (alternate st).
  - eapply returns_weaken; [apply Hcut |].
    intros s Hs. apply returns_Ok. cbn [fst snd]. repeat split; auto; discriminate.
  - apply returns_Ok, returns_Ok. cbn [fst snd]. repeat split; auto.
Qed.

(** ** The main loop *)

Section Loop.

Variable word : string.
Variable rword : list rune.
Variable wlen : Z.
Variable maxlength : Z.

Lemma main_loop_returns (fuel : nat) : forall st,
  (Z.to_nat (wlen - current st) <= fuel)%nat ->
  returns (main_loop word rword wlen maxlength fuel st)
    (fun fs => loop_cond wlen maxlength fs = false
               /\ current st <= current fs
               /\ (alternate st = true -> alternate fs = true)
               /\ (in_step st -> in_step fs)).
Proof.
  induction fuel as [| fuel IH]; intros st Hfuel.
  - simpl. destruct (loop_cond wlen maxlength st) eqn:Hc.
    + unfold loop_cond in Hc. apply andb_true_iff in Hc as [Hc _].
      apply Z.ltb_lt in Hc. lia.
    + apply returns_Ok. repeat split; auto; lia.
  - simpl. destruct (loop_cond wlen maxlength st) eqn:Hc.
    + apply returns_bind.
      eapply returns_weaken; [apply step_fires |].
      intros st' (Hcur & Halt & Hbuf). cbv beta.
      eapply returns_weaken; [apply IH; lia |].
      intros fs (Hexit & Hmono & Halt' & Hinv). cbv beta in *.
      repeat split; auto; try lia.
      intros Hst. apply Hinv. intros Hfalse. apply Hbuf; auto.
      apply Hst. destruct (alternate st); [| reflexivity].
      rewrite Halt in Hfalse by reflexivity. discriminate.
    + apply returns_Ok. repeat split; auto; lia.
Qed.

(** More fuel changes nothing. *)
Lemma main_loop_fuel (fuel : nat) : forall st fs,
  main_loop word rword wlen maxlength fuel st = Ok fs ->
  forall fuel', (fuel <= fuel')%nat ->
  main_loop word rword wlen maxlength fuel' st = Ok fs.
Proof.
  induction fuel as [| fuel IH]; intros st fs H fuel' Hle.
  - simpl in H. destruct fuel'; simpl;
      destruct (loop_cond wlen maxlength st); try discriminate; exact H.
  - destruct fuel' as [| fuel']; [lia |]. simpl in *.
    destruct (loop_cond wlen maxlength st); [| exact H].
    destruct (step word rword wlen st) as [st' | |]; try discriminate.
    cbn [bind] in *. apply IH with (fuel' := fuel') in H; [exact H | lia].
Qed.

Lemma cursor_log_head (fuel : nat) (st : state) :
  exists l, cursor_log word rword wlen maxlength fuel st = current st :: l.
Proof. destruct fuel; simpl; eexists; reflexivity. Qed.

Lemma cursor_log_increasing (fuel : nat) : forall st,
  increasing (cursor_log word rword wlen maxlength fuel st).
Proof.
  induction fuel as [| fuel IH]; intros st.
  - simpl. destruct (loop_cond wlen maxlength st); simpl; auto.
  - simpl. destruct (loop_cond wlen maxlength st); [| simpl; auto].
    destruct (step_fires word rword wlen st) as (st' & -> & Hcur & _).
    destruct (cursor_log_head fuel st') as [l Hl].
    specialize (IH st'). rewrite Hl in *. split; [lia | exact IH].
Qed.

Lemma cursor_log_last (fuel : nat) : forall st fs,
  main_loop word rword wlen maxlength fuel st = Ok fs ->
  List.last (cursor_log word rword wlen maxlength fuel st) 0 = current fs.
Proof.
  induction fuel as [| fuel IH]; intros st fs H.
  - simpl in *. destruct (loop_cond wlen maxlength st); [discriminate |].
    injection H as <-. reflexivity.
  - simpl in *. destruct (loop_cond wlen maxlength st).
    + destruct (step word rword wlen st) as [st' | |]; try discriminate.
      cbn [bind] in H. specialize (IH st' fs H).
      destruct (cursor_log_head fuel st') as [l Hl]. rewrite Hl in *.
      exact IH.
    + injection H as <-. reflexivity.
Qed.

Lemma pass_returns :
  returns (pass word rword wlen maxlength)
    (fun fs => loop_cond wlen maxlength fs = false /\ in_step fs).
Proof.
  unfold pass. apply returns_bind.
  eapply returns_weaken; [apply prologue_keeps |].
  intros st0 (Hcur & _ & Hbuf). cbv beta.
  eapply returns_weaken; [apply main_loop_returns |].
  - cbn [current initial_state] in Hcur. lia.
  - intros fs (Hexit & _ & _ & Hinv). split; [exact Hexit |].
    apply Hinv. intros Hf. apply Hbuf; auto.
Qed.

End Loop.

(** ** UTF-8 *)

Lemma DecodeRune_width (bs : list Z) :
  bs <> [] ->
  (1 <= snd (DecodeRune bs) <= List.length bs)%nat.
Proof.
  intros Hne. unfold DecodeRune.
  destruct bs as [| s0 [| s1 [| s2 [| s3 t]]]]; [congruence | | | |];
    cbv zeta;
    repeat match goal with
      | |- context [if ?b then _ else _] => destruct b
      end; cbn [snd List.length]; lia.
Qed.

Ltac bool_to_Prop :=
  repeat match goal with
    | H : (_ || _) = true |- _ => apply orb_true_iff in H
    | H : (_ || _) = false |- _ => apply orb_false_iff in H
    | H : (_ && _) = true |- _ => apply andb_true_iff in H
    | H : (_ && _) = false |- _ => apply andb_false_iff in H
    | H : negb _ = true |- _ => apply negb_true_iff in H
    | H : negb _ = false |- _ => apply negb_false_iff in H
    | H : _ /\ _ |- _ => destruct H
    | H : _ \/ _ |- _ => destruct H
    | H : (_ <? _) = true |- _ => apply Z.ltb_lt in H
    | H : (_ <? _) = false |- _ => apply Z.ltb_ge in H
    | H : (_ <=? _) = true |- _ => apply Z.leb_le in H
    | H : (_ <=? _) = false |- _ => apply Z.leb_gt in H
    | H : (_ =? _) = true |- _ => apply Z.eqb_eq in H
    | H : (_ =? _) = false |- _ => apply Z.eqb_neq in H
    end.

(** A byte below 128 never continues a sequence: what follows a string
    does not change how the string itself decodes. *)

Lemma DecodeRune_app (a b : list Z) :
  a <> [] -> ascii_start b -> DecodeRune (a ++ b) = DecodeRune a.
Proof.
  intros Hne Hb. unfold DecodeRune, cont_byte.
  destruct a as [| s0 [| s1 [| s2 [| s3 t]]]]; [congruence | | | |];
    destruct b as [| c b]; cbn [app ascii_start] in *; cbv zeta;
    destruct (s0 =? 224) eqn:?, (s0 =? 240) eqn:?, (s0 =? 237) eqn:?,
             (s0 =? 244) eqn:?;
    repeat match goal with
      | |- context [if ?b then _ else _] => destruct b eqn:?
      end; try reflexivity; exfalso; bool_to_Prop; lia.
Qed.

Lemma decode_runes_enough (fuel1 : nat) : forall fuel2 bs,
  (List.length bs <= fuel1)%nat -> (List.length bs <= fuel2)%nat ->
  decode_runes fuel1 bs = decode_runes fuel2 bs.
Proof.
  induction fuel1 as [| fuel1 IH]; intros fuel2 bs H1 H2.
  - destruct bs; [destruct fuel2; reflexivity | simpl in H1; lia].
  - destruct bs as [| b bs]; [destruct fuel2; reflexivity |].
    destruct fuel2 as [| fuel2]; [simpl in H2; lia |].
    cbn [decode_runes].
    pose proof (DecodeRune_width (b :: bs)) as Hw.
    destruct (DecodeRune (b :: bs)) as [r w]. cbn [snd] in Hw.
    specialize (Hw ltac:(congruence)). simpl List.length in *.
    f_equal. apply IH; rewrite length_skipn; simpl; lia.
Qed.

Lemma decode_runes_fuel (fuel : nat) (bs : list Z) :
  (List.length bs <= fuel)%nat ->
  decode_runes fuel bs = decode_runes (List.length bs) bs.
Proof. intros H. apply decode_runes_enough; [exact H | lia]. Qed.

Lemma decode_runes_app (n : nat) : forall a b,
  List.length a = n -> ascii_start b ->
  decode_runes (List.length (a ++ b)) (a ++ b) =
  decode_runes (List.length a) a ++ decode_runes (List.length b) b.
Proof.
  induction n as [n IH] using lt_wf_ind. intros a b Hn Hb.
  destruct a as [| a0 a]; [reflexivity |].
  pose proof (DecodeRune_app (a0 :: a) b ltac:(congruence) Hb) as Happ.
  pose proof (DecodeRune_width (a0 :: a) ltac:(congruence)) as Hw.
  cbn [app List.length decode_runes] in *. rewrite Happ.
  destruct (DecodeRune (a0 :: a)) as [r w]. cbn [snd] in Hw.
  cbn [app]. f_equal.
  assert (Hskip : skipn w (a0 :: a ++ b) = skipn w (a0 :: a) ++ b).
  { change (a0 :: a ++ b) with ((a0 :: a) ++ b).
    rewrite skipn_app.
    replace (w - List.length (a0 :: a))%nat with 0%nat by (simpl; lia).
    reflexivity. }
  rewrite Hskip.
  assert (Hlen : (List.length (skipn w (a0 :: a)) < n)%nat).
  { rewrite length_skipn. simpl. lia. }
  rewrite (decode_runes_fuel (List.length (a ++ b)))
    by (rewrite length_app, length_skipn, length_app; simpl; lia).
  rewrite (decode_runes_fuel (List.length a))
    by (rewrite length_skipn; simpl; lia).
  apply (IH _ Hlen); auto.
Qed.

Lemma runes_app_pad (s : string) : runes (s +:+ pad) = runes s ++ runes pad.
Proof.
  unfold runes. cbv zeta. rewrite bytes_of_string_app.
  apply (decode_runes_app _ _ _ eq_refl). vm_compute. reflexivity.
Qed.

Lemma lor_high_byte (k x : Z) :
  128 <= k < 256 -> 0 <= x < 64 -> 128 <= Z.lor k x < 256.
Proof.
  intros Hk Hx.
  assert (Hnn : 0 <= Z.lor k x) by (apply Z.lor_nonneg; lia).
  assert (Hlt : Z.lor k x < 256).
  { destruct (Z.eq_dec (Z.lor k x) 0) as [-> | Hz]; [lia |].
    change 256 with (2 ^ 8). apply Z.log2_lt_pow2; [lia |].
    rewrite Z.log2_lor by lia.
    apply Z.max_lub_lt.
    - apply Z.log2_lt_pow2; simpl; lia.
    - destruct (Z.eq_dec x 0) as [-> | Hx0]; [simpl; lia |].
      apply Z.log2_lt_pow2; simpl; lia. }
  split; [| exact Hlt].
  assert (Hbit : Z.testbit (Z.lor k x) 7 = true).
  { rewrite Z.lor_spec. apply orb_true_iff. left.
    apply Z.testbit_true; [lia |]. change (2 ^ 7) with 128.
    Z.to_euclidean_division_equations. lia. }
  apply Z.testbit_true in Hbit; [| lia]. change (2 ^ 7) with 128 in Hbit.
  Z.to_euclidean_division_equations. lia.
Qed.

(** The first byte that [EncodeRune] writes is the rune itself for a rune
    below 128 and a byte from 128 up otherwise. *)
Lemma EncodeRune_first (r : rune) :
  exists b0 bs, EncodeRune r = b0 :: bs
    /\ 0 <= b0 < 256 /\ (b0 < 128 -> b0 = r).
Proof.
  unfold EncodeRune.
  repeat match goal with
    | |- context [if ?b then _ else _] => destruct b eqn:?
    end; bool_to_Prop; eexists; eexists; (split; [reflexivity |]);
    try lia;
    match goal with
    | |- context [Z.lor ?k (Z.shiftr r ?n)] =>
        assert (128 <= Z.lor k (Z.shiftr r n) < 256);
        [ apply lor_high_byte; [lia |];
          rewrite Z.shiftr_div_pow2 by lia;
          match goal with |- context [2 ^ ?m] =>
            let v := eval vm_compute in (2 ^ m) in change (2 ^ m) with v end;
          Z.to_euclidean_division_equations; lia
        | lia ]
    end.
Qed.

Lemma decode_runes_length (fuel : nat) : forall bs,
  (List.length (decode_runes fuel bs) <= List.length bs)%nat.
Proof.
  induction fuel as [| fuel IH]; intros bs; cbn [decode_runes].
  - simpl. lia.
  - destruct bs as [| b bs]; [simpl; lia |].
    pose proof (DecodeRune_width (b :: bs) ltac:(congruence)) as Hw.
    destruct (DecodeRune (b :: bs)) as [r w]. cbn [snd] in Hw.
    cbn [List.length] in *. specialize (IH (skipn w (b :: bs))).
    rewrite length_skipn in IH. cbn [List.length] in IH. lia.
Qed.

(** A string has at most as many runes as bytes. *)
Lemma runes_length (s : string) : Z.of_nat (List.length (runes s)) <= len s.
Proof.
  unfold runes, len. cbv zeta.
  pose proof (decode_runes_length (List.length (bytes_of_string s))
                (bytes_of_string s)) as H.
  pose proof (length_bytes_of_string s) as Hlen. lia.
Qed.

(** ** [DoubleMetaphone] returns *)

Lemma DoubleMetaphone_unfold (word : string) (maxlength : Z) :
  DoubleMetaphone word maxlength =
  if len word <? 1 then Ok ("", "")
  else st <- final_state word maxlength ;;
       finish (effective_maxlength maxlength) st.
Proof. reflexivity. Qed.

Lemma effective_maxlength_pos (maxlength : Z) : 1 <= effective_maxlength maxlength.
Proof.
  unfold effective_maxlength. destruct (Z.ltb_spec maxlength 1); lia.
Qed.

Lemma final_state_returns (word : string) (maxlength : Z) :
  returns (final_state word maxlength)
    (fun fs => loop_cond (len word) (effective_maxlength maxlength) fs = false
               /\ in_step fs).
Proof. apply pass_returns. Qed.

Lemma DoubleMetaphone_returns (word : string) (maxlength : Z) :
  returns (DoubleMetaphone word maxlength)
    (fun r => len (fst r) <= effective_maxlength maxlength
              /\ len (snd r) <= effective_maxlength maxlength).
Proof.
  pose proof (effective_maxlength_pos maxlength) as Hpos.
  rewrite DoubleMetaphone_unfold. destruct (len word <? 1).
  - apply returns_Ok. cbn [fst snd]. change (len "") with 0. lia.
  - apply returns_bind.
    eapply returns_weaken; [apply final_state_returns |].
    intros fs _. cbv beta.
    eapply returns_weaken; [apply finish_returns; lia |].
    intros r (Hp & Hs & _). auto.
Qed.

(** ** The claims about the encoder *)

(** C1. [DoubleMetaphone("knewmoanya", 4)] and
    [DoubleMetaphone("pneumonia", 4)] both have the primary code ["NMN"];
    with maximum length 6 both still have the primary code ["NMN"] and an
    empty secondary code, and the pass ends with [alternate] clear for
    both: no rule diverged. *)
Theorem C1_reference_vectors :
  DoubleMetaphone "knewmoanya" 4 = Ok ("NMN", "")
  /\ DoubleMetaphone "pneumonia" 4 = Ok ("NMN", "")
  /\ DoubleMetaphone "knewmoanya" 6 = Ok ("NMN", "")
  /\ DoubleMetaphone "pneumonia" 6 = Ok ("NMN", "")
  /\ (exists fs, final_state "knewmoanya" 6 = Ok fs /\ alternate fs = false)
  /\ (exists fs, final_state "pneumonia" 6 = Ok fs /\ alternate fs = false).
Proof.
  repeat split; try (vm_compute; reflexivity);
    eexists; (split; [vm_compute; reflexivity | reflexivity]).
Qed.

(** C2. For every word and every maximum length [L >= 1], both strings that
    [DoubleMetaphone] returns have at most [L] bytes. *)
Theorem C2_length_bound (word : string) (L : Z) :
  1 <= L ->
  exists metaph metaph2,
    DoubleMetaphone word L = Ok (metaph, metaph2)
    /\ len metaph <= L /\ len metaph2 <= L.
Proof.
  intros HL.
  destruct (DoubleMetaphone_returns word L) as ([p s] & Heq & Hp & Hs).
  unfold effective_maxlength in Hp, Hs.
  destruct (Z.ltb_spec L 1); [lia |].
  exists p, s. auto.
Qed.

Lemma C2_length_bound_witness :
  exists metaph metaph2,
    DoubleMetaphone "filipowicz" 4 = Ok (metaph, metaph2)
    /\ len metaph <= 4 /\ len metaph2 <= 4.
Proof. apply (C2_length_bound "filipowicz" 4). lia. Defined.

(** C6. For every word and every maximum length below 1,
    [DoubleMetaphone] returns, and returns what it returns for the maximum
    length 4. *)
Theorem C6_maxlength_default (word : string) (maxlength : Z) :
  maxlength < 1 ->
  DoubleMetaphone word maxlength = DoubleMetaphone word 4
  /\ total (DoubleMetaphone word maxlength).
Proof.
  intros H. split.
  - unfold DoubleMetaphone.
    destruct (Z.ltb_spec maxlength 1); [reflexivity | lia].
  - eapply returns_total, DoubleMetaphone_returns.
Qed.

Lemma C6_maxlength_default_witness :
  DoubleMetaphone "Xavier" 0 = DoubleMetaphone "Xavier" 4
  /\ total (DoubleMetaphone "Xavier" 0).
Proof. apply (C6_maxlength_default "Xavier" 0). lia. Defined.

(** C8. In every pass the cursor only moves forward: the code before the
    loop leaves it at 0 or later, every iteration of the loop advances it
    by at least 1 (and at most 4), so that the cursor values logged at the
    head of the loop increase strictly; [len(word)] iterations are enough
    for the loop to be left, and it is left only with the cursor at or
    beyond [len(word)] or with both buffers at [maxlength] or more.  So it
    is for the pass of [DoubleMetaphone(w, L)] on every word [w]: there
    [len(w)], a number of bytes, is at least the number of runes of [w]. *)
Theorem C8_cursor_monotone (word : string) (rword : list rune)
    (wlen maxlength : Z) :
  (forall st, exists st',
      step word rword wlen st = Ok st'
      /\ current st + 1 <= current st' <= current st + 4)
  /\ (exists st0 fs,
      prologue rword initial_state = Ok st0
      /\ 0 <= current st0
      /\ main_loop word rword wlen maxlength (Z.to_nat wlen) st0 = Ok fs
      /\ (forall fuel, (Z.to_nat wlen <= fuel)%nat ->
          main_loop word rword wlen maxlength fuel st0 = Ok fs)
      /\ increasing (cursor_log word rword wlen maxlength (Z.to_nat wlen) st0)
      /\ List.last (cursor_log word rword wlen maxlength (Z.to_nat wlen) st0) 0
         = current fs
      /\ current st0 <= current fs
      /\ (wlen <= current fs
          \/ (maxlength <= len (primary fs) /\ maxlength <= len (secondary fs))))
  /\ (forall w L, exists fs,
      final_state w L = Ok fs
      /\ Z.of_nat (List.length (runes w)) <= len w
      /\ (len w <= current fs
          \/ (effective_maxlength L <= len (primary fs)
              /\ effective_maxlength L <= len (secondary fs)))).
Proof.
  assert (Hexit : forall n m fs, loop_cond n m fs = false ->
            n <= current fs
            \/ (m <= len (primary fs) /\ m <= len (secondary fs))).
  { intros n m fs H. unfold loop_cond in H.
    apply andb_false_iff in H as [H | H].
    - left. apply Z.ltb_ge in H. exact H.
    - right. apply orb_false_iff in H as [H1 H2].
      apply Z.ltb_ge in H1, H2. auto. }
  refine (conj _ (conj _ _)).
  - intros st. destruct (step_fires word rword wlen st) as (st' & H & Hc & _).
    exists st'. auto.
  - destruct (prologue_keeps rword initial_state) as (st0 & Hst0 & Hcur & _).
    cbn [current initial_state] in Hcur.
    destruct (main_loop_returns word rword wlen maxlength (Z.to_nat wlen) st0)
      as (fs & Hfs & Hcond & Hmono & _); [lia |].
    exists st0, fs.
    refine (conj Hst0 (conj _ (conj Hfs (conj _ (conj _ (conj _ (conj Hmono _))))))).
    + lia.
    + intros fuel Hfuel. eapply main_loop_fuel; eauto.
    + apply cursor_log_increasing.
    + apply cursor_log_last, Hfs.
    + apply Hexit, Hcond.
  - intros w L. destruct (final_state_returns w L) as (fs & Hfs & Hcond & _).
    exists fs. refine (conj Hfs (conj (runes_length w) _)).
    apply Hexit, Hcond.
Qed.

(** C9. [DoubleMetaphone] returns for every string and every maximum
    length.  [GetAt], [IsVowel] and [StringAt] never fail: outside the rune
    slice they answer 0 or [false].  [MetaphAdd] panics exactly when it is
    not given one or two tokens, and no rule of the encoder does that: every
    iteration of the loop returns. *)
Theorem C9_never_panics :
  (forall word maxlength, total (DoubleMetaphone word maxlength))
  /\ (forall rword at_,
        total (GetAt rword at_) /\ total (IsVowel rword at_)
        /\ (at_ < 0 \/ rwordLen rword <= at_ ->
            GetAt rword at_ = Ok 0 /\ IsVowel rword at_ = Ok false))
  /\ (forall rword start length s,
        (0 <= length -> total (StringAt rword start length s))
        /\ (start < 0 \/ rwordLen rword <= start + length ->
            StringAt rword start length s = Ok false))
  /\ (forall s st,
        total (MetaphAdd s st) <-> (List.length s = 1%nat \/ List.length s = 2%nat))
  /\ (forall word rword wlen st, total (step word rword wlen st)).
Proof.
  refine (conj _ (conj _ (conj _ (conj _ _)))).
  - intros word maxlength. eapply returns_total, DoubleMetaphone_returns.
  - intros rword at_.
    refine (conj (GetAt_total rword at_) (conj (IsVowel_total rword at_) _)).
    intros H. split; [apply GetAt_out_of_range, H | apply IsVowel_out_of_range, H].
  - intros rword start length s. split.
    + apply StringAt_total.
    + apply StringAt_out_of_range.
  - intros s st. symmetry. apply MetaphAdd_arity.
  - intros word rword wlen st. eapply returns_total, step_fires.
Qed.

(** ** Runes that no rule matches *)

Lemma string_of_runes_head_neq (r : rune) (rs : list rune) (c : ascii)
    (s : string) :
  ascii_to_Z c < 128 -> r <> ascii_to_Z c ->
  String.eqb (String c s) (string_of_runes (r :: rs)) = false.
Proof.
  intros Hc Hr. unfold string_of_runes. cbn [flat_map].
  destruct (EncodeRune_first r) as (b0 & bs & -> & Hb & Hlow).
  cbn [app string_of_bytes map string_of_list_ascii String.eqb].
  destruct (Ascii.eqb_spec c (ascii_of_Z b0)) as [-> | _]; [| reflexivity].
  rewrite ascii_to_Z_of_Z in * by exact Hb. elim Hr. symmetry. auto.
Qed.

Lemma step_default (word : string) (rword : list rune) (wlen : Z)
    (st : state) (c : rune) :
  GetAt rword (current st) = Ok c -> dispatch_rune c = false ->
  step word rword wlen st = Ok (advance 1 st).
Proof.
  intros Hget Hnd. unfold step, is_vowel_case. rewrite Hget. cbn [bind].
  repeat match goal with
    | |- context [c =? ?d] =>
        destruct (Z.eqb_spec c d) as [Heq | _];
        [ exfalso; rewrite Heq in Hnd; vm_compute in Hnd; discriminate | ]
    end.
  reflexivity.
Qed.

Section Unmatched.

Variable word : string.
Variable rword : list rune.
Variable wlen : Z.
Variable maxlength : Z.
Hypothesis Hnd : Forall (fun r => dispatch_rune r = false) rword.

Lemma GetAt_unmatched (at_ : Z) (c : rune) :
  GetAt rword at_ = Ok c -> dispatch_rune c = false.
Proof.
  unfold GetAt, go_index.
  destruct ((at_ <? 0) || (at_ >=? rwordLen rword)).
  - intros [= <-]. reflexivity.
  - destruct (at_ <? 0); [discriminate |].
    destruct (rword !! Z.to_nat at_) as [x |] eqn:Hx; [| discriminate].
    intros [= <-]. rewrite Forall_forall in Hnd. apply Hnd.
    eapply list_elem_of_lookup_2, Hx.
Qed.

Lemma prologue_unmatched : prologue rword initial_state = Ok initial_state.
Proof.
  unfold prologue.
  assert (Hsa : StringAt rword 0 2 ["GN"; "KN"; "PN"; "WR"; "PS"] = Ok false).
  { unfold StringAt.
    destruct ((0 <? 0) || (0 + 2 >=? rwordLen rword)) eqn:Hg; [reflexivity |].
    apply orb_false_iff in Hg as [_ Hg]. unfold rwordLen in *.
    destruct (Z.geb_spec (0 + 2) (Z.of_nat (List.length rword))); [discriminate |].
    rewrite go_slice_in_range by lia. cbn [bind].
    destruct rword as [| r0 rs]; [simpl in *; lia |].
    apply Forall_cons in Hnd as [Hr0 _].
    change (Z.to_nat (0 + 2 - 0)) with 2%nat.
    change (Z.to_nat 0) with 0%nat. cbn [skipn firstn].
    assert (Hne : forall d : ascii, dispatch_rune (ascii_to_Z d) = true ->
                  r0 <> ascii_to_Z d) by (intros d Hd ->; congruence).
    cbn [existsb].
    rewrite !string_of_runes_head_neq
      by (try (apply Hne); vm_compute; reflexivity).
    reflexivity. }
  rewrite Hsa. cbn [bind].
  unfold GetAt_is. destruct (GetAt_total rword 0) as [c Hc]. rewrite Hc.
  cbn [bind]. apply GetAt_unmatched in Hc.
  destruct (Z.eqb_spec c (rn "X")) as [Heq | _]; [| reflexivity].
  rewrite Heq in Hc. vm_compute in Hc. discriminate.
Qed.

Lemma main_loop_unmatched (fuel : nat) : forall n,
  (Z.to_nat (wlen - n) <= fuel)%nat ->
  exists n', main_loop word rword wlen maxlength fuel (mkState n "" "" false)
             = Ok (mkState n' "" "" false).
Proof.
  induction fuel as [| fuel IH]; intros n Hfuel; cbn [main_loop].
  - destruct (loop_cond wlen maxlength _) eqn:Hc; [| eexists; reflexivity].
    unfold loop_cond in Hc. apply andb_true_iff in Hc as [Hc _].
    apply Z.ltb_lt in Hc. cbn [current] in Hc. lia.
  - destruct (loop_cond wlen maxlength _) eqn:Hc; [| eexists; reflexivity].
    unfold loop_cond in Hc. apply andb_true_iff in Hc as [Hc _].
    apply Z.ltb_lt in Hc. cbn [current] in Hc.
    destruct (GetAt_total rword n) as [c Hc'].
    rewrite (step_default word rword wlen (mkState n "" "" false) c);
      [| exact Hc' | eapply GetAt_unmatched, Hc'].
    cbn [bind]. apply IH. cbn [current]. lia.
Qed.

Lemma pass_unmatched :
  exists n, pass word rword wlen maxlength = Ok (mkState n "" "" false).
Proof.
  unfold pass. rewrite prologue_unmatched. cbn [bind].
  apply main_loop_unmatched. lia.
Qed.

End Unmatched.

(** C10. For the empty word, and for every word whose upper-cased form
    holds no rune that selects a rule (a vowel A, E, I, O, U, Y, one of the
    twenty consonant letters, U+00C7 or U+00D1), [DoubleMetaphone] returns
    two empty strings whatever the maximum length; in the loop such a rune
    takes the [default] branch, which leaves the buffers alone and moves the
    cursor by 1. *)
Theorem C10_unmatched_runes (word : string) (maxlength : Z) :
  Forall (fun r => dispatch_rune r = false) (runes (strings_ToUpper word)) ->
  DoubleMetaphone word maxlength = Ok ("", "")
  /\ DoubleMetaphone "" maxlength = Ok ("", "")
  /\ (forall w rword wlen st c,
        GetAt rword (current st) = Ok c -> dispatch_rune c = false ->
        step w rword wlen st = Ok (advance 1 st)).
Proof.
  intros Hnd. refine (conj _ (conj eq_refl _)).
  - rewrite DoubleMetaphone_unfold. destruct (len word <? 1); [reflexivity |].
    unfold final_state.
    destruct (pass_unmatched (upper_padded word) (runes (upper_padded word))
                (len word) (effective_maxlength maxlength)) as [n ->].
    + unfold upper_padded. rewrite runes_app_pad. apply Forall_app. split.
      * exact Hnd.
      * vm_compute. repeat constructor.
    + cbn [bind]. unfold finish. cbn [primary secondary alternate].
      change (len "") with 0.
      pose proof (effective_maxlength_pos maxlength) as Hpos.
      destruct (Z.gtb_spec 0 (effective_maxlength maxlength)); [lia |].
      reflexivity.
  - intros w rword wlen st c. apply step_default.
Qed.

Lemma C10_unmatched_runes_witness :
  DoubleMetaphone "3.14 (-7)" 4 = Ok ("", "")
  /\ DoubleMetaphone "" 4 = Ok ("", "")
  /\ (forall w rword wlen st c,
        GetAt rword (current st) = Ok c -> dispatch_rune c = false ->
        step w rword wlen st = Ok (advance 1 st)).
Proof.
  apply (C10_unmatched_runes "3.14 (-7)" 4).
  vm_compute. repeat constructor.
Defined.

(** ** Case *)

(** [DoubleMetaphone] sees of its word only the byte length and the
    upper-case form. *)
Lemma DoubleMetaphone_case_congruence (w w' : string) (maxlength : Z) :
  len w = len w' -> strings_ToUpper w = strings_ToUpper w' ->
  DoubleMetaphone w maxlength = DoubleMetaphone w' maxlength.
Proof. intros Hlen Hup. unfold DoubleMetaphone. rewrite Hlen, Hup. reflexivity. Qed.

Lemma len_string_of_bytes (bs : list Z) :
  len (string_of_bytes bs) = Z.of_nat (List.length bs).
Proof. unfold len. rewrite length_string_of_bytes. reflexivity. Qed.

Lemma ascii_upper_range (c : Z) :
  0 <= c < 128 -> 0 <= ascii_upper c < 128.
Proof.
  unfold ascii_upper, within. intros H.
  destruct (Z.leb_spec 97 c), (Z.leb_spec c 122); cbn [andb]; lia.
Qed.

Lemma ascii_lower_range (c : Z) :
  0 <= c < 128 -> 0 <= ascii_lower c < 128.
Proof.
  unfold ascii_lower, within. intros H.
  destruct (Z.leb_spec 65 c), (Z.leb_spec c 90); cbn [andb]; lia.
Qed.

Lemma ascii_upper_idem (c : Z) : ascii_upper (ascii_upper c) = ascii_upper c.
Proof.
  unfold ascii_upper, within.
  destruct (Z.leb_spec 97 c), (Z.leb_spec c 122); cbn [andb];
    destruct (Z.leb_spec 97 (c - 32)), (Z.leb_spec (c - 32) 122); cbn [andb];
    try lia;
    destruct (Z.leb_spec 97 c), (Z.leb_spec c 122); cbn [andb]; lia.
Qed.

Lemma ascii_upper_lower (c : Z) : ascii_upper (ascii_lower c) = ascii_upper c.
Proof.
  unfold ascii_upper, ascii_lower, within.
  destruct (Z.leb_spec 65 c), (Z.leb_spec c 90); cbn [andb];
    destruct (Z.leb_spec 97 (c + 32)), (Z.leb_spec (c + 32) 122); cbn [andb];
    destruct (Z.leb_spec 97 c), (Z.leb_spec c 122); cbn [andb]; lia.
Qed.

Ltac letter_cases H :=
  unfold encoder_letter, within in H;
  repeat (apply orb_true_iff in H; destruct H as [H | H]);
  [ apply andb_true_iff in H; destruct H as [?H ?H]
  | apply Z.eqb_eq in H; subst
  | apply Z.eqb_eq in H; subst
  | apply Z.eqb_eq in H; subst
  | apply Z.eqb_eq in H; subst ].

Ltac ascii_tests r :=
  unfold unicode_ToUpper, unicode_ToLower, EncodeRune, encoder_letter, within;
  repeat match goal with
    | |- context [?a <=? ?b] =>
        lazymatch a with context [r] => idtac | _ =>
          lazymatch b with context [r] => idtac end end;
        destruct (Z.leb_spec a b)
    | |- context [?a =? ?b] =>
        lazymatch a with context [r] => idtac | _ =>
          lazymatch b with context [r] => idtac end end;
        destruct (Z.eqb_spec a b)
    end; cbn [andb orb negb]; try lia; try reflexivity.

Lemma EncodeRune_ascii (r : rune) : 0 <= r <= 127 -> EncodeRune r = [r].
Proof. intros H. ascii_tests r. Qed.

Lemma EncodeRune_letter_bytes (r : rune) :
  encoder_letter r = true -> List.Forall (fun b => 0 <= b < 256) (EncodeRune r).
Proof.
  intros H. letter_cases H.
  - rewrite EncodeRune_ascii by lia. repeat constructor; lia.
  - vm_compute. repeat constructor; discriminate.
  - vm_compute. repeat constructor; discriminate.
  - vm_compute. repeat constructor; discriminate.
  - vm_compute. repeat constructor; discriminate.
Qed.

Lemma DecodeRune_EncodeRune (r : rune) (rest : list Z) :
  encoder_letter r = true ->
  DecodeRune (EncodeRune r ++ rest) = (r, List.length (EncodeRune r)).
Proof.
  intros H. letter_cases H.
  - rewrite EncodeRune_ascii by lia. cbn [app List.length DecodeRune].
    destruct (Z.ltb_spec r 128); [reflexivity | lia].
  - reflexivity.
  - reflexivity.
  - reflexivity.
  - reflexivity.
Qed.

Lemma EncodeRune_nonempty (r : rune) : (1 <= List.length (EncodeRune r))%nat.
Proof.
  destruct (EncodeRune_first r) as (b0 & bs & -> & _). simpl. lia.
Qed.

Lemma decode_runes_encode (rs : list rune) : forall fuel,
  List.Forall (fun r => encoder_letter r = true) rs ->
  (List.length (flat_map EncodeRune rs) <= fuel)%nat ->
  decode_runes fuel (flat_map EncodeRune rs) = rs.
Proof.
  induction rs as [| r rs IH]; intros fuel Hrs Hfuel.
  - destruct fuel; reflexivity.
  - apply List.Forall_cons_iff in Hrs as [Hr Hrs].
    cbn [flat_map] in *. rewrite length_app in Hfuel.
    pose proof (EncodeRune_nonempty r) as Hne.
    destruct fuel as [| fuel]; [lia |].
    pose proof (DecodeRune_EncodeRune r (flat_map EncodeRune rs) Hr) as Hd.
    destruct (EncodeRune r) as [| b0 bs] eqn:He; [simpl in Hne; lia |].
    cbn [decode_runes app] in *. rewrite Hd.
    f_equal.
    change (b0 :: bs ++ flat_map EncodeRune rs)
      with ((b0 :: bs) ++ flat_map EncodeRune rs).
    rewrite skipn_app, skipn_all, Nat.sub_diag. cbn [app skipn].
    apply IH; [exact Hrs | simpl in Hfuel; lia].
Qed.

Lemma runes_string_of_runes (rs : list rune) :
  List.Forall (fun r => encoder_letter r = true) rs ->
  runes (string_of_runes rs) = rs.
Proof.
  intros Hrs. unfold runes, string_of_runes. cbv zeta.
  rewrite bytes_of_string_of_bytes.
  - apply decode_runes_encode; [exact Hrs | lia].
  - induction Hrs as [| r rs Hr _ IH]; cbn [flat_map]; [constructor |].
    apply List.Forall_app. split; [apply EncodeRune_letter_bytes, Hr | exact IH].
Qed.

(** On an all-ASCII string the byte-wise path of [strings.ToUpper] and of
    [strings.ToLower] does what [strings.Map] does. *)
Lemma runes_ascii (bs : list Z) : forall fuel,
  forallb (fun b => b <? 128) bs = true -> (List.length bs <= fuel)%nat ->
  decode_runes fuel bs = bs.
Proof.
  induction bs as [| b bs IH]; intros fuel Hbs Hfuel.
  - destruct fuel; reflexivity.
  - cbn [forallb] in Hbs. apply andb_true_iff in Hbs as [Hb Hbs].
    destruct fuel as [| fuel]; [simpl in Hfuel; lia |].
    cbn [decode_runes DecodeRune]. rewrite Hb. cbn [skipn].
    f_equal. apply IH; [exact Hbs | simpl in Hfuel; lia].
Qed.

Lemma ascii_path_is_Map (f : rune -> rune) (g : Z -> Z) (s : string) :
  (forall c, 0 <= c < 128 -> f c = g c /\ 0 <= g c <= 127) ->
  isASCII s = true ->
  string_of_bytes (map g (bytes_of_string s)) = strings_Map f s.
Proof.
  intros Hfg Hs. unfold strings_Map, string_of_runes, runes. cbv zeta.
  unfold isASCII in Hs. rewrite runes_ascii by (auto; lia).
  f_equal.
  pose proof (bytes_of_string_range s) as Hr.
  induction (bytes_of_string s) as [| b bs IH]; [reflexivity |].
  cbn [forallb] in Hs. apply andb_true_iff in Hs as [Hb Hs].
  apply List.Forall_cons_iff in Hr as [Hb0 Hr]. apply Z.ltb_lt in Hb.
  cbn [map flat_map]. destruct (Hfg b ltac:(lia)) as [-> Hg].
  rewrite EncodeRune_ascii by exact Hg. cbn [app]. f_equal. apply IH; assumption.
Qed.

Lemma ToUpper_is_Map (s : string) :
  strings_ToUpper s = strings_Map unicode_ToUpper s.
Proof.
  unfold strings_ToUpper. destruct (isASCII s) eqn:Hs; [| reflexivity].
  apply ascii_path_is_Map; [| exact Hs].
  intros c Hc. unfold unicode_ToUpper, ascii_upper, within.
  destruct (Z.leb_spec c 127); [| lia].
  destruct (Z.leb_spec 97 c), (Z.leb_spec c 122); cbn [andb]; lia.
Qed.

Lemma ToLower_is_Map (s : string) :
  strings_ToLower s = strings_Map unicode_ToLower s.
Proof.
  unfold strings_ToLower. destruct (isASCII s) eqn:Hs; [| reflexivity].
  apply ascii_path_is_Map; [| exact Hs].
  intros c Hc. unfold unicode_ToLower, ascii_lower, within.
  destruct (Z.leb_spec c 127); [| lia].
  destruct (Z.leb_spec 65 c), (Z.leb_spec c 90); cbn [andb]; lia.
Qed.

(** What the two case mappings do to an encoder letter. *)
Lemma letter_case (r : rune) :
  encoder_letter r = true ->
  encoder_letter (unicode_ToUpper r) = true
  /\ encoder_letter (unicode_ToLower r) = true
  /\ List.length (EncodeRune (unicode_ToUpper r)) = List.length (EncodeRune r)
  /\ List.length (EncodeRune (unicode_ToLower r)) = List.length (EncodeRune r)
  /\ unicode_ToUpper (unicode_ToUpper r) = unicode_ToUpper r
  /\ unicode_ToUpper (unicode_ToLower r) = unicode_ToUpper r.
Proof.
  intros H. letter_cases H.
  - assert (Hup : unicode_ToUpper r = ascii_upper r).
    { unfold unicode_ToUpper. destruct (Z.leb_spec r 127); [reflexivity | lia]. }
    assert (Hlo : unicode_ToLower r = ascii_lower r).
    { unfold unicode_ToLower. destruct (Z.leb_spec r 127); [reflexivity | lia]. }
    pose proof (ascii_upper_range r ltac:(lia)) as Hur.
    pose proof (ascii_lower_range r ltac:(lia)) as Hlr.
    assert (Hl : forall c, 0 <= c < 128 -> encoder_letter c = true).
    { intros c Hc. unfold encoder_letter, within.
      destruct (Z.leb_spec 0 c), (Z.leb_spec c 127); first [lia | reflexivity]. }
    assert (Hu' : forall c, 0 <= c < 128 -> unicode_ToUpper c = ascii_upper c).
    { intros c Hc. unfold unicode_ToUpper.
      destruct (Z.leb_spec c 127); [reflexivity | lia]. }
    rewrite Hup, Hlo, !Hu' by lia.
    rewrite !EncodeRune_ascii by lia.
    repeat split; auto using ascii_upper_idem, ascii_upper_lower.
  - vm_compute. repeat split.
  - vm_compute. repeat split.
  - vm_compute. repeat split.
  - vm_compute. repeat split.
Qed.

Lemma len_string_of_runes_map (f : rune -> rune) (rs : list rune) :
  (forall r, In r rs -> List.length (EncodeRune (f r)) = List.length (EncodeRune r)) ->
  len (string_of_runes (map f rs)) = len (string_of_runes rs).
Proof.
  intros H. unfold string_of_runes. rewrite !len_string_of_bytes. f_equal.
  induction rs as [| r rs IH]; [reflexivity |].
  cbn [map flat_map]. rewrite !length_app, H by (left; reflexivity).
  f_equal. apply IH. intros r' Hr'. apply H. right. exact Hr'.
Qed.

Section EncoderText.

Variable w : string.
Hypothesis Htext : encoder_text w = true.

Lemma encoder_text_runes :
  List.Forall (fun r => encoder_letter r = true) (runes w)
  /\ string_of_runes (runes w) = w.
Proof.
  unfold encoder_text in Htext. apply andb_true_iff in Htext as [Hl He].
  split; [| apply String.eqb_eq, He].
  apply List.Forall_forall. rewrite forallb_forall in Hl. exact Hl.
Qed.

Lemma ToUpper_text :
  strings_ToUpper w = string_of_runes (map unicode_ToUpper (runes w)).
Proof. rewrite ToUpper_is_Map. reflexivity. Qed.

Lemma ToLower_text :
  strings_ToLower w = string_of_runes (map unicode_ToLower (runes w)).
Proof. rewrite ToLower_is_Map. reflexivity. Qed.

Lemma mapped_letters (f : rune -> rune) :
  (forall r, encoder_letter r = true -> encoder_letter (f r) = true) ->
  List.Forall (fun r => encoder_letter r = true) (map f (runes w)).
Proof.
  intros Hf. destruct encoder_text_runes as [Hl _].
  apply List.Forall_map. eapply List.Forall_impl; [| exact Hl].
  intros r Hr. apply Hf, Hr.
Qed.

Lemma len_case_text :
  len (strings_ToUpper w) = len w /\ len (strings_ToLower w) = len w.
Proof.
  destruct encoder_text_runes as [Hl He].
  rewrite List.Forall_forall in Hl.
  rewrite ToUpper_text, ToLower_text.
  rewrite !len_string_of_runes_map, He; [auto | |];
    intros r Hr; apply letter_case, Hl, Hr.
Qed.

Lemma ToUpper_case_text :
  strings_ToUpper (strings_ToUpper w) = strings_ToUpper w
  /\ strings_ToUpper (strings_ToLower w) = strings_ToUpper w.
Proof.
  destruct encoder_text_runes as [Hl _].
  rewrite List.Forall_forall in Hl.
  rewrite ToUpper_text, ToLower_text.
  split; rewrite ToUpper_is_Map; unfold strings_Map;
    (rewrite runes_string_of_runes
       by (apply mapped_letters; intros r Hr; apply letter_case, Hr));
    rewrite map_map; f_equal; apply map_ext_in; intros r Hr;
    apply letter_case, Hl, Hr.
Qed.

End EncoderText.

Lemma isASCII_encoder_text (w : string) :
  isASCII w = true -> encoder_text w = true.
Proof.
  intros Hs. unfold encoder_text, runes, string_of_runes. cbv zeta.
  unfold isASCII in Hs. rewrite runes_ascii by (auto; lia).
  pose proof (bytes_of_string_range w) as Hr.
  apply andb_true_iff. split.
  - apply forallb_forall. intros b Hb.
    rewrite forallb_forall in Hs. rewrite List.Forall_forall in Hr.
    specialize (Hs b Hb). specialize (Hr b Hb). apply Z.ltb_lt in Hs.
    unfold encoder_letter, within.
    destruct (Z.leb_spec 0 b), (Z.leb_spec b 127); first [lia | reflexivity].
  - apply String.eqb_eq. rewrite <- (string_of_bytes_of_string w) at 2.
    f_equal. induction (bytes_of_string w) as [| b bs IH]; [reflexivity |].
    cbn [forallb] in Hs. apply andb_true_iff in Hs as [Hb Hs].
    apply List.Forall_cons_iff in Hr as [Hb0 Hr]. apply Z.ltb_lt in Hb.
    cbn [flat_map]. rewrite EncodeRune_ascii by lia. cbn [app].
    f_equal. apply IH; assumption.
Qed.

(** ** The index *)

Lemma len_pos_iff (s : string) : (0 <? len s) = true <-> s <> "".
Proof.
  unfold len. destruct s as [| c s]; simpl String.length.
  - split; [discriminate | congruence].
  - split; [discriminate |]. intros _. apply Z.ltb_lt. lia.
Qed.

Lemma len_zero_iff (s : string) : (0 <? len s) = false <-> s = "".
Proof.
  unfold len. destruct s as [| c s]; simpl String.length.
  - split; reflexivity.
  - split; [| discriminate]. intros H. apply Z.ltb_ge in H. lia.
Qed.

Lemma map_get_insert (M : gmap string (list string)) (k k' : string)
    (v : list string) :
  map_get (<[k := v]> M) k' = if decide (k = k') then v else map_get M k'.
Proof.
  unfold map_get. rewrite lookup_insert. destruct (decide (k = k')); reflexivity.
Qed.

Lemma NewMetaphMap_body_spec (maxLen : Z) (M : gmap string (list string))
    (word : string) :
  exists M', NewMetaphMap_body maxLen M word = Ok M'
    /\ forall k, map_get M' k = map_get M k ++ appended maxLen k word.
Proof.
  unfold NewMetaphMap_body, appended.
  destruct (DoubleMetaphone_returns word maxLen) as ([m m2] & -> & _).
  cbn [bind]. eexists. split; [reflexivity |]. intros k.
  destruct (0 <? len m), (0 <? len m2); cbn [andb];
    rewrite ?map_get_insert;
    repeat case_decide; repeat case_bool_decide; subst;
    rewrite ?map_get_insert, ?app_nil_r; try congruence;
    repeat case_decide; try congruence; try reflexivity.
  rewrite <- app_assoc. reflexivity.
Qed.

Lemma NewMetaphMap_loop_spec (maxLen : Z) (wordlist : list string) :
  forall M, exists M', NewMetaphMap_loop maxLen M wordlist = Ok M'
    /\ forall k, map_get M' k
                 = map_get M k ++ flat_map (appended maxLen k) wordlist.
Proof.
  induction wordlist as [| word rest IH]; intros M; cbn [NewMetaphMap_loop].
  - exists M. split; [reflexivity |]. intros k. cbn. rewrite app_nil_r. reflexivity.
  - destruct (NewMetaphMap_body_spec maxLen M word) as (M1 & -> & H1).
    cbn [bind]. destruct (IH M1) as (M' & -> & H').
    exists M'. split; [reflexivity |]. intros k.
    rewrite H', H1. cbn [flat_map]. rewrite app_assoc. reflexivity.
Qed.

Lemma NewMetaphMap_spec (wordlist : list string) (maxLen : Z) :
  exists idx, NewMetaphMap wordlist maxLen = Ok idx
    /\ maxlen idx = maxLen
    /\ forall k, map_get (mapper idx) k = flat_map (appended maxLen k) wordlist.
Proof.
  unfold NewMetaphMap.
  destruct (NewMetaphMap_loop_spec maxLen wordlist ∅) as (M' & -> & H).
  cbn [bind]. eexists. split; [reflexivity |]. split; [reflexivity |].
  intros k. cbn [mapper]. rewrite H. unfold map_get at 1.
  rewrite lookup_empty. reflexivity.
Qed.

Lemma elem_of_appended (maxLen : Z) (k word x : string) :
  x ∈ appended maxLen k word <-> x = word /\ has_code maxLen word k.
Proof.
  unfold appended, has_code.
  destruct (DoubleMetaphone_returns word maxLen) as ([m m2] & -> & _).
  rewrite elem_of_app. split.
  - intros [H | H].
    + destruct (0 <? len m) eqn:Hl; cbn [andb] in H; [| inversion H].
      case_bool_decide; [| inversion H]. apply list_elem_of_singleton in H.
      split; [exact H |]. exists m, m2. subst k.
      split; [reflexivity |]. split; [apply len_pos_iff, Hl | auto].
    + destruct (0 <? len m2) eqn:Hl; cbn [andb] in H; [| inversion H].
      case_bool_decide; [| inversion H]. apply list_elem_of_singleton in H.
      split; [exact H |]. exists m, m2. subst k.
      split; [reflexivity |]. split; [apply len_pos_iff, Hl | auto].
  - intros (-> & m' & m2' & [= <- <-] & Hne & [-> | ->]).
    + left. apply len_pos_iff in Hne. rewrite Hne. cbn [andb].
      rewrite bool_decide_eq_true_2 by reflexivity. apply list_elem_of_singleton. reflexivity.
    + right. apply len_pos_iff in Hne. rewrite Hne. cbn [andb].
      rewrite bool_decide_eq_true_2 by reflexivity. apply list_elem_of_singleton. reflexivity.
Qed.

Lemma elem_of_bucket (maxLen : Z) (k : string) (wordlist : list string)
    (x : string) :
  x ∈ flat_map (appended maxLen k) wordlist
  <-> x ∈ wordlist /\ has_code maxLen x k.
Proof.
  induction wordlist as [| word rest IH]; cbn [flat_map].
  - split; [intros H; inversion H | intros [H _]; inversion H].
  - rewrite elem_of_app, elem_of_appended, IH, elem_of_cons. split.
    + intros [[-> H] | [H1 H2]]; auto.
    + intros [[-> | H1] H2]; auto.
Qed.

Lemma NoDup_bucket (maxLen : Z) (k : string) (wordlist : list string) :
  NoDup wordlist ->
  (forall w m m2, w ∈ wordlist -> DoubleMetaphone w maxLen = Ok (m, m2) ->
                  m = m2 -> m = "") ->
  NoDup (flat_map (appended maxLen k) wordlist).
Proof.
  induction wordlist as [| word rest IH]; intros Hnd Hcodes; cbn [flat_map].
  - constructor.
  - apply NoDup_cons in Hnd as [Hnotin Hnd].
    apply NoDup_app. split; [| split].
    + unfold appended.
      destruct (DoubleMetaphone_returns word maxLen) as ([m m2] & Heq & _).
      rewrite Heq.
      specialize (Hcodes word m m2 ltac:(left) Heq).
      destruct (0 <? len m) eqn:Hl; cbn [andb];
        destruct (0 <? len m2) eqn:Hl2; cbn [andb];
        repeat case_bool_decide; cbn [app];
        try apply NoDup_singleton; try apply NoDup_nil_2.
      exfalso. subst. apply len_pos_iff in Hl. apply Hl, Hcodes. reflexivity.
    + intros x Hx Hx'. apply elem_of_appended in Hx as [-> _].
      apply elem_of_bucket in Hx' as [Hx' _]. contradiction.
    + apply IH; [exact Hnd |]. intros w m m2 Hw. apply Hcodes. right. exact Hw.
Qed.

Lemma removeDups_spec (s : list string) :
  NoDup (removeDups s) /\ forall x, x ∈ removeDups s <-> x ∈ s.
Proof.
  unfold removeDups. cbv zeta. split.
  - apply NoDup_elements.
  - intros x. rewrite elem_of_elements, elem_of_list_to_set. reflexivity.
Qed.

Lemma MatchWord_spec (idx : MetaphMap) (w m m2 : string) :
  DoubleMetaphone w (maxlen idx) = Ok (m, m2) ->
  exists out, MatchWord idx w = Ok out
    /\ NoDup out
    /\ forall x, x ∈ out <->
         (m <> "" /\ x ∈ map_get (mapper idx) m)
         \/ (m2 <> "" /\ x ∈ map_get (mapper idx) m2).
Proof.
  intros Hdm. unfold MatchWord. rewrite Hdm. cbn [bind].
  eexists. split; [reflexivity |].
  destruct (removeDups_spec
              (if 0 <? len m2
               then (if 0 <? len m then map_get (mapper idx) m else [])
                    ++ map_get (mapper idx) m2
               else if 0 <? len m then map_get (mapper idx) m else []))
    as [Hnd Hin].
  split; [exact Hnd |]. intros x. rewrite Hin.
  destruct (0 <? len m) eqn:H1, (0 <? len m2) eqn:H2;
    rewrite ?elem_of_app, ?elem_of_nil;
    try apply len_pos_iff in H1; try apply len_pos_iff in H2;
    try apply len_zero_iff in H1; try apply len_zero_iff in H2;
    subst; intuition congruence.
Qed.

(** ** The claims about the index *)

(** C4. For every word list, every [maxLen] and every query word whose
    primary code is not empty, [MatchWord] on the index that
    [NewMetaphMap(wordlist, maxLen)] builds encodes the query with the
    [maxLen] of the index and returns, without repetition, exactly the
    words of the buckets of the query's non-empty codes.  The result holds
    the query word when the list does, and every word of the list that has
    a non-empty code in common with the query; as a set it is the same for
    every order of the list. *)
Theorem C4_match_word (wordlist : list string) (maxLen : Z) (w m m2 : string) :
  DoubleMetaphone w maxLen = Ok (m, m2) ->
  m <> "" ->
  exists idx out,
    NewMetaphMap wordlist maxLen = Ok idx
    /\ maxlen idx = maxLen
    /\ MatchWord idx w = Ok out
    /\ NoDup out
    /\ (forall x, x ∈ out <->
          x ∈ map_get (mapper idx) m
          \/ (m2 <> "" /\ x ∈ map_get (mapper idx) m2))
    /\ (w ∈ wordlist -> w ∈ out)
    /\ (forall v c, v ∈ wordlist -> has_code maxLen v c ->
                    has_code maxLen w c -> v ∈ out)
    /\ (forall wordlist', wordlist' ≡ₚ wordlist ->
        exists idx' out',
          NewMetaphMap wordlist' maxLen = Ok idx'
          /\ MatchWord idx' w = Ok out'
          /\ forall x, x ∈ out' <-> x ∈ out).
Proof.
  intros Hdm Hm.
  assert (Hmatch : forall wl, exists idx out,
            NewMetaphMap wl maxLen = Ok idx /\ maxlen idx = maxLen
            /\ MatchWord idx w = Ok out /\ NoDup out
            /\ (forall x, x ∈ out <->
                  x ∈ map_get (mapper idx) m
                  \/ (m2 <> "" /\ x ∈ map_get (mapper idx) m2))
            /\ (forall x, x ∈ out <->
                  x ∈ wl /\ exists c, has_code maxLen x c /\ has_code maxLen w c)).
  { intros wl.
    destruct (NewMetaphMap_spec wl maxLen) as (idx & Hidx & Hmax & Hbucket).
    destruct (MatchWord_spec idx w m m2) as (out & Hout & Hnd & Hin);
      [rewrite Hmax; exact Hdm |].
    assert (Hin' : forall x, x ∈ out <->
              x ∈ map_get (mapper idx) m
              \/ (m2 <> "" /\ x ∈ map_get (mapper idx) m2)).
    { intros x. rewrite Hin. tauto. }
    exists idx, out. repeat (split; [assumption |]).
    intros x. rewrite Hin', !Hbucket, !elem_of_bucket. split.
    - intros [[Hx Hc] | [Hne [Hx Hc]]]; (split; [exact Hx |]).
      + exists m. split; [exact Hc |]. exists m, m2. auto.
      + exists m2. split; [exact Hc |]. exists m, m2. auto.
    - intros (Hx & c & Hc & (m' & m2' & Hdm' & Hne & Hor)).
      rewrite Hdm in Hdm'. injection Hdm' as <- <-.
      destruct Hor as [-> | ->]; [left | right]; auto. }
  destruct (Hmatch wordlist) as (idx & out & Hidx & Hmax & Hout & Hnd & Hin & Hset).
  exists idx, out. repeat (split; [assumption |]).
  split; [| split].
  - intros Hw. apply Hset. split; [exact Hw |].
    exists m. split; exists m, m2; auto.
  - intros v c Hv Hvc Hwc. apply Hset. split; [exact Hv |]. exists c. auto.
  - intros wl' Hperm.
    destruct (Hmatch wl') as (idx' & out' & Hidx' & _ & Hout' & _ & _ & Hset').
    exists idx', out'. repeat (split; [assumption |]).
    intros x. rewrite Hset, Hset', Hperm. reflexivity.
Qed.

Lemma C4_match_word_witness :
  exists idx out,
    NewMetaphMap ["pneumonia"; "michael"; "knewmoania"; "pneumonia"] 4 = Ok idx
    /\ maxlen idx = 4
    /\ MatchWord idx "knewmoania" = Ok out
    /\ NoDup out
    /\ (forall x, x ∈ out <->
          x ∈ map_get (mapper idx) "NMN"
          \/ ("" <> "" /\ x ∈ map_get (mapper idx) ""))
    /\ ("knewmoania" ∈ ["pneumonia"; "michael"; "knewmoania"; "pneumonia"] ->
        "knewmoania" ∈ out)
    /\ (forall v c,
          v ∈ ["pneumonia"; "michael"; "knewmoania"; "pneumonia"] ->
          has_code 4 v c -> has_code 4 "knewmoania" c -> v ∈ out)
    /\ (forall wordlist',
          wordlist' ≡ₚ ["pneumonia"; "michael"; "knewmoania"; "pneumonia"] ->
          exists idx' out',
            NewMetaphMap wordlist' 4 = Ok idx'
            /\ MatchWord idx' "knewmoania" = Ok out'
            /\ forall x, x ∈ out' <-> x ∈ out).
Proof.
  apply (C4_match_word ["pneumonia"; "michael"; "knewmoania"; "pneumonia"] 4
           "knewmoania" "NMN" "").
  - vm_compute. reflexivity.
  - discriminate.
Defined.

(** C5, as the code has it.  [NewMetaphMap] returns an index in which the
    bucket of a code holds, in the order of the list, one entry for each
    time a word of the list produced that code as a non-empty primary or
    secondary code; so every word of the list is in the bucket of each of
    its non-empty codes.  A bucket is free of repetitions when no word is
    repeated in the list and no word has a non-empty primary code equal to
    its secondary code. *)
Theorem C5_index_buckets (wordlist : list string) (maxLen : Z) :
  exists idx,
    NewMetaphMap wordlist maxLen = Ok idx
    /\ (forall k, map_get (mapper idx) k
                  = flat_map (appended maxLen k) wordlist)
    /\ (forall w c, w ∈ wordlist -> has_code maxLen w c ->
                    w ∈ map_get (mapper idx) c)
    /\ (NoDup wordlist ->
        (forall w m m2, w ∈ wordlist ->
           DoubleMetaphone w maxLen = Ok (m, m2) -> m = m2 -> m = "") ->
        forall k, NoDup (map_get (mapper idx) k)).
Proof.
  destruct (NewMetaphMap_spec wordlist maxLen) as (idx & Hidx & _ & Hbucket).
  exists idx. split; [exact Hidx |]. split; [exact Hbucket |]. split.
  - intros w c Hw Hc. rewrite Hbucket. apply elem_of_bucket. auto.
  - intros Hnd Hcodes k. rewrite Hbucket. apply NoDup_bucket; assumption.
Qed.

Lemma C5_index_buckets_witness :
  exists idx,
    NewMetaphMap ["Schmidt"; "smith"] 4 = Ok idx
    /\ (forall k, NoDup (map_get (mapper idx) k))
    /\ "smith" ∈ map_get (mapper idx) "XMT"
    /\ "Schmidt" ∈ map_get (mapper idx) "XMT".
Proof.
  destruct (C5_index_buckets ["Schmidt"; "smith"] 4)
    as (idx & Hidx & _ & Hin & Hnd).
  exists idx. split; [exact Hidx |]. split; [| split].
  - apply Hnd.
    + repeat constructor; rewrite ?elem_of_cons, ?elem_of_nil;
        intuition discriminate.
    + intros w m m2 Hw.
      rewrite !elem_of_cons, elem_of_nil in Hw.
      destruct Hw as [-> | [-> | []]]; vm_compute; intros [= <- <-]; discriminate.
  - apply Hin; [rewrite !elem_of_cons; auto |].
    exists "SM0", "XMT". split; [vm_compute; reflexivity |].
    split; [discriminate | auto].
  - apply Hin; [rewrite !elem_of_cons; auto |].
    exists "XMT", "SMT". split; [vm_compute; reflexivity |].
    split; [discriminate | auto].
Defined.

(** C5 as stated fails: the index stores a word once for each time it is
    appended.  A word that the list repeats is repeated in its bucket, and
    so is a word whose two codes are equal, as for "schwf" with the maximum
    length 2, where both codes are ["XF"]. *)
Lemma C5_counterexample :
  (exists idx, NewMetaphMap ["a"; "a"] 4 = Ok idx
     /\ mapper idx !! "A" = Some ["a"; "a"])
  /\ DoubleMetaphone "schwf" 2 = Ok ("XF", "XF")
  /\ (exists idx, NewMetaphMap ["schwf"] 2 = Ok idx
       /\ mapper idx !! "XF" = Some ["schwf"; "schwf"])
  /\ ~ (forall wordlist maxLen idx k bucket,
          NewMetaphMap wordlist maxLen = Ok idx ->
          mapper idx !! k = Some bucket -> NoDup bucket).
Proof.
  assert (Hget : forall (M : gmap string (list string)) k x l,
             map_get M k = x :: l -> M !! k = Some (x :: l)).
  { intros M k x l. unfold map_get. destruct (M !! k); cbn; congruence. }
  assert (Ha : exists idx, NewMetaphMap ["a"; "a"] 4 = Ok idx
                 /\ mapper idx !! "A" = Some ["a"; "a"]).
  { destruct (NewMetaphMap_spec ["a"; "a"] 4) as (idx & Hidx & _ & Hb).
    exists idx. split; [exact Hidx |]. apply Hget. rewrite Hb.
    vm_compute. reflexivity. }
  refine (conj Ha (conj _ (conj _ _))).
  - vm_compute. reflexivity.
  - destruct (NewMetaphMap_spec ["schwf"] 2) as (idx & Hidx & _ & Hb).
    exists idx. split; [exact Hidx |]. apply Hget. rewrite Hb.
    vm_compute. reflexivity.
  - intros H. destruct Ha as (idx & Hidx & Hl).
    specialize (H _ _ _ _ _ Hidx Hl).
    apply NoDup_cons in H as [H _]. apply H. left.
Qed.

(** * Further properties *)

(** ** Text of the buffers *)

Lemma append_cons (c : ascii) (s t : string) :
  String c s +:+ t = String c (s +:+ t).
Proof. reflexivity. Qed.

Lemma append_nil_r (s : string) : s +:+ "" = s.
Proof.
  induction s as [| c s IH]; [reflexivity | rewrite append_cons, IH; reflexivity].
Qed.

Lemma append_assoc (s t u : string) : (s +:+ t) +:+ u = s +:+ (t +:+ u).
Proof.
  induction s as [| c s IH]; [reflexivity | rewrite !append_cons, IH; reflexivity].
Qed.

Lemma append_inv_l (s t u : string) : s +:+ t = s +:+ u -> t = u.
Proof.
  induction s as [| c s IH]; [auto |]. rewrite !append_cons. intros [= H]. auto.
Qed.

Lemma len_append (s t : string) : len (s +:+ t) = len s + len t.
Proof.
  unfold len. rewrite <- Nat2Z.inj_add. f_equal.
  induction s as [| c s IH]; [reflexivity |].
  rewrite append_cons. simpl String.length. rewrite IH. reflexivity.
Qed.

Lemma len_nonneg (s : string) : 0 <= len s.
Proof. unfold len. lia. Qed.

Lemma code_text_append (s t : string) :
  code_text (s +:+ t) = code_text s && code_text t.
Proof. unfold code_text. rewrite bytes_of_string_app. apply forallb_app. Qed.

Lemma grows_refl (s : string) : grows s s.
Proof. exists "". rewrite append_nil_r. auto. Qed.

Lemma grows_trans (s t u : string) : grows s t -> grows t u -> grows s u.
Proof.
  intros (a & -> & Ha) (b & -> & Hb). exists (a +:+ b).
  rewrite append_assoc, code_text_append, Ha, Hb. auto.
Qed.

Lemma grows_app (s s' t : string) :
  grows s s' -> code_text t = true -> grows s (s' +:+ t).
Proof.
  intros H Ht. apply (grows_trans s s'); [exact H |]. exists t. auto.
Qed.

(** ** What the rules write *)

Ltac emits_tac :=
  cbv beta zeta; unfold emits, keeps;
  repeat match goal with
    | |- context [negb (ascii_to_Z ?c =? blank)] =>
        let v := eval vm_compute in (negb (ascii_to_Z c =? blank)) in
        change (negb (ascii_to_Z c =? blank)) with v
    end;
  cbn [current primary secondary alternate advance write_primary
       write_secondary set_alternate];
  split;
  repeat first [ apply grows_refl
               | apply grows_app; [ | vm_compute; reflexivity ] ].

Ltac wp_emits := repeat wp_step; emits_tac.

Section RulesWrite.

Variable word : string.
Variable rword : list rune.
Variable wlen : Z.

Lemma case_vowel_emits st : returns (case_vowel st) (emits st).
Proof. unfold case_vowel. wp_emits. Qed.

Lemma case_W_emits st : returns (case_W rword wlen st) (emits st).
Proof. unfold case_W. wp_emits. Qed.

Lemma case_B_emits st : returns (case_B rword st) (emits st).
Proof. unfold case_B. wp_emits. Qed.

Lemma case_C_cedilla_emits st : returns (case_C_cedilla st) (emits st).
Proof. unfold case_C_cedilla. wp_emits. Qed.

Lemma case_C_CH_emits st : returns (case_C_CH rword st) (emits st).
Proof. unfold case_C_CH. wp_emits. Qed.

Lemma case_C_CC_emits st : returns (case_C_CC rword st) (emits st).
Proof. unfold case_C_CC. wp_emits. Qed.

Lemma case_C_emits st : returns (case_C rword st) (emits st).
Proof.
  unfold case_C.
  repeat first [ apply case_C_CH_emits | apply case_C_CC_emits | wp_step ]; emits_tac.
Qed.

Lemma case_D_emits st : returns (case_D rword st) (emits st).
Proof. unfold case_D. wp_emits. Qed.

Lemma case_F_emits st : returns (case_F rword st) (emits st).
Proof. unfold case_F. wp_emits. Qed.

Lemma case_G_GH_emits st : returns (case_G_GH rword st) (emits st).
Proof. unfold case_G_GH. wp_emits. Qed.

Lemma case_G_GN_emits st : returns (case_G_GN word rword st) (emits st).
Proof. unfold case_G_GN. wp_emits. Qed.

Lemma case_G_emits st : returns (case_G word rword st) (emits st).
Proof.
  unfold case_G.
  repeat first [ apply case_G_GH_emits | apply case_G_GN_emits | wp_step ]; emits_tac.
Qed.

Lemma case_H_emits st : returns (case_H rword st) (emits st).
Proof. unfold case_H. wp_emits. Qed.

Lemma case_J_emits st : returns (case_J word rword wlen st) (emits st).
Proof. unfold case_J. wp_emits. Qed.

Lemma case_K_emits st : returns (case_K rword st) (emits st).
Proof. unfold case_K. wp_emits. Qed.

Lemma case_L_emits st : returns (case_L rword wlen st) (emits st).
Proof. unfold case_L. wp_emits. Qed.

Lemma case_M_emits st : returns (case_M rword wlen st) (emits st).
Proof. unfold case_M. wp_emits. Qed.

Lemma case_N_emits st : returns (case_N rword st) (emits st).
Proof. unfold case_N. wp_emits. Qed.

Lemma case_N_tilde_emits st : returns (case_N_tilde st) (emits st).
Proof. unfold case_N_tilde. wp_emits. Qed.

Lemma case_P_emits st : returns (case_P rword st) (emits st).
Proof. unfold case_P. wp_emits. Qed.

Lemma case_Q_emits st : returns (case_Q rword st) (emits st).
Proof. unfold case_Q. wp_emits. Qed.

Lemma case_R_emits st : returns (case_R word rword wlen st) (emits st).
Proof. unfold case_R. wp_emits. Qed.

Lemma case_S_SC_emits st : returns (case_S_SC rword st) (emits st).
Proof. unfold case_S_SC. wp_emits. Qed.

Lemma case_S_emits st : returns (case_S word rword wlen st) (emits st).
Proof.
  unfold case_S.
  repeat first [ apply case_S_SC_emits | wp_step ]; emits_tac.
Qed.

Lemma case_T_emits st : returns (case_T rword st) (emits st).
Proof. unfold case_T. wp_emits. Qed.

Lemma case_V_emits st : returns (case_V rword st) (emits st).
Proof. unfold case_V. wp_emits. Qed.

Lemma case_X_emits st : returns (case_X rword wlen st) (emits st).
Proof. unfold case_X. wp_emits. Qed.

Lemma case_Z_emits st : returns (case_Z word rword st) (emits st).
Proof. unfold case_Z. wp_emits. Qed.

Lemma step_emits st : returns (step word rword wlen st) (emits st).
Proof.
  unfold step. destruct (GetAt_total rword (current st)) as [c ->].
  cbn [bind].
  repeat match goal with
    | |- returns (if ?b then _ else _) _ => destruct b
    end;
    first
      [ apply case_vowel_emits | apply case_B_emits | apply case_C_cedilla_emits
      | apply case_C_emits | apply case_D_emits | apply case_F_emits
      | apply case_G_emits | apply case_H_emits | apply case_J_emits
      | apply case_K_emits | apply case_L_emits | apply case_M_emits
      | apply case_N_emits | apply case_N_tilde_emits | apply case_P_emits
      | apply case_Q_emits | apply case_R_emits | apply case_S_emits
      | apply case_T_emits | apply case_V_emits | apply case_W_emits
      | apply case_X_emits | apply case_Z_emits
      | wp_emits ].
Qed.

Lemma prologue_emits st : returns (prologue rword st) (emits st).
Proof. unfold prologue. wp_emits. Qed.

End RulesWrite.

(** ** The returned codes *)

Lemma string_of_bytes_app (a b : list Z) :
  string_of_bytes (a ++ b) = string_of_bytes a +:+ string_of_bytes b.
Proof.
  unfold string_of_bytes.
  induction a as [| x a IH]; [reflexivity |].
  cbn [app map string_of_list_ascii]. rewrite append_cons, IH. reflexivity.
Qed.

Lemma cut_prefix (n : Z) (s : string) : exists r, s = cut n s +:+ r.
Proof.
  unfold cut. destruct (len s >? n).
  - exists (string_of_bytes (skipn (Z.to_nat n) (bytes_of_string s))).
    rewrite <- string_of_bytes_app, firstn_skipn, string_of_bytes_of_string.
    reflexivity.
  - exists "". rewrite append_nil_r. reflexivity.
Qed.

Lemma len_cut (n : Z) (s : string) : 0 <= n -> len (cut n s) = Z.min n (len s).
Proof.
  intros Hn. unfold cut. destruct (Z.gtb_spec (len s) n) as [Hgt | Hle]; [| lia].
  rewrite len_string_of_bytes, length_firstn, length_bytes_of_string.
  unfold len in *. lia.
Qed.

Lemma code_text_cut (n : Z) (s : string) :
  code_text s = true -> code_text (cut n s) = true.
Proof.
  intros Hs. destruct (cut_prefix n s) as [r Hr]. rewrite Hr in Hs.
  rewrite code_text_append in Hs. apply andb_true_iff in Hs. tauto.
Qed.

Lemma finish_cut (maxlength : Z) (st : state) :
  0 <= maxlength ->
  finish maxlength st
  = Ok (cut maxlength (primary st),
        if alternate st then cut maxlength (secondary st) else "").
Proof.
  intros Hm.
  assert (Hcut : forall s,
            (if len s >? maxlength then string_prefix_to s maxlength else Ok s)
            = Ok (cut maxlength s)).
  { intros s. unfold cut. destruct (Z.gtb_spec (len s) maxlength) as [Hgt | Hle];
      [| reflexivity].
    unfold string_prefix_to.
    rewrite go_slice_in_range
      by (try rewrite length_bytes_of_string; unfold len in *; lia).
    cbn [bind]. rewrite Z.sub_0_r. reflexivity. }
  unfold finish. rewrite Hcut. cbn [bind].
  destruct (alternate st); [rewrite Hcut |]; reflexivity.
Qed.

(** Of two beginnings of one string, the shorter begins the longer. *)
Lemma two_prefixes (a : string) : forall b x y,
  a +:+ x = b +:+ y -> len a <= len b -> exists u, b = a +:+ u.
Proof.
  induction a as [| c a IH]; intros b x y Heq Hlen.
  - exists b. reflexivity.
  - destruct b as [| d b].
    + unfold len in Hlen. simpl String.length in Hlen. lia.
    + rewrite !append_cons in Heq. injection Heq as -> Heq.
      destruct (IH b x y Heq) as [u ->].
      * unfold len in *. simpl String.length in Hlen. lia.
      * exists u. reflexivity.
Qed.

Lemma prefix_append (a u : string) : String.prefix a (a +:+ u) = true.
Proof.
  induction a as [| c a IH]; [destruct u; reflexivity |].
  rewrite append_cons. cbn [String.prefix].
  destruct (ascii_dec c c); [exact IH | congruence].
Qed.

(** What a buffer is cut to begins what a longer form of the buffer is cut
    to, when the second cut is not the shorter. *)
Lemma cut_grows (n n' : Z) (s s' : string) :
  0 <= n <= n' -> grows s s' ->
  String.prefix (cut n s) (cut n' s') = true.
Proof.
  intros Hn (t & -> & _).
  destruct (cut_prefix n s) as [r Hr].
  destruct (cut_prefix n' (s +:+ t)) as [r' Hr'].
  destruct (two_prefixes (cut n s) (cut n' (s +:+ t)) (r +:+ t) r') as [u ->].
  - rewrite <- append_assoc, <- Hr. exact Hr'.
  - rewrite !len_cut, len_append by lia. pose proof (len_nonneg t). lia.
  - apply prefix_append.
Qed.

Section LoopText.

Variable word : string.
Variable rword : list rune.
Variable wlen : Z.

Lemma main_loop_grows (maxlength : Z) (fuel : nat) : forall st,
  (Z.to_nat (wlen - current st) <= fuel)%nat ->
  returns (main_loop word rword wlen maxlength fuel st)
    (fun fs => grows (primary st) (primary fs)
               /\ grows (secondary st) (secondary fs)
               /\ (alternate st = true -> alternate fs = true)).
Proof.
  induction fuel as [| fuel IH]; intros st Hfuel.
  - destruct (main_loop_returns word rword wlen maxlength 0 st Hfuel)
      as (fs & Hfs & _ & _ & Halt & _).
    simpl in *. destruct (loop_cond wlen maxlength st); [discriminate |].
    apply returns_Ok. auto using grows_refl.
  - simpl. destruct (loop_cond wlen maxlength st) eqn:Hc.
    + destruct (step_fires word rword wlen st) as (st' & Hst' & Hcur & Halt & _).
      destruct (step_emits word rword wlen st) as (st2 & Hst2 & Hp & Hs).
      rewrite Hst' in Hst2. injection Hst2 as <-. rewrite Hst'. cbn [bind].
      eapply returns_weaken; [apply IH; lia |].
      intros fs (Hp' & Hs' & Halt'). cbv beta.
      refine (conj (grows_trans _ _ _ Hp Hp') (conj (grows_trans _ _ _ Hs Hs') _)).
      auto.
    + apply returns_Ok. auto using grows_refl.
Qed.

(** The pass with a larger maximum length goes through the states of the
    pass with a smaller one, and on from where that one stops. *)
Lemma main_loop_longer (L L' : Z) (fuel : nat) : forall st,
  L <= L' ->
  (Z.to_nat (wlen - current st) <= fuel)%nat ->
  exists fs fs',
    main_loop word rword wlen L fuel st = Ok fs
    /\ main_loop word rword wlen L' fuel st = Ok fs'
    /\ grows (primary fs) (primary fs')
    /\ grows (secondary fs) (secondary fs')
    /\ (alternate fs = true -> alternate fs' = true).
Proof.
  induction fuel as [| fuel IH]; intros st HL Hfuel.
  - destruct (main_loop_returns word rword wlen L 0 st Hfuel) as (fs & Hfs & _).
    destruct (main_loop_grows L' 0 st Hfuel) as (fs' & Hfs' & Hp & Hs & Ha).
    cbn [main_loop] in Hfs.
    destruct (loop_cond wlen L st) eqn:Hc; [discriminate |].
    exists st, fs'. cbn [main_loop]. rewrite Hc.
    cbn [main_loop] in Hfs'. auto.
  - destruct (loop_cond wlen L st) eqn:Hc.
    + assert (Hc' : loop_cond wlen L' st = true).
      { unfold loop_cond in *. apply andb_true_iff in Hc as [H1 H2].
        rewrite H1. cbn [andb]. apply orb_true_iff in H2.
        apply orb_true_iff. destruct H2 as [H2 | H2]; apply Z.ltb_lt in H2;
          [left | right]; apply Z.ltb_lt; lia. }
      cbn [main_loop]. rewrite Hc, Hc'.
      destruct (step_fires word rword wlen st) as (st' & -> & Hcur & _).
      cbn [bind]. apply IH; [exact HL | lia].
    + destruct (main_loop_grows L' (S fuel) st Hfuel) as (fs' & Hfs' & Hp & Hs & Ha).
      exists st, fs'. cbn [main_loop]. rewrite Hc.
      cbn [main_loop] in Hfs'. auto.
Qed.

End LoopText.

Lemma pass_grows (word : string) (rword : list rune) (wlen maxlength : Z) :
  returns (pass word rword wlen maxlength)
    (fun fs => code_text (primary fs) = true /\ code_text (secondary fs) = true).
Proof.
  unfold pass. apply returns_bind.
  destruct (prologue_keeps rword initial_state) as (st0 & Hst0 & Hcur & _).
  destruct (prologue_emits rword initial_state) as (st1 & Hst1 & Hp & Hs).
  rewrite Hst0 in Hst1. injection Hst1 as <-. rewrite Hst0. apply returns_Ok.
  eapply returns_weaken; [apply main_loop_grows |].
  - cbn [current initial_state] in Hcur. lia.
  - intros fs (Hp' & Hs' & _).
    destruct (grows_trans _ _ _ Hp Hp') as (t & Ht & Hct).
    destruct (grows_trans _ _ _ Hs Hs') as (u & Hu & Hcu).
    cbn [primary secondary initial_state] in Ht, Hu.
    change ("" +:+ t) with t in Ht. change ("" +:+ u) with u in Hu.
    subst. auto.
Qed.

(** X1. Both codes are written in the alphabet 0 A F H J K L M N P R S T X:
    no other byte, and in particular no blank, is ever returned. *)
Theorem code_alphabet_only (word : string) (maxlength : Z) :
  exists metaph metaph2,
    DoubleMetaphone word maxlength = Ok (metaph, metaph2)
    /\ code_text metaph = true /\ code_text metaph2 = true.
Proof.
  pose proof (effective_maxlength_pos maxlength) as Hpos.
  rewrite DoubleMetaphone_unfold. destruct (len word <? 1).
  - exists "", "". auto.
  - destruct (pass_grows (upper_padded word) (runes (upper_padded word))
                (len word) (effective_maxlength maxlength))
      as (fs & Hfs & Hp & Hs).
    unfold final_state. rewrite Hfs. cbn [bind].
    rewrite finish_cut by lia.
    eexists _, _. split; [reflexivity |].
    split; [apply code_text_cut, Hp |].
    destruct (alternate fs); [apply code_text_cut, Hs | reflexivity].
Qed.

(** X2. Raising the maximum length only lengthens the codes: for
    [1 <= L <= L'], each code for [L] begins the corresponding code for
    [L']. *)
Theorem longer_maxlength_extends (word : string) (L L' : Z) :
  1 <= L -> L <= L' ->
  exists m m2 m' m2',
    DoubleMetaphone word L = Ok (m, m2)
    /\ DoubleMetaphone word L' = Ok (m', m2')
    /\ String.prefix m m' = true /\ String.prefix m2 m2' = true.
Proof.
  intros H1 HL.
  rewrite !DoubleMetaphone_unfold. destruct (len word <? 1).
  - exists "", "", "", "". auto.
  - unfold final_state, effective_maxlength.
    destruct (Z.ltb_spec L 1); [lia |]. destruct (Z.ltb_spec L' 1); [lia |].
    unfold pass.
    destruct (prologue_keeps (runes (upper_padded word)) initial_state)
      as (st0 & -> & Hcur & _).
    cbn [bind]. cbn [current initial_state] in Hcur.
    destruct (main_loop_longer (upper_padded word) (runes (upper_padded word))
                (len word) L L' (Z.to_nat (len word)) st0 HL)
      as (fs & fs' & -> & -> & Hp & Hs & Ha); [lia |].
    cbn [bind]. rewrite !finish_cut by lia.
    eexists _, _, _, _. split; [reflexivity |]. split; [reflexivity |].
    split; [apply cut_grows; [lia | exact Hp] |].
    destruct (alternate fs).
    + rewrite Ha by reflexivity. apply cut_grows; [lia | exact Hs].
    + destruct (if alternate fs' then _ else _); reflexivity.
Qed.

Lemma longer_maxlength_extends_witness :
  exists m m2 m' m2',
    DoubleMetaphone "Jankelowicz" 4 = Ok (m, m2)
    /\ DoubleMetaphone "Jankelowicz" 6 = Ok (m', m2')
    /\ String.prefix m m' = true /\ String.prefix m2 m2' = true.
Proof. apply (longer_maxlength_extends "Jankelowicz" 4 6); lia. Defined.

(** ** The accessors on the padded word *)

Lemma string_of_runes_ascii (bs : list Z) :
  List.Forall (fun b => 0 <= b < 128) bs ->
  string_of_runes bs = string_of_bytes bs.
Proof.
  intros H. unfold string_of_runes. f_equal.
  induction H as [| b bs Hb _ IH]; [reflexivity |].
  cbn [flat_map]. rewrite EncodeRune_ascii by lia. cbn [app]. f_equal. exact IH.
Qed.

Lemma isASCII_bytes (s : string) :
  isASCII s = true -> List.Forall (fun b => 0 <= b < 128) (bytes_of_string s).
Proof.
  unfold isASCII. intros Hs. rewrite forallb_forall in Hs.
  pose proof (bytes_of_string_range s) as Hr.
  rewrite List.Forall_forall in *. intros b Hb.
  specialize (Hr b Hb). apply Hs, Z.ltb_lt in Hb. lia.
Qed.

(** A slice of runes spells an ASCII string exactly when its runes are the
    bytes of the string. *)
Lemma string_of_runes_spells (sl : list rune) : forall c,
  isASCII c = true ->
  (string_of_runes sl = c <-> sl = bytes_of_string c).
Proof.
  intros c Hc. split.
  - revert c Hc. induction sl as [| r sl IH]; intros c Hc Heq.
    + subst c. reflexivity.
    + unfold string_of_runes in Heq. cbn [flat_map] in Heq.
      destruct (EncodeRune_first r) as (b0 & bs & He & Hb & Hlow).
      rewrite He in Heq. subst c.
      change (string_of_bytes ((b0 :: bs) ++ flat_map EncodeRune sl))
        with (String (ascii_of_Z b0)
                     (string_of_bytes (bs ++ flat_map EncodeRune sl))) in *.
      unfold isASCII in Hc.
      change (bytes_of_string (String ?a ?s))
        with (ascii_to_Z a :: bytes_of_string s) in Hc.
      cbn [forallb] in Hc. apply andb_true_iff in Hc as [H0 Hc].
      rewrite ascii_to_Z_of_Z in H0 by exact Hb. apply Z.ltb_lt in H0.
      specialize (Hlow H0). subst b0.
      rewrite EncodeRune_ascii in He by lia. injection He as <-.
      cbn [app] in *.
      change (bytes_of_string (String ?a ?s))
        with (ascii_to_Z a :: bytes_of_string s).
      rewrite ascii_to_Z_of_Z by exact Hb. f_equal.
      apply IH; [exact Hc | reflexivity].
  - intros ->. rewrite string_of_runes_ascii by apply isASCII_bytes, Hc.
    apply string_of_bytes_of_string.
Qed.



(** The negative length: [StringAt(5, -2, "HUGH")] on the padded "MCHUGH"
    passes the guard, and [rword[5:3]] panics. *)
Example StringAt_negative_length :
  StringAt (runes "MCHUGH     ") 5 (-2) ["HUGH"]
  = Panic "slice bounds out of range".
Proof. reflexivity. Qed.

(** X4. In [DoubleMetaphone] the accessor [GetAt] reads the runes of the
    upper-cased word, then five blanks, then 0: up to five positions behind
    the word a rule finds a blank, never the sentinel. *)
Theorem GetAt_padded_word (word : string) :
  let rs := runes (strings_ToUpper word) in
  let n := Z.of_nat (List.length rs) in
  let rword := runes (upper_padded word) in
  rwordLen rword = n + 5
  /\ forall k,
       GetAt rword k =
       Ok (if (k <? 0) || (n + 5 <=? k) then 0
           else if n <=? k then blank
           else nth (Z.to_nat k) rs 0).
Proof.
  cbv zeta. unfold upper_padded. rewrite runes_app_pad.
  set (rs := runes (strings_ToUpper word)).
  change (runes pad) with [blank; blank; blank; blank; blank].
  assert (Hlen : rwordLen (rs ++ [blank; blank; blank; blank; blank])
                 = Z.of_nat (List.length rs) + 5).
  { unfold rwordLen. rewrite length_app. simpl List.length. lia. }
  split; [exact Hlen |]. intros k. unfold GetAt. rewrite Hlen.
  destruct (Z.ltb_spec k 0) as [Hneg | Hk]; cbn [orb]; [reflexivity |].
  destruct (Z.geb_spec k (Z.of_nat (List.length rs) + 5)) as [Hge | Hlt].
  { destruct (Z.leb_spec (Z.of_nat (List.length rs) + 5) k); [reflexivity | lia]. }
  destruct (Z.leb_spec (Z.of_nat (List.length rs) + 5) k); [lia |].
  unfold go_index. destruct (Z.ltb_spec k 0); [lia |].
  destruct (Z.leb_spec (Z.of_nat (List.length rs)) k) as [Hpad | Hin].
  - rewrite lookup_app_r by lia.
    remember (Z.to_nat k - List.length rs)%nat as j eqn:Hj.
    assert (Hj5 : (j < 5)%nat) by lia.
    do 5 (destruct j as [| j]; [reflexivity |]). lia.
  - rewrite lookup_app_l by lia.
    destruct (rs !! Z.to_nat k) as [x |] eqn:Hx.
    + f_equal. symmetry. apply nth_lookup_Some with (d := 0) in Hx. exact Hx.
    + apply lookup_ge_None in Hx. lia.
Qed.

(** ** A vowel at the start *)

Lemma GetAt_head (r : rune) (rest : list rune) : GetAt (r :: rest) 0 = Ok r.
Proof.
  unfold GetAt, rwordLen. cbn [orb Z.ltb Z.compare].
  destruct (Z.geb_spec 0 (Z.of_nat (List.length (r :: rest)))) as [H | _];
    [simpl in H; lia | reflexivity].
Qed.

(** The code before the loop does nothing unless the first rune is one of
    G, K, P, W and X. *)
Lemma prologue_skips (r : rune) (rest : list rune) (st : state) :
  (forall c : ascii, In c ["G"; "K"; "P"; "W"; "X"]%char -> r <> ascii_to_Z c) ->
  prologue (r :: rest) st = Ok st.
Proof.
  intros Hr. unfold prologue.
  assert (Hsa : StringAt (r :: rest) 0 2 ["GN"; "KN"; "PN"; "WR"; "PS"] = Ok false).
  { unfold StringAt.
    destruct ((0 <? 0) || (0 + 2 >=? rwordLen (r :: rest))) eqn:Hg; [reflexivity |].
    apply orb_false_iff in Hg as [_ Hg]. unfold rwordLen in *.
    destruct (Z.geb_spec (0 + 2) (Z.of_nat (List.length (r :: rest))));
      [discriminate |].
    rewrite go_slice_in_range by lia. cbn [bind].
    change (Z.to_nat (0 + 2 - 0)) with 2%nat.
    change (Z.to_nat 0) with 0%nat. cbn [skipn firstn existsb].
    rewrite !string_of_runes_head_neq
      by (first [ vm_compute; reflexivity | apply Hr; simpl; tauto ]).
    reflexivity. }
  rewrite Hsa. cbn [bind]. unfold GetAt_is. rewrite GetAt_head. cbn [bind].
  destruct (Z.eqb_spec r (rn "X")) as [Heq | _]; [| reflexivity].
  exfalso. apply (Hr "X"%char); [simpl; tauto | exact Heq].
Qed.

Lemma cut_head (n : Z) (c : ascii) (s : string) :
  1 <= n -> exists p, cut n (String c s) = String c p.
Proof.
  intros Hn. unfold cut. destruct (len (String c s) >? n); [| eauto].
  change (bytes_of_string (String c s)) with (ascii_to_Z c :: bytes_of_string s).
  destruct (Z.to_nat n) as [| k] eqn:Hk; [lia |].
  cbn [firstn]. unfold string_of_bytes. cbn [map string_of_list_ascii].
  rewrite ascii_of_Z_to_Z. eauto.
Qed.

(** X5. A word whose first letter is a vowel (A, E, I, O, U or Y after
    upper-casing) has a primary code that begins with ["A"], and a
    secondary code that is empty or begins with ["A"]. *)
Theorem initial_vowel_is_A (word : string) (maxlength : Z) (r : rune)
    (rs : list rune) :
  runes (strings_ToUpper word) = r :: rs ->
  is_vowel_case r = true ->
  exists p metaph2,
    DoubleMetaphone word maxlength = Ok (String "A" p, metaph2)
    /\ (metaph2 = "" \/ exists s, metaph2 = String "A" s).
Proof.
  intros Hrunes Hvowel.
  pose proof (effective_maxlength_pos maxlength) as Hpos.
  assert (Hlen : 1 <= len word).
  { destruct word as [| c w]; [discriminate Hrunes |].
    unfold len. simpl String.length. lia. }
  rewrite DoubleMetaphone_unfold.
  destruct (Z.ltb_spec (len word) 1); [lia |].
  unfold final_state, pass, upper_padded.
  rewrite runes_app_pad, Hrunes. cbn [app].
  assert (Hcases : r = 65 \/ r = 69 \/ r = 73 \/ r = 79 \/ r = 85 \/ r = 89).
  { unfold is_vowel_case in Hvowel.
    repeat (apply orb_true_iff in Hvowel; destruct Hvowel as [Hvowel | Hvowel]);
      apply Z.eqb_eq in Hvowel; vm_compute in Hvowel; tauto. }
  rewrite prologue_skips.
  2:{ intros c Hc Heq. simpl in Hc.
      destruct Hc as [<- | [<- | [<- | [<- | [<- | []]]]]];
        vm_compute in Heq; lia. }
  cbn [bind].
  destruct (Z.to_nat (len word)) as [| fuel] eqn:Hfuel; [lia |].
  cbn [main_loop].
  assert (Hcond : loop_cond (len word) (effective_maxlength maxlength)
                    initial_state = true).
  { unfold loop_cond. cbn [current primary secondary initial_state].
    change (len "") with 0.
    destruct (Z.ltb_spec 0 (len word)); [| lia].
    destruct (Z.ltb_spec 0 (effective_maxlength maxlength)); [reflexivity | lia]. }
  rewrite Hcond. unfold step. cbn [current initial_state].
  rewrite GetAt_head. cbn [bind]. rewrite Hvowel.
  unfold case_vowel. cbn [current initial_state Z.eqb].
  rewrite MetaphAdd_one. cbn [bind].
  match goal with
  | |- context [main_loop ?w ?rw ?n ?m fuel ?st] =>
      destruct (main_loop_grows w rw n m fuel st) as (fs & Hfs & Hp & Hs & _);
      [cbn [current advance write_primary write_secondary initial_state]; lia |];
      rewrite Hfs
  end.
  cbn [bind]. rewrite finish_cut by lia.
  cbn [primary secondary advance write_primary write_secondary initial_state]
    in Hp, Hs.
  destruct Hp as (t & -> & _). destruct Hs as (u & -> & _).
  change ("" +:+ "A") with "A". rewrite !append_cons.
  destruct (cut_head (effective_maxlength maxlength) "A" ("" +:+ t) Hpos)
    as [p ->].
  destruct (cut_head (effective_maxlength maxlength) "A" ("" +:+ u) Hpos)
    as [s ->].
  exists p. eexists. split; [reflexivity |].
  destruct (alternate fs); eauto.
Qed.

Lemma initial_vowel_is_A_witness :
  exists p metaph2,
    DoubleMetaphone "ypsilanti" 4 = Ok (String "A" p, metaph2)
    /\ (metaph2 = "" \/ exists s, metaph2 = String "A" s).
Proof.
  apply (initial_vowel_is_A "ypsilanti" 4 89
           [80; 83; 73; 76; 65; 78; 84; 73]); reflexivity.
Defined.

(** ** More on the index *)

Lemma elem_of_codes_of (maxLen : Z) (word c : string) :
  c ∈ codes_of maxLen word <-> has_code maxLen word c.
Proof.
  unfold codes_of, has_code.
  destruct (DoubleMetaphone_returns word maxLen) as ([m m2] & -> & _).
  rewrite elem_of_app. split.
  - intros [H | H].
    + destruct (0 <? len m) eqn:Hl; [| inversion H].
      apply list_elem_of_singleton in H. subst c.
      exists m, m2. split; [reflexivity |]. split; [apply len_pos_iff, Hl | auto].
    + destruct (0 <? len m2) eqn:Hl; [| inversion H].
      apply list_elem_of_singleton in H. subst c.
      exists m, m2. split; [reflexivity |]. split; [apply len_pos_iff, Hl | auto].
  - intros (m' & m2' & [= <- <-] & Hne & [-> | ->]);
      apply len_pos_iff in Hne; rewrite Hne; [left | right];
      apply list_elem_of_singleton; reflexivity.
Qed.

Lemma NewMetaphMap_body_dom (maxLen : Z) (M : gmap string (list string))
    (word : string) :
  exists M', NewMetaphMap_body maxLen M word = Ok M'
    /\ dom M' = dom M ∪ list_to_set (codes_of maxLen word).
Proof.
  unfold NewMetaphMap_body, codes_of.
  destruct (DoubleMetaphone_returns word maxLen) as ([m m2] & -> & _).
  cbn [bind]. eexists. split; [reflexivity |].
  destruct (0 <? len m), (0 <? len m2); cbn [app];
    rewrite ?dom_insert_L, ?list_to_set_cons, ?list_to_set_nil;
    apply set_eq; intros x; rewrite ?elem_of_union, ?elem_of_singleton,
      ?elem_of_empty; tauto.
Qed.

Lemma NewMetaphMap_loop_dom (maxLen : Z) (wordlist : list string) :
  forall M, exists M', NewMetaphMap_loop maxLen M wordlist = Ok M'
    /\ dom M' = dom M ∪ list_to_set (flat_map (codes_of maxLen) wordlist).
Proof.
  induction wordlist as [| word rest IH]; intros M; cbn [NewMetaphMap_loop].
  - exists M. split; [reflexivity |]. cbn [flat_map].
    rewrite list_to_set_nil, union_empty_r_L. reflexivity.
  - destruct (NewMetaphMap_body_dom maxLen M word) as (M1 & -> & H1).
    cbn [bind]. destruct (IH M1) as (M' & -> & H').
    exists M'. split; [reflexivity |].
    rewrite H', H1. cbn [flat_map].
    rewrite list_to_set_app_L, (assoc_L (∪)). reflexivity.
Qed.

Lemma NewMetaphMap_dom (wordlist : list string) (maxLen : Z) (idx : MetaphMap) :
  NewMetaphMap wordlist maxLen = Ok idx ->
  dom (mapper idx) = list_to_set (flat_map (codes_of maxLen) wordlist).
Proof.
  unfold NewMetaphMap.
  destruct (NewMetaphMap_loop_dom maxLen wordlist ∅) as (M' & -> & H).
  cbn [bind]. intros [= <-]. cbn [mapper].
  rewrite H, dom_empty_L, union_empty_l_L. reflexivity.
Qed.

Lemma codes_of_length (maxLen : Z) (word : string) :
  (List.length (codes_of maxLen word) <= 2)%nat.
Proof.
  unfold codes_of. destruct (DoubleMetaphone word maxLen) as [[m m2] | |];
    [| simpl; lia | simpl; lia].
  destruct (0 <? len m), (0 <? len m2); simpl; lia.
Qed.

Lemma flat_map_codes_length (maxLen : Z) (wordlist : list string) :
  (List.length (flat_map (codes_of maxLen) wordlist)
   <= 2 * List.length wordlist)%nat.
Proof.
  induction wordlist as [| w wl IH]; [simpl; lia |].
  cbn [flat_map]. rewrite length_app. pose proof (codes_of_length maxLen w).
  simpl List.length. lia.
Qed.

Lemma size_list_to_set_le (l : list string) :
  (size (list_to_set l : gset string) <= List.length l)%nat.
Proof.
  induction l as [| x l IH]; [rewrite list_to_set_nil, size_empty; lia |].
  rewrite list_to_set_cons. simpl List.length.
  pose proof (size_union_alt {[x]} (list_to_set l : gset string)) as Hu.
  pose proof (subseteq_size (list_to_set l ∖ {[x]}) (list_to_set l : gset string)
                (subseteq_difference_l _ _ _ (reflexivity _))) as Hs.
  rewrite Hu, size_singleton. lia.
Qed.

(** X6. [Len] is the number of distinct non-empty codes that the words of
    the list produce, however many words share a code; it is at most twice
    the number of words, and 0 for the empty list. *)
Theorem Len_counts_codes (wordlist : list string) (maxLen : Z) :
  exists idx,
    NewMetaphMap wordlist maxLen = Ok idx
    /\ Len idx
       = Z.of_nat (size (list_to_set (flat_map (codes_of maxLen) wordlist)
                         : gset string))
    /\ (forall c, c ∈ dom (mapper idx)
                  <-> exists w, w ∈ wordlist /\ has_code maxLen w c)
    /\ 0 <= Len idx <= 2 * Z.of_nat (List.length wordlist).
Proof.
  destruct (NewMetaphMap_spec wordlist maxLen) as (idx & Hidx & _ & _).
  pose proof (NewMetaphMap_dom _ _ _ Hidx) as Hdom.
  exists idx. split; [exact Hidx |].
  assert (Hlen : Len idx
                 = Z.of_nat (size (list_to_set
                                     (flat_map (codes_of maxLen) wordlist)
                                   : gset string))).
  { unfold Len. rewrite <- Hdom, size_dom. reflexivity. }
  split; [exact Hlen |]. split.
  - intros c. rewrite Hdom, elem_of_list_to_set, list_elem_of_In, in_flat_map.
    split; intros (w & Hw & Hc); exists w.
    + split; [apply list_elem_of_In, Hw |].
      apply elem_of_codes_of, list_elem_of_In, Hc.
    + split; [apply list_elem_of_In, Hw |].
      apply list_elem_of_In, elem_of_codes_of, Hc.
  - rewrite Hlen.
    pose proof (size_list_to_set_le (flat_map (codes_of maxLen) wordlist)).
    pose proof (flat_map_codes_length maxLen wordlist). lia.
Qed.

Lemma MatchWord_members (wordlist : list string) (maxLen : Z) (w : string) :
  exists idx out,
    NewMetaphMap wordlist maxLen = Ok idx
    /\ MatchWord idx w = Ok out
    /\ NoDup out
    /\ forall x, x ∈ out <-> x ∈ wordlist /\ sounds_like maxLen x w.
Proof.
  destruct (NewMetaphMap_spec wordlist maxLen) as (idx & Hidx & Hmax & Hbucket).
  destruct (DoubleMetaphone_returns w maxLen) as ([m m2] & Hdm & _).
  destruct (MatchWord_spec idx w m m2) as (out & Hout & Hnd & Hin);
    [rewrite Hmax; exact Hdm |].
  exists idx, out. repeat (split; [assumption |]).
  intros x. rewrite Hin, !Hbucket, !elem_of_bucket. unfold sounds_like. split.
  - intros [[Hne [Hx Hc]] | [Hne [Hx Hc]]]; (split; [exact Hx |]).
    + exists m. split; [exact Hc |]. exists m, m2. auto.
    + exists m2. split; [exact Hc |]. exists m, m2. auto.
  - intros (Hx & c & Hc & (m' & m2' & Hdm' & Hne & Hor)).
    rewrite Hdm in Hdm'. injection Hdm' as <- <-.
    destruct Hor as [-> | ->]; [left | right]; auto.
Qed.

(** X7. [MatchWord] returns, each once, exactly the words of the list that
    have a non-empty code in common with the query: never a word that is
    not in the list, never more words than the list has, and nothing when
    no word sounds like the query (so nothing on the empty index). *)
Theorem MatchWord_exact (wordlist : list string) (maxLen : Z) (w : string) :
  exists idx out,
    NewMetaphMap wordlist maxLen = Ok idx
    /\ MatchWord idx w = Ok out
    /\ NoDup out
    /\ (forall x, x ∈ out <-> x ∈ wordlist /\ sounds_like maxLen x w)
    /\ (List.length out <= List.length wordlist)%nat
    /\ (out = [] <-> forall x, x ∈ wordlist -> ~ sounds_like maxLen x w).
Proof.
  destruct (MatchWord_members wordlist maxLen w)
    as (idx & out & Hidx & Hout & Hnd & Hin).
  exists idx, out. repeat (split; [assumption |]). split.
  - apply submseteq_length, NoDup_submseteq; [exact Hnd |].
    intros x Hx. apply Hin in Hx. tauto.
  - split.
    + intros -> x Hx Hs. apply (not_elem_of_nil x). apply Hin. auto.
    + intros Hnone. destruct out as [| x out]; [reflexivity |].
      exfalso. destruct (proj1 (Hin x) ltac:(left)) as [Hx Hs].
      exact (Hnone x Hx Hs).
Qed.

(** X8. Among the words of the list, sounding alike is mutual: [MatchWord]
    for [w] returns [v] exactly when [MatchWord] for [v] returns [w]. *)
Theorem MatchWord_symmetric (wordlist : list string) (maxLen : Z)
    (v w : string) :
  v ∈ wordlist -> w ∈ wordlist ->
  exists idx out_v out_w,
    NewMetaphMap wordlist maxLen = Ok idx
    /\ MatchWord idx v = Ok out_v
    /\ MatchWord idx w = Ok out_w
    /\ (v ∈ out_w <-> w ∈ out_v).
Proof.
  intros Hv Hw.
  destruct (MatchWord_members wordlist maxLen v)
    as (idx & out_v & Hidx & Hout_v & _ & Hin_v).
  destruct (MatchWord_members wordlist maxLen w)
    as (idx' & out_w & Hidx' & Hout_w & _ & Hin_w).
  rewrite Hidx in Hidx'. injection Hidx' as <-.
  exists idx, out_v, out_w. repeat (split; [assumption |]).
  rewrite Hin_v, Hin_w. unfold sounds_like.
  split; intros (_ & c & H1 & H2); (split; [assumption |]); exists c; auto.
Qed.

Lemma MatchWord_symmetric_witness :
  exists idx out_v out_w,
    NewMetaphMap ["smith"; "Schmidt"; "smythe"] 4 = Ok idx
    /\ MatchWord idx "Schmidt" = Ok out_v
    /\ MatchWord idx "smythe" = Ok out_w
    /\ ("Schmidt" ∈ out_w <-> "smythe" ∈ out_v).
Proof.
  apply (MatchWord_symmetric ["smith"; "Schmidt"; "smythe"] 4
           "Schmidt" "smythe");
    rewrite !elem_of_cons; auto.
Defined.

Lemma NewMetaphMap_loop_app (maxLen : Z) (a b : list string) :
  forall M,
    NewMetaphMap_loop maxLen M (a ++ b)
    = bind (NewMetaphMap_loop maxLen M a)
           (fun M1 => NewMetaphMap_loop maxLen M1 b).
Proof.
  induction a as [| w a IH]; intros M; cbn [app NewMetaphMap_loop bind];
    [reflexivity |].
  destruct (NewMetaphMap_body maxLen M w) as [M1 | |]; cbn [bind];
    [apply IH | reflexivity | reflexivity].
Qed.

(** X9. The index of two lists put end to end has, under every code, the
    bucket of the first list followed by the bucket of the second, and
    [MatchWord] on it returns what it returns on either index. *)
Theorem NewMetaphMap_app (a b : list string) (maxLen : Z) (w : string) :
  exists ia ib iab out_a out_b out_ab,
    NewMetaphMap a maxLen = Ok ia
    /\ NewMetaphMap b maxLen = Ok ib
    /\ NewMetaphMap (a ++ b) maxLen = Ok iab
    /\ (forall k, map_get (mapper iab) k
                  = map_get (mapper ia) k ++ map_get (mapper ib) k)
    /\ MatchWord ia w = Ok out_a
    /\ MatchWord ib w = Ok out_b
    /\ MatchWord iab w = Ok out_ab
    /\ (forall x, x ∈ out_ab <-> x ∈ out_a \/ x ∈ out_b).
Proof.
  destruct (NewMetaphMap_spec a maxLen) as (ia & Hia & _ & Ha).
  destruct (NewMetaphMap_spec b maxLen) as (ib & Hib & _ & Hb).
  destruct (NewMetaphMap_spec (a ++ b) maxLen) as (iab & Hiab & _ & Hab).
  destruct (MatchWord_members a maxLen w) as (ia' & out_a & Hia' & Hoa & _ & Hina).
  destruct (MatchWord_members b maxLen w) as (ib' & out_b & Hib' & Hob & _ & Hinb).
  destruct (MatchWord_members (a ++ b) maxLen w)
    as (iab' & out_ab & Hiab' & Hoab & _ & Hinab).
  rewrite Hia in Hia'. injection Hia' as <-.
  rewrite Hib in Hib'. injection Hib' as <-.
  rewrite Hiab in Hiab'. injection Hiab' as <-.
  exists ia, ib, iab, out_a, out_b, out_ab.
  repeat (split; [assumption |]). split.
  - intros k. rewrite Hab, Ha, Hb. apply flat_map_app.
  - repeat (split; [assumption |]).
    intros x. rewrite Hinab, Hina, Hinb, elem_of_app. tauto.
Qed.

Lemma DoubleMetaphone_code_text (word : string) (maxlength : Z) :
  forall m m2,
    DoubleMetaphone word maxlength = Ok (m, m2) ->
    code_text m = true /\ code_text m2 = true.
Proof.
  pose proof (effective_maxlength_pos maxlength) as Hpos.
  rewrite DoubleMetaphone_unfold. destruct (len word <? 1).
  - intros m m2 [= <- <-]. auto.
  - destruct (pass_grows (upper_padded word) (runes (upper_padded word))
                (len word) (effective_maxlength maxlength))
      as (fs & Hfs & Hp & Hs).
    unfold final_state. rewrite Hfs. cbn [bind].
    rewrite finish_cut by lia.
    intros m m2 [= <- <-].
    split; [apply code_text_cut, Hp |].
    destruct (alternate fs); [apply code_text_cut, Hs | reflexivity].
Qed.

(** X10. Every key of the index is a code: not empty, at most [maxLen]
    bytes long (4 when [maxLen < 1]) and written in the code alphabet; and
    every bucket that the map holds is non-empty and holds only words of
    the list that have its key as a code. *)
Theorem index_keys_and_buckets (wordlist : list string) (maxLen : Z) :
  exists idx,
    NewMetaphMap wordlist maxLen = Ok idx
    /\ forall k bucket,
         mapper idx !! k = Some bucket ->
         k <> "" /\ len k <= effective_maxlength maxLen
         /\ code_text k = true
         /\ bucket <> []
         /\ forall x, x ∈ bucket -> x ∈ wordlist /\ has_code maxLen x k.
Proof.
  destruct (NewMetaphMap_spec wordlist maxLen) as (idx & Hidx & _ & Hbucket).
  pose proof (NewMetaphMap_dom _ _ _ Hidx) as Hdom.
  exists idx. split; [exact Hidx |]. intros k bucket Hk.
  assert (Hkd : k ∈ dom (mapper idx)) by (apply elem_of_dom; eauto).
  rewrite Hdom, elem_of_list_to_set, list_elem_of_In, in_flat_map in Hkd.
  destruct Hkd as (w & Hw & Hc).
  apply list_elem_of_In in Hw. apply list_elem_of_In, elem_of_codes_of in Hc.
  assert (Hb : bucket = flat_map (appended maxLen k) wordlist).
  { rewrite <- Hbucket. unfold map_get. rewrite Hk. reflexivity. }
  destruct Hc as (m & m2 & Hdm & Hne & Hor).
  destruct (DoubleMetaphone_returns w maxLen) as ([m' m2'] & Hdm' & Hl1 & Hl2).
  destruct (DoubleMetaphone_code_text w maxLen m m2 Hdm) as [Hc1 Hc2].
  rewrite Hdm in Hdm'. injection Hdm' as <- <-.
  cbn [fst snd] in Hl1, Hl2.
  split; [exact Hne |]. split; [destruct Hor as [-> | ->]; assumption |].
  split; [destruct Hor as [-> | ->]; assumption |]. split.
  - intros ->. apply (not_elem_of_nil w). rewrite Hb. apply elem_of_bucket.
    split; [exact Hw |]. exists m, m2. auto.
  - intros x Hx. rewrite Hb in Hx. apply elem_of_bucket in Hx. exact Hx.
Qed.

Lemma NewMetaphMap_body_no_code (maxLen : Z) (M : gmap string (list string))
    (w : string) :
  DoubleMetaphone w maxLen = Ok ("", "") ->
  NewMetaphMap_body maxLen M w = Ok M.
Proof. intros H. unfold NewMetaphMap_body. rewrite H. reflexivity. Qed.

Lemma NewMetaphMap_loop_no_code (maxLen : Z) (w : string)
    (wl1 wl2 : list string) :
  DoubleMetaphone w maxLen = Ok ("", "") ->
  forall M,
    NewMetaphMap_loop maxLen M (wl1 ++ w :: wl2)
    = NewMetaphMap_loop maxLen M (wl1 ++ wl2).
Proof.
  intros H M. rewrite !NewMetaphMap_loop_app.
  destruct (NewMetaphMap_loop maxLen M wl1) as [M1 | |]; cbn [bind];
    [| reflexivity | reflexivity].
  cbn [NewMetaphMap_loop]. rewrite NewMetaphMap_body_no_code by exact H.
  reflexivity.
Qed.

(** X11. A word with no code leaves no trace: when both codes of [w] are
    empty (the empty word, or a word of digits and punctuation), the index
    of a list is the same with [w] in it, at any place, as without. *)
Theorem NewMetaphMap_skips_codeless (wl1 wl2 : list string) (w : string)
    (maxLen : Z) :
  DoubleMetaphone w maxLen = Ok ("", "") ->
  NewMetaphMap (wl1 ++ w :: wl2) maxLen = NewMetaphMap (wl1 ++ wl2) maxLen
  /\ total (NewMetaphMap (wl1 ++ wl2) maxLen).
Proof.
  intros H. split.
  - unfold NewMetaphMap. rewrite NewMetaphMap_loop_no_code by exact H.
    reflexivity.
  - destruct (NewMetaphMap_spec (wl1 ++ wl2) maxLen) as (idx & Hidx & _).
    exists idx. exact Hidx.
Qed.

Lemma NewMetaphMap_skips_codeless_witness :
  NewMetaphMap (["Thomas"] ++ "1984, 2001." :: ["Tomasz"]) 4
  = NewMetaphMap (["Thomas"] ++ ["Tomasz"]) 4
  /\ total (NewMetaphMap (["Thomas"] ++ ["Tomasz"]) 4).
Proof.
  apply (NewMetaphMap_skips_codeless ["Thomas"] ["Tomasz"] "1984, 2001." 4).
  vm_compute. reflexivity.
Defined.

Lemma appended_case (maxLen : Z) (k w w' : string) :
  DoubleMetaphone w' maxLen = DoubleMetaphone w maxLen ->
  forall f : string -> string, f w = w' ->
  appended maxLen k w' = map f (appended maxLen k w).
Proof.
  intros H f <-. unfold appended. rewrite H.
  destruct (DoubleMetaphone w maxLen) as [[m m2] | |]; [| reflexivity | reflexivity].
  destruct ((0 <? len m) && bool_decide (m = k)),
           ((0 <? len m2) && bool_decide (m2 = k)); reflexivity.
Qed.

Lemma flat_map_map_case (maxLen : Z) (k : string) (f : string -> string)
    (wl : list string) :
  (forall w, In w wl -> DoubleMetaphone (f w) maxLen = DoubleMetaphone w maxLen) ->
  flat_map (appended maxLen k) (map f wl)
  = map f (flat_map (appended maxLen k) wl).
Proof.
  induction wl as [| w wl IH]; intros H; [reflexivity |].
  cbn [map flat_map]. rewrite map_app. f_equal.
  - apply appended_case; [apply H; left; reflexivity | reflexivity].
  - apply IH. intros x Hx. apply H. right. exact Hx.
Qed.

Lemma DoubleMetaphone_ToUpper_text (w : string) (L : Z) :
  encoder_text w = true ->
  DoubleMetaphone (strings_ToUpper w) L = DoubleMetaphone w L.
Proof.
  intros Htext.
  destruct (len_case_text w Htext) as [Hlu _].
  destruct (ToUpper_case_text w Htext) as [Huu _].
  apply DoubleMetaphone_case_congruence; assumption.
Qed.

Lemma DoubleMetaphone_ToLower_text (w : string) (L : Z) :
  encoder_text w = true ->
  DoubleMetaphone (strings_ToLower w) L = DoubleMetaphone w L.
Proof.
  intros Htext.
  destruct (len_case_text w Htext) as [_ Hll].
  destruct (ToUpper_case_text w Htext) as [_ Hul].
  apply DoubleMetaphone_case_congruence; assumption.
Qed.



(** X13. The index keeps the words as they are spelled and ignores their
    case for the keys: for a list of words that are well-formed UTF-8 over
    ASCII and the letters C cedilla and N tilde, the index of the list in
    upper case has the same keys, and under each key the bucket of the
    list as written, put in upper case word by word. *)
Theorem NewMetaphMap_upper_case (wordlist : list string) (maxLen : Z) :
  List.Forall (fun w => encoder_text w = true) wordlist ->
  exists idx idx',
    NewMetaphMap wordlist maxLen = Ok idx
    /\ NewMetaphMap (map strings_ToUpper wordlist) maxLen = Ok idx'
    /\ dom (mapper idx') = dom (mapper idx)
    /\ Len idx' = Len idx
    /\ forall k, map_get (mapper idx') k
                 = map strings_ToUpper (map_get (mapper idx) k).
Proof.
  intros Htext. rewrite List.Forall_forall in Htext.
  destruct (NewMetaphMap_spec wordlist maxLen) as (idx & Hidx & _ & Hb).
  destruct (NewMetaphMap_spec (map strings_ToUpper wordlist) maxLen)
    as (idx' & Hidx' & _ & Hb').
  exists idx, idx'. refine (conj Hidx (conj Hidx' _)).
  assert (Hcodes : flat_map (codes_of maxLen) (map strings_ToUpper wordlist)
                   = flat_map (codes_of maxLen) wordlist).
  { clear - Htext. induction wordlist as [| w wl IH]; [reflexivity |].
    cbn [map flat_map]. rewrite IH by (intros x Hx; apply Htext; right; exact Hx).
    f_equal. unfold codes_of.
    rewrite DoubleMetaphone_ToUpper_text by (apply Htext; left; reflexivity).
    reflexivity. }
  assert (Hdom : dom (mapper idx') = dom (mapper idx)).
  { rewrite (NewMetaphMap_dom _ _ _ Hidx), (NewMetaphMap_dom _ _ _ Hidx').
    rewrite Hcodes. reflexivity. }
  refine (conj Hdom (conj _ _)).
  - unfold Len. rewrite <- !size_dom, Hdom. reflexivity.
  - intros k. rewrite Hb', Hb. apply flat_map_map_case.
    intros w Hw. apply DoubleMetaphone_ToUpper_text, Htext, Hw.
Qed.

Lemma NewMetaphMap_upper_case_witness :
  exists idx idx',
    NewMetaphMap ["Smith"; "schmidt"] 4 = Ok idx
    /\ NewMetaphMap (map strings_ToUpper ["Smith"; "schmidt"]) 4 = Ok idx'
    /\ dom (mapper idx') = dom (mapper idx)
    /\ Len idx' = Len idx
    /\ forall k, map_get (mapper idx') k
                 = map strings_ToUpper (map_get (mapper idx) k).
Proof.
  apply (NewMetaphMap_upper_case ["Smith"; "schmidt"] 4).
  repeat constructor.
Defined.

(** X14. [removeDups] returns every member of its argument once and
    nothing else, so never more elements than it was given; a list without
    repetitions comes back as a rearrangement of itself, and removing
    duplicates twice gives a rearrangement of removing them once. *)
Theorem removeDups_permutation (s : list string) :
  NoDup (removeDups s)
  /\ (forall x, x ∈ removeDups s <-> x ∈ s)
  /\ (List.length (removeDups s) <= List.length s)%nat
  /\ (NoDup s -> removeDups s ≡ₚ s)
  /\ removeDups (removeDups s) ≡ₚ removeDups s
  /\ (removeDups s = [] <-> s = []).
Proof.
  destruct (removeDups_spec s) as [Hnd Hin].
  assert (Hperm : forall t, NoDup t -> removeDups t ≡ₚ t).
  { intros t Ht. apply NoDup_Permutation; [apply removeDups_spec | exact Ht |].
    apply removeDups_spec. }
  refine (conj Hnd (conj Hin (conj _ (conj (Hperm s) (conj (Hperm _ Hnd) _))))).
  - apply submseteq_length, NoDup_submseteq; [exact Hnd |].
    intros x Hx. apply Hin, Hx.
  - split.
    + intros He. destruct s as [| x s]; [reflexivity |].
      exfalso. apply (not_elem_of_nil x). rewrite <- He. apply Hin. left.
    + intros ->. reflexivity.
Qed.

(** ** Word lists in files *)

Lemma go_slice_app_l {A : Type} (l1 l2 : list A) :
  go_slice (l1 ++ l2) 0 (Z.of_nat (List.length l1)) = Ok l1.
Proof.
  unfold go_slice. rewrite length_app.
  replace ((0 <=? 0) && (0 <=? Z.of_nat (List.length l1))
           && (Z.of_nat (List.length l1)
               <=? Z.of_nat (List.length l1 + List.length l2))) with true
    by (symmetry; rewrite !andb_true_iff, !Z.leb_le; lia).
  rewrite Z.sub_0_r, Nat2Z.id. change (Z.to_nat 0) with 0%nat.
  rewrite drop_0, take_app_length. reflexivity.
Qed.

Lemma go_slice_app_r {A : Type} (l1 l2 : list A) :
  go_slice (l1 ++ l2) (Z.of_nat (List.length l1))
           (Z.of_nat (List.length (l1 ++ l2))) = Ok l2.
Proof.
  unfold go_slice. rewrite length_app.
  replace ((0 <=? Z.of_nat (List.length l1))
           && (Z.of_nat (List.length l1)
               <=? Z.of_nat (List.length l1 + List.length l2))
           && (Z.of_nat (List.length l1 + List.length l2)
               <=? Z.of_nat (List.length l1 + List.length l2))) with true
    by (symmetry; rewrite !andb_true_iff, !Z.leb_le; lia).
  rewrite Nat2Z.id.
  replace (Z.to_nat (Z.of_nat (List.length l1 + List.length l2)
                     - Z.of_nat (List.length l1))) with (List.length l2) by lia.
  rewrite drop_app_length, firstn_all. reflexivity.
Qed.

Lemma len_bytes (s : string) : len s = Z.of_nat (List.length (bytes_of_string s)).
Proof. unfold len. rewrite length_bytes_of_string. reflexivity. Qed.

Lemma string_prefix_to_app (s t : string) :
  string_prefix_to (s +:+ t) (len s) = Ok s.
Proof.
  unfold string_prefix_to. rewrite bytes_of_string_app, len_bytes, go_slice_app_l.
  cbn [bind]. rewrite string_of_bytes_of_string. reflexivity.
Qed.

Lemma string_suffix_from_app (s t : string) :
  string_suffix_from (s +:+ t) (len s) = Ok t.
Proof.
  unfold string_suffix_from.
  rewrite (len_bytes (s +:+ t)), (len_bytes s), bytes_of_string_app, go_slice_app_r.
  cbn [bind]. rewrite string_of_bytes_of_string. reflexivity.
Qed.

Lemma string_split_at (s : string) (lo : Z) :
  0 <= lo <= len s ->
  exists p t, s = p +:+ t /\ len p = lo.
Proof.
  intros H.
  exists (string_of_bytes (firstn (Z.to_nat lo) (bytes_of_string s))),
         (string_of_bytes (skipn (Z.to_nat lo) (bytes_of_string s))).
  split.
  - rewrite <- string_of_bytes_app, firstn_skipn, string_of_bytes_of_string.
    reflexivity.
  - rewrite len_string_of_bytes, length_take. rewrite len_bytes in H. lia.
Qed.

Lemma strings_HasSuffix_spec (s suffix : string) :
  exists b, strings_HasSuffix s suffix = Ok b
            /\ (b = true <-> ends_with s suffix).
Proof.
  unfold strings_HasSuffix, ends_with.
  pose proof (len_nonneg suffix) as Hs.
  destruct (Z.leb_spec (len suffix) (len s)) as [Hle | Hlt].
  - destruct (string_split_at s (len s - len suffix)) as (p & t & -> & Hp);
      [lia |].
    rewrite <- Hp, string_suffix_from_app. cbn [bind].
    eexists. split; [reflexivity |]. rewrite String.eqb_eq. split.
    + intros ->. eauto.
    + intros (p' & He).
      rewrite len_append in Hp.
      assert (Hlen : len t = len suffix) by lia.
      apply (f_equal bytes_of_string) in He.
      rewrite !bytes_of_string_app in He.
      apply app_inj_2 in He as [_ He].
      * rewrite <- (string_of_bytes_of_string t),
                <- (string_of_bytes_of_string suffix), He. reflexivity.
      * rewrite !len_bytes in Hlen. lia.
  - exists false. split; [reflexivity |]. split; [discriminate |].
    intros (p & ->). rewrite len_append in Hlt.
    pose proof (len_nonneg p). lia.
Qed.

Lemma len_String (a : ascii) (s : string) : len (String a s) = len s + 1.
Proof. unfold len. cbn [String.length]. lia. Qed.

Lemma strings_IndexByte_one_line (w : string) :
  one_line w = true -> strings_IndexByte w newline = -1.
Proof.
  induction w as [| a w IH]; [reflexivity |].
  cbn [one_line strings_IndexByte]. intros H.
  apply andb_true_iff in H as [Ha Hw]. apply negb_true_iff in Ha.
  rewrite Ha, (IH Hw). reflexivity.
Qed.

Lemma strings_IndexByte_first (w t : string) :
  one_line w = true ->
  strings_IndexByte (w +:+ String newline t) newline = len w.
Proof.
  induction w as [| a w IH]; intros H.
  - change ("" +:+ String newline t) with (String newline t).
    cbn [strings_IndexByte]. rewrite Ascii.eqb_refl. reflexivity.
  - cbn [one_line] in H. apply andb_true_iff in H as [Ha Hw].
    apply negb_true_iff in Ha.
    rewrite append_cons. cbn [strings_IndexByte]. rewrite Ha, (IH Hw).
    rewrite len_String. pose proof (len_nonneg w) as Hn.
    destruct (Z.ltb_spec (len w) 0); [lia | reflexivity].
Qed.

Lemma strings_Count_range (s : string) (c : ascii) :
  0 <= strings_Count s c <= len s.
Proof.
  induction s as [| a s IH]; [cbn; unfold len; cbn; lia |].
  cbn [strings_Count]. rewrite len_String. destruct (Ascii.eqb a c); lia.
Qed.

Lemma strings_Count_one_line (w : string) :
  one_line w = true -> strings_Count w newline = 0.
Proof.
  induction w as [| a w IH]; [reflexivity |].
  cbn [one_line strings_Count]. intros H.
  apply andb_true_iff in H as [Ha Hw]. apply negb_true_iff in Ha.
  rewrite Ha, (IH Hw). reflexivity.
Qed.

Lemma strings_Count_app (s t : string) (c : ascii) :
  strings_Count (s +:+ t) c = strings_Count s c + strings_Count t c.
Proof.
  induction s as [| a s IH]; [reflexivity |].
  rewrite append_cons. cbn [strings_Count]. rewrite IH. lia.
Qed.

Lemma strings_Count_join (ws : list string) :
  List.Forall (fun w => one_line w = true) ws -> ws <> [] ->
  strings_Count (join_lines ws) newline = Z.of_nat (List.length ws) - 1.
Proof.
  induction ws as [| w ws IH]; intros Hall Hne; [congruence |].
  inversion Hall as [| ? ? Hw Hws]; subst.
  destruct ws as [| w' ws].
  - cbn [join_lines List.length]. rewrite strings_Count_one_line by exact Hw. lia.
  - change (join_lines (w :: w' :: ws))
      with (w +:+ String newline (join_lines (w' :: ws))).
    rewrite strings_Count_app, strings_Count_one_line by exact Hw.
    cbn [strings_Count]. rewrite Ascii.eqb_refl, IH by (auto; discriminate).
    cbn [List.length]. lia.
Qed.

Lemma genSplit_loop_join (ws : list string) :
  List.Forall (fun w => one_line w = true) ws -> ws <> [] ->
  forall n a, (List.length ws - 1 <= n)%nat ->
    genSplit_loop newline n (join_lines ws) a = Ok (a ++ ws).
Proof.
  induction ws as [| w ws IH]; intros Hall Hne n a Hn; [congruence |].
  inversion Hall as [| ? ? Hw Hws]; subst.
  destruct ws as [| w' ws].
  - cbn [join_lines]. destruct n as [| n]; cbn [genSplit_loop]; [reflexivity |].
    rewrite strings_IndexByte_one_line by exact Hw. reflexivity.
  - change (join_lines (w :: w' :: ws))
      with (w +:+ String newline (join_lines (w' :: ws))).
    destruct n as [| n]; [cbn [List.length] in Hn; lia |].
    cbn [genSplit_loop]. cbv zeta.
    rewrite strings_IndexByte_first by exact Hw.
    pose proof (len_nonneg w) as Hlen.
    destruct (Z.ltb_spec (len w) 0); [lia |].
    rewrite string_prefix_to_app. cbn [bind].
    replace (w +:+ String newline (join_lines (w' :: ws)))
      with ((w +:+ String newline "") +:+ join_lines (w' :: ws)).
    2:{ clear. induction w as [| c w IHw]; [reflexivity |].
        rewrite !append_cons, IHw. reflexivity. }
    replace (len w + 1) with (len (w +:+ String newline ""))
      by (rewrite len_append, len_String; unfold len; cbn; lia).
    rewrite string_suffix_from_app. cbn [bind].
    rewrite IH by (auto; try discriminate; cbn [List.length] in *; lia).
    rewrite <- app_assoc. reflexivity.
Qed.

Lemma strings_Split_join (ws : list string) :
  List.Forall (fun w => one_line w = true) ws -> ws <> [] ->
  strings_Split (join_lines ws) newline = Ok ws.
Proof.
  intros Hall Hne. unfold strings_Split. cbv zeta.
  pose proof (strings_Count_range (join_lines ws) newline) as Hr.
  rewrite strings_Count_join in * by assumption.
  destruct (Z.ltb_spec (len (join_lines ws) + 1)
                       (Z.of_nat (List.length ws) - 1 + 1)); [lia |].
  apply (genSplit_loop_join ws Hall Hne _ []). lia.
Qed.

Lemma lines_exist (s : string) :
  exists ws, ws <> [] /\ List.Forall (fun w => one_line w = true) ws
             /\ join_lines ws = s.
Proof.
  induction s as [| a s (ws & Hne & Hall & Hj)].
  - exists [""]. split; [discriminate |]. split; [repeat constructor | reflexivity].
  - destruct ws as [| w ws]; [congruence |].
    destruct (Ascii.eqb a newline) eqn:Ha.
    + apply Ascii.eqb_eq in Ha. subst a.
      exists ("" :: w :: ws). split; [discriminate |].
      split; [constructor; [reflexivity | exact Hall] |].
      change (join_lines ("" :: w :: ws))
        with ("" +:+ String newline (join_lines (w :: ws))).
      rewrite Hj. reflexivity.
    + inversion Hall as [| ? ? Hw Hws]; subst.
      exists (String a w :: ws). split; [discriminate |]. split.
      * constructor; [| exact Hws]. cbn [one_line]. rewrite Ha, Hw. reflexivity.
      * destruct ws as [| w' ws]; [reflexivity |].
        change (join_lines (String a w :: w' :: ws))
          with (String a w +:+ String newline (join_lines (w' :: ws))).
        rewrite append_cons. reflexivity.
Qed.

Lemma strings_Split_lines (s : string) :
  exists ws, strings_Split s newline = Ok ws
             /\ ws <> [] /\ List.Forall (fun w => one_line w = true) ws
             /\ join_lines ws = s.
Proof.
  destruct (lines_exist s) as (ws & Hne & Hall & Hj).
  exists ws. rewrite <- Hj at 1. rewrite strings_Split_join by assumption.
  auto.
Qed.

Lemma join_lines_snoc (ws : list string) (w : string) :
  ws <> [] ->
  join_lines (ws ++ [w]) = join_lines ws +:+ String newline w.
Proof.
  induction ws as [| v ws IH]; intros Hne; [congruence |].
  destruct ws as [| v' ws]; [reflexivity |].
  change (join_lines ((v :: v' :: ws) ++ [w]))
    with (v +:+ String newline (join_lines ((v' :: ws) ++ [w]))).
  rewrite IH by discriminate.
  change (join_lines (v :: v' :: ws))
    with (v +:+ String newline (join_lines (v' :: ws))).
  generalize (join_lines (v' :: ws)). intros u. clear.
  induction v as [| c v IHv].
  - reflexivity.
  - rewrite !append_cons, IHv. reflexivity.
Qed.

Lemma NewMetaphMap_loop_blank (maxLen : Z) (tl : list string) :
  List.Forall (fun w => w = "") tl ->
  forall M, NewMetaphMap_loop maxLen M tl = Ok M.
Proof.
  induction 1 as [| w tl -> _ IH]; intros M; [reflexivity |].
  cbn [NewMetaphMap_loop].
  rewrite NewMetaphMap_body_no_code by reflexivity. cbn [bind]. apply IH.
Qed.

Lemma NewMetaphMap_blank_tail (maxLen : Z) (ws tl : list string) :
  List.Forall (fun w => w = "") tl ->
  NewMetaphMap (ws ++ tl) maxLen = NewMetaphMap ws maxLen.
Proof.
  intros H. unfold NewMetaphMap. rewrite NewMetaphMap_loop_app.
  destruct (NewMetaphMap_loop maxLen ∅ ws) as [M | |]; cbn [bind];
    [| reflexivity | reflexivity].
  rewrite NewMetaphMap_loop_blank by exact H. reflexivity.
Qed.

Lemma file_text_result {File Reader : Type} (os_Open : string -> outcome File)
    (file_reader : File -> Reader)
    (gzip_NewReader : Reader -> outcome Reader)
    (io_ReadAll : Reader -> outcome string) (fileName b : string) (maxLen : Z) :
  file_text os_Open file_reader gzip_NewReader io_ReadAll fileName b ->
  NewMetaphMapFromFile os_Open file_reader gzip_NewReader io_ReadAll
    fileName maxLen
  = (lines <- strings_Split b newline ;;
     metaph <- NewMetaphMap lines maxLen ;;
     Ok (Some metaph, None)).
Proof.
  intros (fp & r & Hopen & Hgz & Hplain & Hread).
  unfold NewMetaphMapFromFile. rewrite Hopen.
  destruct (strings_HasSuffix_spec fileName ".gz") as (gz & -> & Hb).
  cbn [bind]. destruct gz.
  - rewrite Hgz by (apply Hb; reflexivity). rewrite Hread. reflexivity.
  - rewrite <- Hplain by (intros He; apply Hb in He; discriminate).
    rewrite Hread. reflexivity.
Qed.
(** X15. [NewMetaphMapFromFile] never panics and returns exactly one of a
    map and an error.  It returns the map when the file opens, the gzip
    reader is made in case the name ends with ".gz", and the text is read:
    the map is then the index of the fields between the newlines of the
    text, which joined by newlines give the text back.  In every other
    case it returns an error and no map, and the error text begins with
    "trying to ". *)
Theorem NewMetaphMapFromFile_outcome {File Reader : Type}
    (os_Open : string -> outcome File) (file_reader : File -> Reader)
    (gzip_NewReader : Reader -> outcome Reader)
    (io_ReadAll : Reader -> outcome string) (fileName : string) (maxLen : Z) :
  (exists b lines idx,
      file_text os_Open file_reader gzip_NewReader io_ReadAll fileName b
      /\ lines <> [] /\ join_lines lines = b
      /\ List.Forall (fun w => one_line w = true) lines
      /\ NewMetaphMap lines maxLen = Ok idx
      /\ NewMetaphMapFromFile os_Open file_reader gzip_NewReader io_ReadAll
           fileName maxLen = Ok (Some idx, None))
  \/ (exists e,
      (forall b, ~ file_text os_Open file_reader gzip_NewReader io_ReadAll
                   fileName b)
      /\ NewMetaphMapFromFile os_Open file_reader gzip_NewReader io_ReadAll
           fileName maxLen = Ok (None, Some ("trying to " +:+ e))).
Proof.
  destruct (strings_HasSuffix_spec fileName ".gz") as (gz & Hgz & Hb).
  unfold NewMetaphMapFromFile.
  destruct (os_Open fileName) as [fp | err] eqn:Hopen.
  - rewrite Hgz. cbn [bind].
    destruct (if gz then gzip_NewReader (file_reader fp)
              else Value (file_reader fp)) as [r | err] eqn:Hr.
    + destruct (io_ReadAll r) as [b | err] eqn:Hread.
      * left. destruct (strings_Split_lines b) as (ws & -> & Hne & Hall & Hj).
        destruct (NewMetaphMap_spec ws maxLen) as (idx & Hidx & _).
        cbn [bind]. rewrite Hidx. cbn [bind].
        exists b, ws, idx. refine (conj _ (conj Hne (conj Hj (conj Hall (conj Hidx eq_refl))))).
        exists fp, r. split; [exact Hopen |]. split; [| split; [| exact Hread]].
        -- intros He. apply Hb in He. subst gz. exact Hr.
        -- intros He. destruct gz; [exfalso; apply He, Hb; reflexivity |].
           injection Hr as <-. reflexivity.
      * right. eexists. split; [| reflexivity].
        intros b (fp' & r' & Hopen' & Hgz' & Hplain' & Hread').
        rewrite Hopen in Hopen'. injection Hopen' as <-.
        assert (r' = r) as ->.
        { destruct gz.
          - rewrite Hgz' in Hr by (apply Hb; reflexivity). injection Hr as ->.
            reflexivity.
          - injection Hr as <-. apply Hplain'. intros He. apply Hb in He.
            discriminate. }
        rewrite Hread in Hread'. discriminate.
    + right. eexists. split; [| reflexivity].
      intros b (fp' & r' & Hopen' & Hgz' & Hplain' & Hread').
      rewrite Hopen in Hopen'. injection Hopen' as <-.
      destruct gz; [| discriminate].
      rewrite Hgz' in Hr by (apply Hb; reflexivity). discriminate.
  - right. eexists. split; [| reflexivity].
    intros b (fp' & r' & Hopen' & _). rewrite Hopen in Hopen'. discriminate.
Qed.

(** X16. A word list file gives the index of its words: when the text of
    the file is the words of [ws], none with a newline in it, with a
    newline between two words and with or without a newline behind the
    last, [NewMetaphMapFromFile] returns the map that [NewMetaphMap]
    returns for [ws], and no error.  Empty lines count as empty words and
    leave no trace. *)
Theorem NewMetaphMapFromFile_word_list {File Reader : Type}
    (os_Open : string -> outcome File) (file_reader : File -> Reader)
    (gzip_NewReader : Reader -> outcome Reader)
    (io_ReadAll : Reader -> outcome string) (fileName : string) (maxLen : Z)
    (ws : list string) :
  List.Forall (fun w => one_line w = true) ws ->
  file_text os_Open file_reader gzip_NewReader io_ReadAll fileName
    (join_lines ws)
  \/ file_text os_Open file_reader gzip_NewReader io_ReadAll fileName
       (join_lines ws +:+ String newline "") ->
  exists idx,
    NewMetaphMap ws maxLen = Ok idx
    /\ NewMetaphMapFromFile os_Open file_reader gzip_NewReader io_ReadAll
         fileName maxLen = Ok (Some idx, None).
Proof.
  intros Hall Hfile.
  destruct (NewMetaphMap_spec ws maxLen) as (idx & Hidx & _).
  exists idx. split; [exact Hidx |].
  assert (Hsplit : forall b,
             b = join_lines ws \/ b = join_lines ws +:+ String newline "" ->
             exists tl, List.Forall (fun w => w = "") tl
                        /\ strings_Split b newline = Ok (ws ++ tl)).
  { intros b Hbs. destruct ws as [| w ws'].
    - destruct Hbs as [-> | ->].
      + exists [""]. split; [repeat constructor | reflexivity].
      + exists [""; ""]. split; [repeat constructor | reflexivity].
    - destruct Hbs as [-> | ->].
      + exists []. split; [constructor |]. rewrite app_nil_r.
        apply strings_Split_join; [exact Hall | discriminate].
      + exists [""]. split; [repeat constructor |].
        rewrite <- join_lines_snoc by discriminate.
        apply strings_Split_join; [| destruct ws'; discriminate].
        apply List.Forall_app. split; [exact Hall | repeat constructor]. }
  destruct Hfile as [Hfile | Hfile];
    rewrite (file_text_result _ _ _ _ _ _ maxLen Hfile);
    [destruct (Hsplit (join_lines ws)) as (tl & Htl & ->); [left; reflexivity |]
    | destruct (Hsplit (join_lines ws +:+ String newline ""))
        as (tl & Htl & ->); [right; reflexivity |]];
    cbn [bind]; rewrite NewMetaphMap_blank_tail by exact Htl;
    rewrite Hidx; reflexivity.
Qed.

Lemma NewMetaphMapFromFile_word_list_witness :
  exists idx,
    NewMetaphMap ["Smith"; ""; "Schmidt"] 4 = Ok idx
    /\ NewMetaphMapFromFile
         (fun name : string =>
            if String.eqb name "words.txt"
            then Value (join_lines ["Smith"; ""; "Schmidt"]
                        +:+ String newline "")
            else Failed "no such file")
         (fun fp : string => fp)
         (fun r : string => Failed "gzip: invalid header")
         (fun r : string => Value r)
         "words.txt" 4 = Ok (Some idx, None).
Proof.
  apply (NewMetaphMapFromFile_word_list
           (fun name : string =>
              if String.eqb name "words.txt"
              then Value (join_lines ["Smith"; ""; "Schmidt"]
                          +:+ String newline "")
              else Failed "no such file")
           (fun fp : string => fp)
           (fun r : string => Failed "gzip: invalid header")
           (fun r : string => Value r)
           "words.txt" 4 ["Smith"; ""; "Schmidt"]).
  - repeat constructor.
  - right. eexists _, _. split; [reflexivity |]. split; [| split; [| reflexivity]].
    + intros He. exfalso.
      destruct (strings_HasSuffix_spec "words.txt" ".gz") as (b & Hb & Hiff).
      apply Hiff in He. subst b. vm_compute in Hb. discriminate Hb.
    + intros _. reflexivity.
Defined.

Lemma prologue_X (rest : list rune) (st : state) :
  prologue (rn "X" :: rest) st
  = Ok (advance 1 (write_secondary "S" (write_primary "S" st))).
Proof.
  unfold prologue.
  assert (Hsa : StringAt (rn "X" :: rest) 0 2 ["GN"; "KN"; "PN"; "WR"; "PS"]
                = Ok false).
  { unfold StringAt.
    destruct ((0 <? 0) || (0 + 2 >=? rwordLen (rn "X" :: rest))) eqn:Hg;
      [reflexivity |].
    apply orb_false_iff in Hg as [_ Hg]. unfold rwordLen in *.
    destruct (Z.geb_spec (0 + 2) (Z.of_nat (List.length (rn "X" :: rest))));
      [discriminate |].
    rewrite go_slice_in_range by lia. cbn [bind].
    change (Z.to_nat (0 + 2 - 0)) with 2%nat.
    change (Z.to_nat 0) with 0%nat. cbn [skipn firstn existsb].
    rewrite !string_of_runes_head_neq by (vm_compute; first [reflexivity | discriminate]).
    reflexivity. }
  rewrite Hsa. cbn [bind]. unfold GetAt_is. rewrite GetAt_head. cbn [bind].
  rewrite Z.eqb_refl, MetaphAdd_one. reflexivity.
Qed.

(** X17. A word whose first letter is X (after upper-casing) is coded as
    if it began with S: its primary code begins with ["S"], and its
    secondary code is empty or begins with ["S"]. *)
Theorem initial_X_is_S (word : string) (maxlength : Z) (rs : list rune) :
  runes (strings_ToUpper word) = rn "X" :: rs ->
  exists p metaph2,
    DoubleMetaphone word maxlength = Ok (String "S" p, metaph2)
    /\ (metaph2 = "" \/ exists s, metaph2 = String "S" s).
Proof.
  intros Hrunes.
  pose proof (effective_maxlength_pos maxlength) as Hpos.
  assert (Hlen : 1 <= len word).
  { destruct word as [| c w]; [discriminate Hrunes |].
    unfold len. simpl String.length. lia. }
  rewrite DoubleMetaphone_unfold.
  destruct (Z.ltb_spec (len word) 1); [lia |].
  unfold final_state, pass, upper_padded.
  rewrite runes_app_pad, Hrunes. cbn [app].
  rewrite prologue_X. cbn [bind].
  match goal with
  | |- context [main_loop ?w ?rw ?n ?m ?fuel ?st] =>
      destruct (main_loop_grows w rw n m fuel st) as (fs & Hfs & Hp & Hs & _);
      [cbn [current advance write_primary write_secondary initial_state]; lia |];
      rewrite Hfs
  end.
  cbn [bind]. rewrite finish_cut by lia.
  cbn [primary secondary advance write_primary write_secondary initial_state]
    in Hp, Hs.
  destruct Hp as (t & -> & _). destruct Hs as (u & -> & _).
  change ("" +:+ "S") with "S". rewrite !append_cons.
  destruct (cut_head (effective_maxlength maxlength) "S" ("" +:+ t) Hpos)
    as [p ->].
  destruct (cut_head (effective_maxlength maxlength) "S" ("" +:+ u) Hpos)
    as [s ->].
  exists p. eexists. split; [reflexivity |].
  destruct (alternate fs); eauto.
Qed.

Lemma initial_X_is_S_witness :
  exists p metaph2,
    DoubleMetaphone "xavier" 4 = Ok (String "S" p, metaph2)
    /\ (metaph2 = "" \/ exists s, metaph2 = String "S" s).
Proof.
  apply (initial_X_is_S "xavier" 4 [65; 86; 73; 69; 82]). reflexivity.
Defined.

Lemma prefix_of_longer (a b : string) : forall s,
  String.prefix (a +:+ b) s = true -> String.prefix a s = true.
Proof.
  induction a as [| c a IH]; intros s H; [destruct s; reflexivity |].
  rewrite append_cons in H. destruct s as [| d s]; [discriminate H |].
  cbn [String.prefix] in *. destruct (ascii_dec c d); [apply IH, H | discriminate H].
Qed.

Lemma strings_Contains_append (s a b : string) :
  strings_Contains s (a +:+ b) = true -> strings_Contains s a = true.
Proof.
  induction s as [| d s IH]; cbn [strings_Contains]; intros H;
    apply orb_true_iff in H as [H | H]; apply orb_true_iff.
  - left. exact (prefix_of_longer a b _ H).
  - discriminate H.
  - left. exact (prefix_of_longer a b _ H).
  - right. apply IH, H.
Qed.

(** X18. [SlavoGermanic] looks for "W", "K" and "CZ" only; the fourth test
    of the original algorithm, for "WITZ", would change nothing: a word in
    which "WITZ" is found is Slavo-Germanic already, so the answer is that
    of the four tests together.  The same holds for every text that begins
    with "W", "K" or "CZ". *)
Theorem SlavoGermanic_WITZ (word : string) :
  SlavoGermanic word
  = Ok (Found word "W" || Found word "K" || Found word "CZ"
        || Found word "WITZ")
  /\ forall t : string,
       Found word ("W" +:+ t) = true \/ Found word ("K" +:+ t) = true
       \/ Found word ("CZ" +:+ t) = true ->
       SlavoGermanic word = Ok true.
Proof.
  assert (Hall : forall t : string,
             Found word ("W" +:+ t) = true \/ Found word ("K" +:+ t) = true
             \/ Found word ("CZ" +:+ t) = true ->
             SlavoGermanic word = Ok true).
  { unfold SlavoGermanic, Found, orM. cbn [bind].
    intros t [H | [H | H]]; apply strings_Contains_append in H; rewrite H.
    - reflexivity.
    - destruct (strings_Contains word "W"); reflexivity.
    - destruct (strings_Contains word "W"), (strings_Contains word "K");
        reflexivity. }
  split; [| exact Hall].
  destruct (Found word "WITZ") eqn:Hw.
  - rewrite (Hall "ITZ") by (left; exact Hw).
    rewrite !orb_true_r. reflexivity.
  - rewrite orb_false_r. unfold SlavoGermanic, orM. cbn [bind].
    destruct (Found word "W"), (Found word "K"); reflexivity.
Qed.

(** ** Divergent emissions *)

Lemma wrote_nil (a : string) : wrote a a "".
Proof. unfold wrote. rewrite append_nil_r. reflexivity. Qed.

Lemma wrote_app (a a' p t : string) :
  wrote a a' p -> wrote a (a' +:+ t) (p +:+ t).
Proof. unfold wrote. intros ->. apply append_assoc. Qed.

Lemma wrote_trans (a b c p q : string) :
  wrote a b p -> wrote b c q -> wrote a c (p +:+ q).
Proof. unfold wrote. intros -> ->. apply append_assoc. Qed.

Lemma wrote_inj (a b p q : string) : wrote a b p -> wrote a b q -> p = q.
Proof. unfold wrote. intros -> H. exact (append_inv_l _ _ _ H). Qed.

Lemma agrees_not_diverges (st st' : state) :
  agrees st st' -> ~ diverges st st'.
Proof.
  intros (p & Hp & Hs) (p' & s' & Hp' & Hs' & Hne). apply Hne.
  rewrite <- (wrote_inj _ _ _ _ Hp Hp'). exact (wrote_inj _ _ _ _ Hs Hs').
Qed.

Ltac blank_tests :=
  repeat match goal with
    | |- context [negb (ascii_to_Z ?c =? blank)] =>
        let v := eval vm_compute in (negb (ascii_to_Z c =? blank)) in
        change (negb (ascii_to_Z c =? blank)) with v
    end;
  cbn [current primary secondary alternate advance write_primary
       write_secondary set_alternate].

Ltac written := repeat first [ apply wrote_nil | apply wrote_app ].

Ltac echoes_tac :=
  cbv beta zeta; unfold echoes, agrees; blank_tests;
  split; [reflexivity |]; eexists; split; written.

Ltac speaks_tac :=
  cbv beta zeta; unfold speaks; blank_tests;
  first
    [ left; echoes_tac
    | right; unfold diverges; blank_tests; split; [reflexivity |];
      eexists _, _; refine (conj _ (conj _ _));
      [ written | written | vm_compute; discriminate ] ].

Ltac wp_speaks := repeat wp_step; speaks_tac.

Section RulesSpeak.

Variable word : string.
Variable rword : list rune.
Variable wlen : Z.

Lemma case_vowel_speaks st : returns (case_vowel st) (speaks st).
Proof. unfold case_vowel. wp_speaks. Qed.

Lemma case_W_speaks st : returns (case_W rword wlen st) (speaks st).
Proof. unfold case_W. wp_speaks. Qed.

Lemma case_B_speaks st : returns (case_B rword st) (speaks st).
Proof. unfold case_B. wp_speaks. Qed.

Lemma case_C_cedilla_speaks st : returns (case_C_cedilla st) (speaks st).
Proof. unfold case_C_cedilla. wp_speaks. Qed.

Lemma case_C_CH_speaks st : returns (case_C_CH rword st) (speaks st).
Proof. unfold case_C_CH. wp_speaks. Qed.

Lemma case_C_CC_speaks st : returns (case_C_CC rword st) (speaks st).
Proof. unfold case_C_CC. wp_speaks. Qed.

Lemma case_C_speaks st : returns (case_C rword st) (speaks st).
Proof.
  unfold case_C.
  repeat first [ apply case_C_CH_speaks | apply case_C_CC_speaks | wp_step ]; speaks_tac.
Qed.

Lemma case_D_speaks st : returns (case_D rword st) (speaks st).
Proof. unfold case_D. wp_speaks. Qed.

Lemma case_F_speaks st : returns (case_F rword st) (speaks st).
Proof. unfold case_F. wp_speaks. Qed.

Lemma case_G_GH_speaks st : returns (case_G_GH rword st) (speaks st).
Proof. unfold case_G_GH. wp_speaks. Qed.

Lemma case_G_GN_speaks st : returns (case_G_GN word rword st) (speaks st).
Proof. unfold case_G_GN. wp_speaks. Qed.

Lemma case_G_speaks st : returns (case_G word rword st) (speaks st).
Proof.
  unfold case_G.
  repeat first [ apply case_G_GH_speaks | apply case_G_GN_speaks | wp_step ]; speaks_tac.
Qed.

Lemma case_H_speaks st : returns (case_H rword st) (speaks st).
Proof. unfold case_H. wp_speaks. Qed.

Lemma case_J_speaks st : returns (case_J word rword wlen st) (speaks st).
Proof. unfold case_J. wp_speaks. Qed.

Lemma case_K_speaks st : returns (case_K rword st) (speaks st).
Proof. unfold case_K. wp_speaks. Qed.

Lemma case_L_speaks st : returns (case_L rword wlen st) (speaks st).
Proof. unfold case_L. wp_speaks. Qed.

Lemma case_M_speaks st : returns (case_M rword wlen st) (speaks st).
Proof. unfold case_M. wp_speaks. Qed.

Lemma case_N_speaks st : returns (case_N rword st) (speaks st).
Proof. unfold case_N. wp_speaks. Qed.

Lemma case_N_tilde_speaks st : returns (case_N_tilde st) (speaks st).
Proof. unfold case_N_tilde. wp_speaks. Qed.

Lemma case_P_speaks st : returns (case_P rword st) (speaks st).
Proof. unfold case_P. wp_speaks. Qed.

Lemma case_Q_speaks st : returns (case_Q rword st) (speaks st).
Proof. unfold case_Q. wp_speaks. Qed.

Lemma case_R_speaks st : returns (case_R word rword wlen st) (speaks st).
Proof. unfold case_R. wp_speaks. Qed.

Lemma case_S_SC_speaks st : returns (case_S_SC rword st) (speaks st).
Proof. unfold case_S_SC. wp_speaks. Qed.

Lemma case_S_speaks st : returns (case_S word rword wlen st) (speaks st).
Proof.
  unfold case_S.
  repeat first [ apply case_S_SC_speaks | wp_step ]; speaks_tac.
Qed.

Lemma case_T_speaks st : returns (case_T rword st) (speaks st).
Proof. unfold case_T. wp_speaks. Qed.

Lemma case_V_speaks st : returns (case_V rword st) (speaks st).
Proof. unfold case_V. wp_speaks. Qed.

Lemma case_X_speaks st : returns (case_X rword wlen st) (speaks st).
Proof. unfold case_X. wp_speaks. Qed.

Lemma case_Z_speaks st : returns (case_Z word rword st) (speaks st).
Proof. unfold case_Z. wp_speaks. Qed.

Lemma step_speaks st : returns (step word rword wlen st) (speaks st).
Proof.
  unfold step. destruct (GetAt_total rword (current st)) as [c ->].
  cbn [bind].
  repeat match goal with
    | |- returns (if ?b then _ else _) _ => destruct b
    end;
    first
      [ apply case_vowel_speaks | apply case_B_speaks | apply case_C_cedilla_speaks
      | apply case_C_speaks | apply case_D_speaks | apply case_F_speaks
      | apply case_G_speaks | apply case_H_speaks | apply case_J_speaks
      | apply case_K_speaks | apply case_L_speaks | apply case_M_speaks
      | apply case_N_speaks | apply case_N_tilde_speaks | apply case_P_speaks
      | apply case_Q_speaks | apply case_R_speaks | apply case_S_speaks
      | apply case_T_speaks | apply case_V_speaks | apply case_W_speaks
      | apply case_X_speaks | apply case_Z_speaks
      | wp_speaks ].
Qed.

Lemma prologue_echoes st : returns (prologue rword st) (echoes st).
Proof. unfold prologue. repeat wp_step; echoes_tac. Qed.

End RulesSpeak.

Lemma consecutive_cons {A : Type} (x : A) (l : list A) (a b : A) :
  consecutive l a b -> consecutive (x :: l) a b.
Proof. intros (l1 & l2 & ->). exists (x :: l1), l2. reflexivity. Qed.

Lemma state_log_head (word : string) (rword : list rune) (wlen maxlength : Z)
    (fuel : nat) (st : state) :
  exists tl, state_log word rword wlen maxlength fuel st = st :: tl.
Proof. destruct fuel; eexists; reflexivity. Qed.

Section PassLog.

Variable word : string.
Variable rword : list rune.
Variable wlen maxlength : Z.

(** The log ends with the state in which the loop is left, and a loop
    that is entered with [alternate] clear and left with [alternate] set
    has a firing in its log that set it by a divergent emission. *)
Lemma state_log_diverges (fuel : nat) : forall st,
  (Z.to_nat (wlen - current st) <= fuel)%nat ->
  exists fs,
    main_loop word rword wlen maxlength fuel st = Ok fs
    /\ list.last (state_log word rword wlen maxlength fuel st) = Some fs
    /\ (alternate st = false -> alternate fs = true ->
        exists a b,
          consecutive (state_log word rword wlen maxlength fuel st) a b
          /\ step word rword wlen a = Ok b
          /\ alternate a = false /\ alternate b = true /\ diverges a b).
Proof.
  induction fuel as [| fuel IH]; intros st Hfuel.
  - cbn [main_loop state_log].
    destruct (loop_cond wlen maxlength st) eqn:Hc.
    + unfold loop_cond in Hc. apply andb_true_iff in Hc as [Hc _].
      apply Z.ltb_lt in Hc. lia.
    + exists st. refine (conj eq_refl (conj eq_refl _)). congruence.
  - cbn [main_loop state_log].
    destruct (loop_cond wlen maxlength st) eqn:Hc.
    + destruct (step_fires word rword wlen st) as (st' & Hst' & Hcur & _).
      destruct (step_speaks word rword wlen st) as (st2 & Hst2 & Hsp).
      rewrite Hst' in Hst2. injection Hst2 as <-. rewrite Hst'. cbn [bind].
      destruct (IH st' ltac:(lia)) as (fs & Hfs & Hlast & Hdiv).
      exists fs. split; [exact Hfs |].
      destruct (state_log_head word rword wlen maxlength fuel st') as [tl Htl].
      split.
      * rewrite Htl in *. exact Hlast.
      * intros Hst Hfin. destruct (alternate st') eqn:Halt'.
        -- exists st, st'. split; [exists [], tl; rewrite Htl; reflexivity |].
           split; [exact Hst' |]. split; [exact Hst |]. split; [exact Halt' |].
           destruct Hsp as [[He _] | [_ Hd]]; [congruence | exact Hd].
        -- destruct (Hdiv eq_refl Hfin) as (a & b & Hcons & Hrest).
           exists a, b. split; [apply consecutive_cons, Hcons | exact Hrest].
    + exists st. refine (conj eq_refl (conj eq_refl _)). congruence.
Qed.

End PassLog.

(** C3. The secondary code is non-empty only if some rule made a
    divergent emission during the pass.  [metaph2] is assigned only when
    the pass ends with [alternate] set; [alternate] is clear at first, and
    [MetaphAdd] sets it exactly when it is given a divergent pair (a
    non-empty second token).  The code before the loop leaves the flag as
    it is, and every firing of a rule either leaves the flag as it is and
    writes the same text to both buffers, or writes different texts to the
    two buffers and the flag is set: the rules set the flag in no other
    way.  So a non-empty secondary code has, in the log of the pass, a
    firing that found the flag clear, wrote different texts to the two
    buffers and set it; and a pass in whose log no firing wrote different
    texts yields the empty secondary code. *)
Theorem C3_secondary_needs_divergence (word : string) (maxlength : Z) :
  exists metaph metaph2,
    DoubleMetaphone word maxlength = Ok (metaph, metaph2)
    /\ (metaph2 <> "" ->
        exists fs, final_state word maxlength = Ok fs /\ alternate fs = true)
    /\ (forall fs, final_state word maxlength = Ok fs -> alternate fs = false ->
        metaph2 = "" /\ primary fs = secondary fs)
    /\ (forall s st st', MetaphAdd s st = Ok st' ->
        alternate st' = alternate st || divergent s)
    /\ alternate (initial_state) = false
    /\ (forall rword st st', prologue rword st = Ok st' -> echoes st st')
    /\ (forall w rword wlen st st', step w rword wlen st = Ok st' ->
        speaks st st')
    /\ (forall fs, final_state word maxlength = Ok fs ->
        list.last (pass_log word maxlength) = Some fs)
    /\ (metaph2 <> "" ->
        exists st st',
          consecutive (pass_log word maxlength) st st'
          /\ step (upper_padded word) (runes (upper_padded word)) (len word)
               st = Ok st'
          /\ alternate st = false /\ alternate st' = true
          /\ diverges st st')
    /\ ((forall st st', consecutive (pass_log word maxlength) st st' ->
         ~ diverges st st') ->
        metaph2 = "").
Proof.
  destruct (final_state_returns word maxlength) as (fs & Hfs & _ & Hinv).
  pose proof (effective_maxlength_pos maxlength) as Hpos.
  destruct (finish_returns (effective_maxlength maxlength) fs)
    as ([p s] & Hfin & _ & _ & Hs); [lia |].
  cbn [fst snd] in Hs.
  assert (Hflag : forall toks st st', MetaphAdd toks st = Ok st' ->
                  alternate st' = alternate st || divergent toks).
  { intros toks st st' H. apply MetaphAdd_alternate in H. tauto. }
  assert (Hpro : forall rword st st', prologue rword st = Ok st' ->
                 echoes st st').
  { intros rword st st' H.
    destruct (prologue_echoes rword st) as (st2 & Hst2 & He). congruence. }
  assert (Hstep : forall w rword wlen st st', step w rword wlen st = Ok st' ->
                  speaks st st').
  { intros w rword wlen st st' H.
    destruct (step_speaks w rword wlen st) as (st2 & Hst2 & He). congruence. }
  (* the log of the pass *)
  assert (Hlog : list.last (pass_log word maxlength) = Some fs
                 /\ (alternate fs = true ->
                     exists st st',
                       consecutive (pass_log word maxlength) st st'
                       /\ step (upper_padded word) (runes (upper_padded word))
                            (len word) st = Ok st'
                       /\ alternate st = false /\ alternate st' = true
                       /\ diverges st st')).
  { unfold final_state, pass in Hfs. unfold pass_log.
    destruct (prologue_keeps (runes (upper_padded word)) initial_state)
      as (st0 & Hst0 & Hcur & _).
    pose proof (Hpro _ _ _ Hst0) as [Halt0 _].
    rewrite Hst0 in *. cbn [bind] in Hfs.
    destruct (state_log_diverges (upper_padded word) (runes (upper_padded word))
                (len word) (effective_maxlength maxlength)
                (Z.to_nat (len word)) st0) as (fs' & Hfs' & Hlast & Hdiv).
    { cbn [current initial_state] in Hcur. lia. }
    rewrite Hfs in Hfs'. injection Hfs' as <-.
    destruct (state_log_head (upper_padded word) (runes (upper_padded word))
                (len word) (effective_maxlength maxlength)
                (Z.to_nat (len word)) st0) as [tl Htl].
    split.
    - rewrite Htl in *. exact Hlast.
    - intros Hfinal. destruct (Hdiv Halt0 Hfinal) as (a & b & Hcons & Hrest).
      exists a, b. split; [apply consecutive_cons, Hcons | exact Hrest]. }
  destruct Hlog as [Hlast Hdiv].
  assert (Hlast' : forall fs', final_state word maxlength = Ok fs' ->
                   list.last (pass_log word maxlength) = Some fs').
  { intros fs' H. rewrite Hfs in H. injection H as <-. exact Hlast. }
  assert (HDM : DoubleMetaphone word maxlength
                = if len word <? 1 then Ok ("", "") else Ok (p, s)).
  { rewrite DoubleMetaphone_unfold, Hfs. cbn [bind]. rewrite Hfin.
    reflexivity. }
  assert (Hclear : forall fs', final_state word maxlength = Ok fs' ->
                   alternate fs' = false ->
                   s = "" /\ primary fs' = secondary fs').
  { intros fs' Hfs' Halt. rewrite Hfs in Hfs'. injection Hfs' as <-.
    split; [apply Hs, Halt | apply Hinv, Halt]. }
  assert (Hset : s <> "" -> alternate fs = true).
  { intros Hne. destruct (alternate fs); [reflexivity |]. elim Hne. auto. }
  destruct (len word <? 1).
  - exists "", "".
    refine (conj HDM (conj _ (conj _ (conj Hflag (conj eq_refl
             (conj Hpro (conj Hstep (conj Hlast' (conj _ _)))))))));
      try (intros Hne; elim Hne; reflexivity); try reflexivity.
    intros fs' Hfs' Halt. split; [reflexivity | apply (Hclear fs' Hfs' Halt)].
  - exists p, s.
    refine (conj HDM (conj _ (conj Hclear (conj Hflag (conj eq_refl
             (conj Hpro (conj Hstep (conj Hlast' (conj _ _))))))))).
    + intros Hne. exists fs. split; [exact Hfs | exact (Hset Hne)].
    + intros Hne. exact (Hdiv (Hset Hne)).
    + intros Hnone. destruct s as [| c s']; [reflexivity |]. exfalso.
      destruct (Hdiv (Hset ltac:(discriminate))) as (a & b & Hcons & _ & _ & _ & Hd).
      exact (Hnone a b Hcons Hd).
Qed.

(** ** Case, for all the characters of the case tables *)

Lemma range_forallb (P : Z -> bool) (n : nat) :
  forallb P (map Z.of_nat (seq 0 n)) = true ->
  forall r, 0 <= r < Z.of_nat n -> P r = true.
Proof.
  intros H r Hr. rewrite forallb_forall in H. apply H.
  apply in_map_iff. exists (Z.to_nat r). split; [lia |].
  apply in_seq. lia.
Qed.

Lemma DecodeRune_two_bytes (b0 b1 : Z) (rest : list Z) :
  194 <= b0 <= 223 -> 128 <= b1 <= 191 ->
  DecodeRune (b0 :: b1 :: rest)
  = (Z.lor (Z.shiftl (Z.land b0 31) 6) (Z.land b1 63), 2%nat).
Proof.
  intros H0 H1. unfold DecodeRune.
  destruct (Z.ltb_spec b0 128); [lia |].
  destruct (Z.ltb_spec b0 194); [lia |].
  destruct (Z.ltb_spec 244 b0); [lia |]. cbn [orb].
  destruct (Z.eqb_spec b0 224); [lia |].
  destruct (Z.eqb_spec b0 240); [lia |].
  destruct (Z.eqb_spec b0 237); [lia |].
  destruct (Z.eqb_spec b0 244); [lia |].
  destruct (Z.ltb_spec b1 128); [lia |].
  destruct (Z.ltb_spec 191 b1); [lia |]. cbn [orb].
  destruct (Z.ltb_spec b0 224); [reflexivity | lia].
Qed.

Lemma two_bytes_table :
  forallb two_bytes_ok (map Z.of_nat (seq 0 2048)) = true.
Proof. vm_compute. reflexivity. Qed.

Lemma DecodeRune_EncodeRune_short (r : rune) (rest : list Z) :
  short_rune r = true ->
  DecodeRune (EncodeRune r ++ rest) = (r, List.length (EncodeRune r))
  /\ List.Forall (fun b => 0 <= b < 256) (EncodeRune r).
Proof.
  unfold short_rune, within. intros H.
  apply andb_true_iff in H as [Hlo Hhi].
  apply Z.leb_le in Hlo. apply Z.leb_le in Hhi.
  destruct (Z.ltb_spec r 128) as [Hs | Hs].
  - rewrite EncodeRune_ascii by lia. cbn [app List.length DecodeRune].
    destruct (Z.ltb_spec r 128); [| lia].
    split; [reflexivity | repeat constructor; lia].
  - pose proof (range_forallb _ _ two_bytes_table r ltac:(lia)) as Hok.
    unfold two_bytes_ok in Hok.
    destruct (Z.ltb_spec r 128); [lia |]. cbn [orb] in Hok.
    destruct (EncodeRune r) as [| b0 [| b1 [| ? ?]]]; try discriminate Hok.
    unfold within in Hok.
    apply andb_true_iff in Hok as [Hok Heq].
    apply andb_true_iff in Hok as [Hb0 Hb1].
    apply andb_true_iff in Hb0 as [Hb0 Hb0'].
    apply andb_true_iff in Hb1 as [Hb1 Hb1'].
    apply Z.leb_le in Hb0, Hb0', Hb1, Hb1'. apply Z.eqb_eq in Heq.
    cbn [app List.length]. rewrite DecodeRune_two_bytes by lia.
    split; [rewrite Heq; reflexivity | repeat constructor; lia].
Qed.

Lemma decode_runes_encode_short (rs : list rune) : forall fuel,
  List.Forall (fun r => short_rune r = true) rs ->
  (List.length (flat_map EncodeRune rs) <= fuel)%nat ->
  decode_runes fuel (flat_map EncodeRune rs) = rs.
Proof.
  induction rs as [| r rs IH]; intros fuel Hrs Hfuel.
  - destruct fuel; reflexivity.
  - apply List.Forall_cons_iff in Hrs as [Hr Hrs].
    cbn [flat_map] in *. rewrite length_app in Hfuel.
    pose proof (EncodeRune_nonempty r) as Hne.
    destruct fuel as [| fuel]; [lia |].
    destruct (DecodeRune_EncodeRune_short r (flat_map EncodeRune rs) Hr)
      as [Hd _].
    destruct (EncodeRune r) as [| b0 bs] eqn:He; [simpl in Hne; lia |].
    cbn [decode_runes app] in *. rewrite Hd.
    f_equal.
    change (b0 :: bs ++ flat_map EncodeRune rs)
      with ((b0 :: bs) ++ flat_map EncodeRune rs).
    rewrite drop_app_length.
    apply IH; [exact Hrs | simpl in Hfuel; lia].
Qed.

Lemma runes_string_of_runes_short (rs : list rune) :
  List.Forall (fun r => short_rune r = true) rs ->
  runes (string_of_runes rs) = rs.
Proof.
  intros Hrs. unfold runes, string_of_runes. cbv zeta.
  rewrite bytes_of_string_of_bytes.
  - apply decode_runes_encode_short; [exact Hrs | lia].
  - induction Hrs as [| r rs Hr _ IH]; cbn [flat_map]; [constructor |].
    apply List.Forall_app. split; [| exact IH].
    apply (DecodeRune_EncodeRune_short r [] Hr).
Qed.

Lemma case_forms_table :
  forallb case_forms_short (map Z.of_nat (seq 0 384)) = true.
Proof. vm_compute. reflexivity. Qed.

Lemma unstable_table :
  forallb unstable_listed (map Z.of_nat (seq 0 384)) = true.
Proof. vm_compute. reflexivity. Qed.

Lemma case_stable_rune_spec (r : rune) :
  case_stable_rune r = true ->
  0 <= r <= 383
  /\ short_rune (unicode_ToUpper r) = true
  /\ short_rune (unicode_ToLower r) = true
  /\ List.length (EncodeRune (unicode_ToUpper r)) = List.length (EncodeRune r)
  /\ List.length (EncodeRune (unicode_ToLower r)) = List.length (EncodeRune r)
  /\ unicode_ToUpper (unicode_ToLower r) = unicode_ToUpper r
  /\ unicode_ToUpper (unicode_ToUpper r) = unicode_ToUpper r.
Proof.
  unfold case_stable_rune, within. intros H.
  repeat (apply andb_true_iff in H; destruct H as [H ?]).
  repeat match goal with
    | H : (_ <=? _) = true |- _ => apply Z.leb_le in H
    | H : (_ =? _) = true |- _ => apply Z.eqb_eq in H
    | H : (_ =? _)%nat = true |- _ => apply Nat.eqb_eq in H
    end.
  pose proof (range_forallb _ _ case_forms_table r ltac:(lia)) as Hf.
  unfold case_forms_short in Hf. apply andb_true_iff in Hf as [Hu Hl].
  repeat split; auto; lia.
Qed.

Lemma encoder_letter_stable (r : rune) :
  encoder_letter r = true -> case_stable_rune r = true.
Proof.
  intros H.
  assert (Hr : 0 <= r < 384).
  { unfold encoder_letter, within in H.
    repeat (apply orb_true_iff in H; destruct H as [H | H]);
      [apply andb_true_iff in H as [H1 H2];
       apply Z.leb_le in H1; apply Z.leb_le in H2 | ..];
      try (apply Z.eqb_eq in H); lia. }
  pose proof (range_forallb _ _ unstable_table r ltac:(lia)) as Hu.
  unfold unstable_listed in Hu. apply Bool.eqb_prop in Hu.
  destruct (case_stable_rune r); [reflexivity |].
  cbn [negb] in Hu. symmetry in Hu.
  repeat (apply orb_true_iff in Hu; destruct Hu as [Hu | Hu]);
    apply Z.eqb_eq in Hu; subst r; vm_compute in H; discriminate H.
Qed.

Lemma encoder_text_stable (a : string) :
  encoder_text a = true -> case_stable_text a = true.
Proof.
  unfold encoder_text, case_stable_text. intros H.
  apply andb_true_iff in H as [Hl He]. apply andb_true_iff.
  split; [| exact He].
  rewrite forallb_forall in *. intros r Hr.
  apply encoder_letter_stable, Hl, Hr.
Qed.

Section StableText.

Variable w : string.
Hypothesis Hstable : case_stable_text w = true.

Lemma case_stable_text_runes :
  List.Forall (fun r => case_stable_rune r = true) (runes w)
  /\ string_of_runes (runes w) = w.
Proof.
  unfold case_stable_text in Hstable.
  apply andb_true_iff in Hstable as [Hl He].
  split; [| apply String.eqb_eq, He].
  apply List.Forall_forall. rewrite forallb_forall in Hl. exact Hl.
Qed.

Lemma len_case_stable :
  len (strings_ToUpper w) = len w /\ len (strings_ToLower w) = len w.
Proof.
  destruct case_stable_text_runes as [Hl He].
  rewrite List.Forall_forall in Hl.
  rewrite ToUpper_is_Map, ToLower_is_Map. unfold strings_Map.
  rewrite !len_string_of_runes_map, He; [auto | |];
    intros r Hr; apply case_stable_rune_spec, Hl, Hr.
Qed.

Lemma ToUpper_case_stable :
  strings_ToUpper (strings_ToUpper w) = strings_ToUpper w
  /\ strings_ToUpper (strings_ToLower w) = strings_ToUpper w.
Proof.
  destruct case_stable_text_runes as [Hl _].
  rewrite List.Forall_forall in Hl.
  rewrite !ToUpper_is_Map, ToLower_is_Map. unfold strings_Map.
  split;
    (rewrite runes_string_of_runes_short
       by (apply List.Forall_map, List.Forall_forall; intros r Hr;
           apply case_stable_rune_spec, Hl, Hr));
    rewrite map_map; f_equal; apply map_ext_in; intros r Hr;
    apply case_stable_rune_spec, Hl, Hr.
Qed.

End StableText.




(** The byte length is taken before upper-casing while positions count
    runes, so a letter whose upper-case form is shorter moves [last]: the
    long s (U+017F, two bytes) of "ai" + U+017F upper-cases to [S], and the
    word is not encoded as "AIS" is. *)
Example long_s_shifts_last :
  strings_ToUpper word_ai_long_s = "AIS"
  /\ DoubleMetaphone word_ai_long_s 4 = Ok ("AS", "")
  /\ DoubleMetaphone "AIS" 4 = Ok ("A", "AS").
Proof. repeat split; vm_compute; reflexivity. Qed.

(** The three characters that are left out are left out for cause: each
    has a word on which a change of case changes the codes.  The dotless i
    upper-cases to [I] and loses a byte, as the long s does; the I with dot
    above lower-cases to [i] and loses a byte. *)
Example unstable_letters_change_codes :
  DoubleMetaphone word_a_dotless_i_s 4 = Ok ("AS", "")
  /\ DoubleMetaphone (strings_ToUpper word_a_dotless_i_s) 4 = Ok ("A", "AS")
  /\ DoubleMetaphone word_a_dotted_I_s 4 = Ok ("AS", "")
  /\ DoubleMetaphone (strings_ToLower word_a_dotted_I_s) 4 = Ok ("A", "AS")
  /\ DoubleMetaphone word_ai_long_s 4 = Ok ("AS", "")
  /\ DoubleMetaphone (strings_ToUpper word_ai_long_s) 4 = Ok ("A", "AS").
Proof. repeat split; vm_compute; reflexivity. Qed.

(** Well-formedness is asked for cause as well: [strings.ToUpper] writes
    U+FFFD, three bytes, for a byte that is not UTF-8, so the upper-case
    form is longer than the word and [last] moves. *)
Example ill_formed_changes_codes :
  len word_ill_formed_ais = 4
  /\ len (strings_ToUpper word_ill_formed_ais) = 6
  /\ DoubleMetaphone word_ill_formed_ais 4 = Ok ("", "S")
  /\ DoubleMetaphone (strings_ToUpper word_ill_formed_ais) 4 = Ok ("S", "").
Proof. repeat split; vm_compute; reflexivity. Qed.
